(** * markovchain-ts: the Markov chain of [src/markov.ts]

    A shallow embedding of [Chain] (build, toJSON / fromJSON, move, walk)
    and of its helpers [createStateKey], [createBeginState], [last] and
    [bisect], together
    with the parts of the JavaScript run time the code leans on: values,
    plain objects with their property order, [JSON.stringify] and
    [JSON.parse].

    Conventions of the model.
    - A JS string is a [string] whose characters are the code units
      0..255.  Text that needs a larger code unit is outside the model.
    - A JS number is an integer, [NaN] or an infinity.  Integers stand for
      themselves while they are safe ([|z| <= 2^53 - 1]); arithmetic on
      counts is exact under that bound.  Fractions are outside the model.
    - A plain object is the list of its own properties in the order
      [for-in], [JSON.stringify] and [Object.assign] visit them: array
      indices first, ascending, then the other keys in the order of their
      creation.  Prototypes are not modelled; the one operation that
      would change a prototype (assigning the key [__proto__]) is
      reported as outside the model.
    - Operations return an [outcome]: a result, a thrown exception, or
      [Unmodelled] where the run leaves the model described above. *)

From Stdlib Require Import ZArith NArith QArith List String Ascii Bool Lia Lqa.
From Stdlib Require Import DecimalString DecimalN DecimalFacts Permutation.
Import ListNotations.

Local Open Scope string_scope.
Local Open Scope list_scope.
Local Open Scope Z_scope.

(** ** Outcomes of a call *)

Inductive exn : Type :=
| Error (message : string)   (* [throw new Error(message)] *)
| TypeError                  (* raised by the run time *)
| SyntaxError.               (* raised by [JSON.parse] *)

Inductive outcome (A : Type) : Type :=
| Returns (a : A)
| Throws (e : exn)
| Unmodelled.

Arguments Returns {A} a.
Arguments Throws {A} e.
Arguments Unmodelled {A}.

Definition bind {A B : Type} (m : outcome A) (k : A -> outcome B) : outcome B :=
  match m with
  | Returns a => k a
  | Throws e => Throws e
  | Unmodelled => Unmodelled
  end.

Notation "x <- m ;; k" := (bind m (fun x => k))
  (at level 61, m at next level, right associativity).
Notation "' p <- m ;; k" := (bind m (fun x => match x with p => k end))
  (at level 61, p pattern, m at next level, right associativity).

(** [for]-loop over the elements of an array, threading an accumulator. *)
Fixpoint forM {A S : Type} (body : S -> A -> outcome S) (s : S) (l : list A)
  : outcome S :=
  match l with
  | [] => Returns s
  | a :: l' => s' <- body s a ;; forM body s' l'
  end.

(** ** JavaScript values *)

Module JS.

Inductive number : Type :=
| Int (z : Z)
| NaN
| Infinity (negative : bool).

Unset Elimination Schemes.
Inductive any : Type :=
| VUndefined
| VNull
| VBool (b : bool)
| VNum (n : number)
| VStr (s : string)
| VArr (elems : list any)
| VObj (props : list (string * any)).
Set Elimination Schemes.

Definition MAX_SAFE_INTEGER : Z := 2 ^ 53 - 1.

Definition safe_integer (z : Z) : bool :=
  (- MAX_SAFE_INTEGER <=? z) && (z <=? MAX_SAFE_INTEGER).

(** [Array.isArray] *)
Definition isArray (v : any) : bool :=
  match v with VArr _ => true | _ => false end.

(** ToBoolean: what [!x] and [x || y] test. *)
Definition truthy (v : any) : bool :=
  match v with
  | VUndefined | VNull => false
  | VBool b => b
  | VNum (Int z) => negb (z =? 0)
  | VNum NaN => false
  | VNum (Infinity _) => true
  | VStr s => negb (String.eqb s EmptyString)
  | VArr _ | VObj _ => true
  end.

(** Number::toString on an integer, and the decimal rendering of a
    natural number. *)
Definition string_of_N (n : N) : string :=
  NilEmpty.string_of_uint (N.to_uint n).

Definition string_of_Z (z : Z) : string :=
  match z with
  | Z0 => "0"
  | Zpos p => string_of_N (Npos p)
  | Zneg p => String "-" (string_of_N (Npos p))
  end.

(** *** Plain objects *)

Definition object (A : Type) : Type := list (string * A).

(** A key is an array index when it is the canonical decimal rendering of
    an integer in [0, 2^32 - 2]. *)
Definition array_index (k : string) : option N :=
  match NilEmpty.uint_of_string k with
  | Some d =>
      let n := N.of_uint d in
      if String.eqb (string_of_N n) k && (n <=? 4294967294)%N then Some n else None
  | None => None
  end.

Section Objects.
Context {A : Type}.

(** [o[k]] on an own property; [None] is [undefined]. *)
Fixpoint obj_get (k : string) (o : object A) : option A :=
  match o with
  | [] => None
  | (k', a) :: o' => if String.eqb k' k then Some a else obj_get k o'
  end.

Definition obj_has (k : string) (o : object A) : bool :=
  match obj_get k o with Some _ => true | None => false end.

(** In-place update of the property [k], when it exists. *)
Fixpoint obj_modify (k : string) (f : A -> A) (o : object A) : object A :=
  match o with
  | [] => []
  | (k', a) :: o' =>
      if String.eqb k' k then (k', f a) :: o' else (k', a) :: obj_modify k f o'
  end.

(** A new array-index key goes after the smaller indices. *)
Fixpoint obj_insert_index (n : N) (k : string) (a : A) (o : object A)
  : object A :=
  match o with
  | [] => [(k, a)]
  | (k', a') :: o' =>
      match array_index k' with
      | Some n' =>
          if (n <? n')%N then (k, a) :: o
          else (k', a') :: obj_insert_index n k a o'
      | None => (k, a) :: o
      end
  end.

(** Defining the own property [k]: an existing property keeps its
    place, a new one is placed by the property order. *)
Definition obj_set (k : string) (a : A) (o : object A) : object A :=
  if obj_has k o then obj_modify k (fun _ => a) o
  else match array_index k with
       | Some n => obj_insert_index n k a o
       | None => o ++ [(k, a)]
       end.

(** The assignment [o[k] = a]: as [obj_set], except that the key
    [__proto__] reaches the prototype setter, which defines no property
    and replaces the prototype of [o].  Objects carry no prototype here:
    that assignment is outside the model, and the statements about
    [fromJSON] name the keys they leave out. *)
Definition obj_assign (k : string) (a : A) (o : object A)
  : outcome (object A) :=
  if String.eqb k "__proto__" then Unmodelled else Returns (obj_set k a o).

Definition keys (o : object A) : list string := map fst o.
End Objects.

(** *** The run-time operations [fromJSON] applies to parsed data *)

(** ToPropertyKey, for the primitive values. *)
Definition to_property_key (v : any) : outcome string :=
  match v with
  | VStr s => Returns s
  | VUndefined => Returns "undefined"
  | VNull => Returns "null"
  | VBool true => Returns "true"
  | VBool false => Returns "false"
  | VNum (Int z) => if safe_integer z then Returns (string_of_Z z) else Unmodelled
  | VNum NaN => Returns "NaN"
  | VNum (Infinity false) => Returns "Infinity"
  | VNum (Infinity true) => Returns "-Infinity"
  | VArr _ | VObj _ => Unmodelled
  end.

(** The read [v.name] of a property that no prototype defines, such as
    [stateSize] and [model]. *)
Definition get_field (v : any) (name : string) : outcome any :=
  match v with
  | VUndefined | VNull => Throws TypeError
  | VObj props =>
      Returns (match obj_get name props with Some x => x | None => VUndefined end)
  | _ => Returns VUndefined
  end.

Definition string_chars (s : string) : list any :=
  map (fun c => VStr (String c EmptyString)) (list_ascii_of_string s).

(** The values [v[0]], ..., [v[v.length - 1]] visited by a loop
    [for (i = 0; i < v.length; i++)].  A value without a [length] has
    none; an object that carries its own [length] is outside the model. *)
Definition elements (v : any) : outcome (list any) :=
  match v with
  | VUndefined | VNull => Throws TypeError
  | VArr l => Returns l
  | VStr s => Returns (string_chars s)
  | VBool _ | VNum _ => Returns []
  | VObj props => if obj_has "length" props then Unmodelled else Returns []
  end.

(** The array pattern [const [a, b] = v]: arrays and strings are
    iterable, nothing else among these values is. *)
Definition destructure2 (v : any) : outcome (any * any) :=
  match v with
  | VArr l => Returns (nth 0 l VUndefined, nth 1 l VUndefined)
  | VStr s =>
      let l := string_chars s in
      Returns (nth 0 l VUndefined, nth 1 l VUndefined)
  | _ => Throws TypeError
  end.

Definition index_props (l : list any) : object any :=
  combine (map (fun i => string_of_N (N.of_nat i)) (seq 0 (List.length l))) l.

(** [Object.assign({}, source)]: the own enumerable properties of the
    source, assigned in their order to a fresh object. *)
Definition object_assign (source : any) : outcome (object any) :=
  match source with
  | VObj props =>
      forM (fun target kv => obj_assign (fst kv) (snd kv) target) [] props
  | VArr l => Returns (index_props l)
  | VStr s => Returns (index_props (string_chars s))
  | _ => Returns []
  end.

(** *** Arrays *)

(** [Array.prototype.slice(start, end)], negative positions counting from
    the end. *)
Definition slice {A : Type} (l : list A) (start final : Z) : list A :=
  let len := Z.of_nat (List.length l) in
  let relative i := if i <? 0 then Z.max (len + i) 0 else Z.min i len in
  let k := relative start in
  firstn (Z.to_nat (relative final - k)) (skipn (Z.to_nat k) l).

(** [l[i]] *)
Definition index (l : list any) (i : Z) : any :=
  if i <? 0 then VUndefined else nth (Z.to_nat i) l VUndefined.

End JS.

(** ** JSON text *)

Module JSON.
Import JS.

Local Open Scope char_scope.

Definition chars (s : string) : list ascii := list_ascii_of_string s.

(** *** JSON.stringify *)

Definition hex_digit (n : N) : ascii :=
  match n with
  | 0%N => "0" | 1%N => "1" | 2%N => "2" | 3%N => "3" | 4%N => "4"
  | 5%N => "5" | 6%N => "6" | 7%N => "7" | 8%N => "8" | 9%N => "9"
  | 10%N => "a" | 11%N => "b" | 12%N => "c" | 13%N => "d" | 14%N => "e"
  | _ => "f"
  end.

(** QuoteJSONString, one code unit at a time. *)
Definition quote_char (c : ascii) : list ascii :=
  match c with
  | "008" => ["\"; "b"]
  | "009" => ["\"; "t"]
  | "010" => ["\"; "n"]
  | "012" => ["\"; "f"]
  | "013" => ["\"; "r"]
  | "034" => ["\"; "034"]
  | "\" => ["\"; "\"]
  | _ =>
      let n := N_of_ascii c in
      if (n <? 32)%N
      then ["\"; "u"; "0"; "0"; hex_digit (n / 16); hex_digit (n mod 16)]
      else [c]
  end.

Definition quote (s : string) : list ascii :=
  "034" :: flat_map quote_char (chars s) ++ ["034"].

Fixpoint join (parts : list (list ascii)) : list ascii :=
  match parts with
  | [] => []
  | [p] => p
  | p :: ps => p ++ "," :: join ps
  end.

Definition null_text : list ascii := ["n"; "u"; "l"; "l"].

(** SerializeJSONProperty without indentation: [None] is the result
    [undefined].  An element of an array that has no rendering is written
    [null], a property that has none is left out. *)
Fixpoint serialize (v : any) : option (list ascii) :=
  match v with
  | VUndefined => None
  | VNull => Some null_text
  | VBool true => Some ["t"; "r"; "u"; "e"]
  | VBool false => Some ["f"; "a"; "l"; "s"; "e"]
  | VNum (Int z) => Some (chars (string_of_Z z))
  | VNum _ => Some null_text
  | VStr s => Some (quote s)
  | VArr elems =>
      Some ("[" :: join (map (fun e => match serialize e with
                                       | Some t => t
                                       | None => null_text
                                       end) elems) ++ ["]"])
  | VObj props =>
      Some ("{" :: join (flat_map (fun kv => match serialize (snd kv) with
                                             | Some t => [quote (fst kv) ++ ":" :: t]
                                             | None => []
                                             end) props) ++ ["}"])
  end.

Definition stringify (v : any) : option string :=
  option_map string_of_list_ascii (serialize v).

(** The string a property access [o[JSON.stringify(v)]] uses as its key:
    an [undefined] key is the property name ["undefined"]. *)
Definition property_key (k : option string) : string :=
  match k with Some s => s | None => "undefined"%string end.

(** *** JSON.parse *)

Inductive token : Type :=
| TLBrace | TRBrace | TLBracket | TRBracket | TColon | TComma
| TString (s : string)
| TNumber (z : Z)
| TTrue | TFalse | TNull.

Definition is_ws (c : ascii) : bool :=
  match c with " " | "009" | "010" | "013" => true | _ => false end.

Definition is_digit (c : ascii) : bool :=
  match c with
  | "0" | "1" | "2" | "3" | "4" | "5" | "6" | "7" | "8" | "9" => true
  | _ => false
  end.

Definition hex_value (c : ascii) : option N :=
  match c with
  | "0" => Some 0%N | "1" => Some 1%N | "2" => Some 2%N | "3" => Some 3%N
  | "4" => Some 4%N | "5" => Some 5%N | "6" => Some 6%N | "7" => Some 7%N
  | "8" => Some 8%N | "9" => Some 9%N
  | "a" | "A" => Some 10%N | "b" | "B" => Some 11%N | "c" | "C" => Some 12%N
  | "d" | "D" => Some 13%N | "e" | "E" => Some 14%N | "f" | "F" => Some 15%N
  | _ => None
  end.

Definition hex4 (a b c d : ascii) : option N :=
  match hex_value a, hex_value b, hex_value c, hex_value d with
  | Some x, Some y, Some z, Some w => Some (((x * 16 + y) * 16 + z) * 16 + w)%N
  | _, _, _, _ => None
  end.

(** The character a single-letter escape stands for. *)
Definition unescape (c : ascii) : option ascii :=
  match c with
  | "034" => Some "034"
  | "\" => Some "\"
  | "/" => Some "/"
  | "b" => Some "008"
  | "f" => Some "012"
  | "n" => Some "010"
  | "r" => Some "013"
  | "t" => Some "009"
  | _ => None
  end.

(** The body of a string literal, after its opening quote. *)
Fixpoint lex_string (s : list ascii) : outcome (string * list ascii) :=
  match s with
  | [] => Throws SyntaxError
  | "034" :: rest => Returns (EmptyString, rest)
  | "\" :: "u" :: a :: b :: c :: d :: s' =>
      match hex4 a b c d with
      | Some n =>
          if (n <? 256)%N
          then '(str, rest) <- lex_string s' ;;
               Returns (String (ascii_of_N n) str, rest)
          else Unmodelled
      | None => Throws SyntaxError
      end
  | "\" :: e :: s' =>
      match unescape e with
      | Some c => '(str, rest) <- lex_string s' ;; Returns (String c str, rest)
      | None => Throws SyntaxError
      end
  | "\" :: [] => Throws SyntaxError
  | c :: s' =>
      if (N_of_ascii c <? 32)%N then Throws SyntaxError
      else '(str, rest) <- lex_string s' ;; Returns (String c str, rest)
  end.

Fixpoint span_digits (s : list ascii) : list ascii * list ascii :=
  match s with
  | c :: s' =>
      if is_digit c
      then let (ds, rest) := span_digits s' in (c :: ds, rest)
      else ([], s)
  | [] => ([], [])
  end.

(** Optional fraction: [Returns (true, rest)] when one was read. *)
Definition lex_fraction (s : list ascii) : outcome (bool * list ascii) :=
  match s with
  | "." :: s' =>
      match span_digits s' with
      | ([], _) => Throws SyntaxError
      | (_, rest) => Returns (true, rest)
      end
  | _ => Returns (false, s)
  end.

Definition lex_exponent (s : list ascii) : outcome (bool * list ascii) :=
  match s with
  | "e" :: s' | "E" :: s' =>
      let s'' := match s' with "+" :: t | "-" :: t => t | _ => s' end in
      match span_digits s'' with
      | ([], _) => Throws SyntaxError
      | (_, rest) => Returns (true, rest)
      end
  | _ => Returns (false, s)
  end.

Definition split_sign (s : list ascii) : bool * list ascii :=
  match s with
  | "-" :: s' => (true, s')
  | _ => (false, s)
  end.

(** An integer part may not start with a superfluous zero. *)
Definition leading_zero (ds : list ascii) : bool :=
  match ds with
  | "0" :: _ :: _ => true
  | _ => false
  end.

(** A number literal.  Within the model are the integer literals of a
    safe integer other than [-0]. *)
Definition lex_number (s : list ascii) : outcome (Z * list ascii) :=
  let (negative, s1) := split_sign s in
  let (ds, s2) := span_digits s1 in
  match ds with
  | [] => Throws SyntaxError
  | _ :: _ =>
      if leading_zero ds then Throws SyntaxError
      else
        '(frac, s3) <- lex_fraction s2 ;;
        '(exp, s4) <- lex_exponent s3 ;;
        match NilEmpty.uint_of_string (string_of_list_ascii ds) with
        | Some d =>
            let n := Z.of_N (N.of_uint d) in
            if frac || exp || (negative && (n =? 0)%Z) || negb (safe_integer n)
            then Unmodelled
            else Returns (if negative then (- n)%Z else n, s4)
        | None => Unmodelled
        end
  end.

Definition prepend {A : Type} (a : A) (m : outcome (list A)) : outcome (list A) :=
  l <- m ;; Returns (a :: l).

(** The lexer.  Every round consumes a character, so [S (length s)]
    rounds are enough for the text [s]. *)
Fixpoint lex (fuel : nat) (s : list ascii) : outcome (list token) :=
  match fuel with
  | O => Unmodelled
  | S fuel' =>
      match s with
      | [] => Returns []
      | c :: s' =>
          if is_ws c then lex fuel' s'
          else match c with
               | "{" => prepend TLBrace (lex fuel' s')
               | "}" => prepend TRBrace (lex fuel' s')
               | "[" => prepend TLBracket (lex fuel' s')
               | "]" => prepend TRBracket (lex fuel' s')
               | ":" => prepend TColon (lex fuel' s')
               | "," => prepend TComma (lex fuel' s')
               | "034" =>
                   '(str, rest) <- lex_string s' ;;
                   prepend (TString str) (lex fuel' rest)
               | "t" =>
                   match s' with
                   | "r" :: "u" :: "e" :: rest => prepend TTrue (lex fuel' rest)
                   | _ => Throws SyntaxError
                   end
               | "f" =>
                   match s' with
                   | "a" :: "l" :: "s" :: "e" :: rest =>
                       prepend TFalse (lex fuel' rest)
                   | _ => Throws SyntaxError
                   end
               | "n" =>
                   match s' with
                   | "u" :: "l" :: "l" :: rest => prepend TNull (lex fuel' rest)
                   | _ => Throws SyntaxError
                   end
               | _ =>
                   if is_digit c || Ascii.eqb c "-"
                   then '(z, rest) <- lex_number s ;;
                        prepend (TNumber z) (lex fuel' rest)
                   else Throws SyntaxError
               end
      end
  end.

(** The parser.  An object is built by defining its properties in the
    order of the text, so that a repeated key keeps its first place and
    its last value. *)
Fixpoint parse_value (fuel : nat) (ts : list token)
  : outcome (any * list token) :=
  match fuel with
  | O => Unmodelled
  | S fuel' =>
      match ts with
      | TNull :: rest => Returns (VNull, rest)
      | TTrue :: rest => Returns (VBool true, rest)
      | TFalse :: rest => Returns (VBool false, rest)
      | TNumber z :: rest => Returns (VNum (Int z), rest)
      | TString s :: rest => Returns (VStr s, rest)
      | TLBracket :: TRBracket :: rest => Returns (VArr [], rest)
      | TLBracket :: rest =>
          '(elems, rest') <- parse_elements fuel' rest ;;
          Returns (VArr elems, rest')
      | TLBrace :: TRBrace :: rest => Returns (VObj [], rest)
      | TLBrace :: rest =>
          '(props, rest') <- parse_members fuel' rest [] ;;
          Returns (VObj props, rest')
      | _ => Throws SyntaxError
      end
  end
with parse_elements (fuel : nat) (ts : list token)
  : outcome (list any * list token) :=
  match fuel with
  | O => Unmodelled
  | S fuel' =>
      '(v, rest) <- parse_value fuel' ts ;;
      match rest with
      | TComma :: rest' =>
          '(vs, rest'') <- parse_elements fuel' rest' ;;
          Returns (v :: vs, rest'')
      | TRBracket :: rest' => Returns ([v], rest')
      | _ => Throws SyntaxError
      end
  end
with parse_members (fuel : nat) (ts : list token) (acc : object any)
  : outcome (object any * list token) :=
  match fuel with
  | O => Unmodelled
  | S fuel' =>
      match ts with
      | TString k :: TColon :: rest =>
          '(v, rest1) <- parse_value fuel' rest ;;
          match rest1 with
          | TComma :: rest2 => parse_members fuel' rest2 (obj_set k v acc)
          | TRBrace :: rest2 => Returns (obj_set k v acc, rest2)
          | _ => Throws SyntaxError
          end
      | _ => Throws SyntaxError
      end
  end.

Definition parse (text : string) : outcome any :=
  let s := chars text in
  ts <- lex (S (List.length s)) s ;;
  '(v, rest) <- parse_value (S (2 * List.length ts)) ts ;;
  match rest with
  | [] => Returns v
  | _ :: _ => Throws SyntaxError
  end.

End JSON.

(** ** The chain *)

Import JS.

Definition BEGIN : string := "@@MARKOV_CHAIN_BEGIN".
Definition END : string := "@@MARKOV_CHAIN_END".
Definition DEFAULT_STATE_SIZE : Z := 1.

(** A follow record [{ value, count }].  A record without a [value]
    property reads [undefined] through [.value] and [JSON.stringify]
    leaves an [undefined] property out, so it is the record whose [value]
    is [VUndefined]. *)
Record FollowData : Type := { value : any; count : Z }.

Definition FollowMap : Type := object FollowData.
Definition Model : Type := object FollowMap.

(** [x || DEFAULT_STATE_SIZE] on a number. *)
Definition or_default (x : Z) : Z := if x =? 0 then DEFAULT_STATE_SIZE else x.

(** [JSON.stringify] of an array is always a string. *)
Definition createStateKey (originalState : any) : string :=
  let stateArray :=
    match originalState with
    | VArr l => l
    | _ => [originalState]
    end in
  JSON.property_key (JSON.stringify (VArr stateArray)).

Definition createBeginState (stateSize : Z) : list any :=
  repeat (VStr BEGIN) (Z.to_nat stateSize).

(** The records as plain objects, and back. *)
Definition any_of_record (r : FollowData) : any :=
  VObj [("value", value r); ("count", VNum (Int (count r)))].

Definition record_of_any (v : any) : option FollowData :=
  match v with
  | VObj [("value", x); ("count", VNum (Int n))] =>
      Some {| value := x; count := n |}
  | VObj [("count", VNum (Int n))] =>
      Some {| value := VUndefined; count := n |}
  | _ => None
  end.

Fixpoint traverse {A B : Type} (f : A -> option B) (l : list (string * A))
  : option (list (string * B)) :=
  match l with
  | [] => Some []
  | (k, a) :: l' =>
      match f a, traverse f l' with
      | Some b, Some bs => Some ((k, b) :: bs)
      | _, _ => None
      end
  end.

Definition follow_map_of_any (v : any) : option FollowMap :=
  match v with
  | VObj props => traverse record_of_any props
  | _ => None
  end.

Definition model_of_any (v : any) : option Model :=
  match v with
  | VObj props => traverse follow_map_of_any props
  | _ => None
  end.

(** The two errors of [build], by their messages. *)
Definition InvalidCorpus : exn := Error "Corpus must be a List or an Array".
Definition InvalidRun : exn := Error "Invalid run in corpus: Must be an array".

Module Chain.

Record t : Type := { model : Model; stateSize : Z }.

(** The body of the inner loop of [build] once the window is cut: the
    transition from [stateKey] to [follow] is counted in [model]. *)
Definition record (model : Model) (stateKey : string) (follow : any) : Model :=
  let model1 :=
    if obj_has stateKey model then model else obj_set stateKey [] model in
  let followKey := JSON.property_key (JSON.stringify follow) in
  let model2 :=
    obj_modify stateKey
      (fun state =>
         if obj_has followKey state then state
         else obj_set followKey {| value := follow; count := 0 |} state)
      model1 in
  obj_modify stateKey
    (obj_modify followKey
       (fun r => {| value := value r; count := count r + 1 |}))
    model2.

(** One round of the inner loop of [build], for the window that starts at
    [ngramStart]. *)
Definition observe (stateSize : Z) (paddedRun : list any)
    (model : Model) (ngramStart : nat) : Model :=
  let ngramEnd :=
    let e := Z.of_nat ngramStart + stateSize in
    if e =? 0 then DEFAULT_STATE_SIZE else e in
  let stateKey :=
    createStateKey (VArr (slice paddedRun (Z.of_nat ngramStart) ngramEnd)) in
  let follow := index paddedRun ngramEnd in
  record model stateKey follow.

Definition build (corpus : any) (stateSize : Z) : outcome Model :=
  match corpus with
  | VArr runs =>
      let beginPadding := createBeginState (or_default stateSize) in
      forM
        (fun model run =>
           match run with
           | VArr symbols =>
               let paddedRun := beginPadding ++ symbols ++ [VStr END] in
               Returns (fold_left (observe stateSize paddedRun)
                          (seq 0 (List.length symbols + 1)) model)
           | _ => Throws InvalidRun
           end)
        [] runs
  | _ => Throws InvalidCorpus
  end.

(** [new Chain(corpusOrModel, { stateSize })]; [stateSize] is
    [VUndefined] when the option is left out.  The fields are typed: a
    model that is not an object of objects of follow records, and a
    state size that is not an integer, are outside the model. *)
Definition constructor (corpusOrModel : any) (stateSize : any) : outcome t :=
  size <- (if truthy stateSize
           then match stateSize with
                | VNum (Int z) => Returns z
                | _ => Unmodelled
                end
           else Returns DEFAULT_STATE_SIZE) ;;
  match corpusOrModel with
  | VObj _ =>
      match model_of_any corpusOrModel with
      | Some m => Returns {| model := m; stateSize := size |}
      | None => Unmodelled
      end
  | _ =>
      m <- build corpusOrModel size ;;
      Returns {| model := m; stateSize := size |}
  end.

Definition toJSON (this : t) : any :=
  let serialized :=
    map (fun entry : string * FollowMap =>
           let (state, follows) := entry in
           let followEntries :=
             map (fun fe : string * FollowData =>
                    let (follow, data) := fe in
                    VArr [VStr follow; any_of_record data])
                 follows in
           VArr [VStr state; VArr followEntries])
        (model this) in
  VObj [("stateSize", VNum (Int (stateSize this)));
        ("model", VArr serialized)].

(** [JSON.stringify(chain)], which serialises what [toJSON] returns. *)
Definition stringify (this : t) : string :=
  JSON.property_key (JSON.stringify (toJSON this)).

(** The body of [fromJSON] after [JSON.parse]. *)
Definition hydrate (parsedData : any) : outcome t :=
  stateSize <- get_field parsedData "stateSize" ;;
  model <- get_field parsedData "model" ;;
  entries <- elements model ;;
  states <-
    forM
      (fun states entry =>
         '(stateKey, follow) <- destructure2 entry ;;
         followEntries <- elements follow ;;
         followMap <-
           forM
             (fun followMap fe =>
                '(followKey, followData) <- destructure2 fe ;;
                copy <- object_assign followData ;;
                key <- to_property_key followKey ;;
                obj_assign key (VObj copy) followMap)
             [] followEntries ;;
         Returns (states ++ [(stateKey, followMap)]))
      [] entries ;;
  acc <-
    forM
      (fun acc (st : any * object any) =>
         let (key, value) := st in
         k <- to_property_key key ;;
         obj_assign k (VObj value) acc)
      [] states ;;
  constructor (VObj acc) stateSize.

Definition fromJSON (jsonData : string) : outcome t :=
  parsedData <- JSON.parse jsonData ;;
  hydrate parsedData.

(** *** Sampling *)

Fixpoint running_sums (cumSum : Z) (weights : list Z) : list Z :=
  match weights with
  | [] => []
  | w :: ws => (cumSum + w) :: running_sums (cumSum + w) ws
  end.

(** The scan [for (randomIndex = 0; randomIndex < length && r >=
    cumulativeDistribution[randomIndex]; randomIndex++)]. *)
Fixpoint first_above (r : Q) (cumulativeDistribution : list Z)
    (randomIndex : nat) : nat :=
  match cumulativeDistribution with
  | [] => randomIndex
  | c :: rest =>
      if Qle_bool (inject_Z c) r then first_above r rest (S randomIndex)
      else randomIndex
  end.

(** The index [move] settles on: [random] is the value [Math.random()]
    gives, a rational here, and the product with [cumSum] is exact. *)
Definition randomIndex (weights : list Z) (random : Q) : nat :=
  let cumulativeDistribution := running_sums 0 weights in
  let cumSum := fold_left Z.add weights 0 in
  let r := (random * inject_Z cumSum)%Q in
  first_above r cumulativeDistribution 0%nat.

Definition move (this : t) (fromState : any) (random : Q) : any :=
  let stateKey := createStateKey fromState in
  match obj_get stateKey (model this) with
  | None => VUndefined
  | Some state =>
      let choices := map (fun kv => value (snd kv)) state in
      let weights := map (fun kv => count (snd kv)) state in
      nth (randomIndex weights random) choices VUndefined
  end.

(** *** Walking *)

(** Arrays are objects: the store holds their contents by address. *)
Definition heap : Type := list (list any).

Definition alloc (h : heap) (a : list any) : nat * heap :=
  (List.length h, h ++ [a]).

Definition deref (h : heap) (p : nat) : list any := nth p h [].

Fixpoint store (h : heap) (p : nat) (a : list any) : heap :=
  match h, p with
  | [], _ => []
  | _ :: h', O => a :: h'
  | x :: h', S p' => x :: store h' p' a
  end.

(** The argument of [walk]: left out, an array (by reference), or a
    value that is not an array. *)
Inductive argument : Type :=
| Omitted
| ArrayRef (p : nat)
| Other (v : any).

(** [step === undefined || step === END] *)
Definition stops (step : any) : bool :=
  match step with
  | VUndefined => true
  | VStr s => String.eqb s END
  | _ => false
  end.

(** The loop of [walk] on the array at [state].  A round from a state
    that has no entry in the model takes no draw: [move] returns
    [undefined] before it calls [Math.random()].  Every other round takes
    one draw.  The flag tells whether the loop has been left; it is
    [false] when a draw was needed and none was left. *)
Fixpoint walk_loop (this : t) (draws : list Q) (h : heap) (state : nat)
    (steps : list any) : bool * list any * heap :=
  match obj_get (createStateKey (VArr (deref h state))) (model this) with
  | None => (true, steps, h)
  | Some _ =>
      match draws with
      | [] => (false, steps, h)
      | random :: draws' =>
          let step := move this (VArr (deref h state)) random in
          if stops step then (true, steps, h)
          else
            (* steps.push(step); state.shift(); state.push(step) *)
            walk_loop this draws'
              (store h state (tl (deref h state) ++ [step])) state
              (steps ++ [step])
      end
  end.

(** [walk]: [None] while the loop is still running when the draws run
    out, else what the call returns and the store it leaves. *)
Definition walk (this : t) (h : heap) (fromState : argument) (draws : list Q)
  : option (outcome (list any) * heap) :=
  let on_array (h : heap) (state : nat) :=
    match walk_loop this draws h state [] with
    | (true, steps, h') => Some (Returns steps, h')
    | (false, _, _) => None
    end in
  let fresh :=
    let (state, h') := alloc h (createBeginState (stateSize this)) in
    on_array h' state in
  match fromState with
  | Omitted => fresh
  | ArrayRef p => on_array h p
  | Other (VArr _) => Some (Unmodelled, h)
  | Other v =>
      if truthy v
      then match obj_get (createStateKey v) (model this) with
           | None => Some (Returns [], h)
           | Some _ =>
               match draws with
               | [] => None
               | random :: _ =>
                   if stops (move this v random) then Some (Returns [], h)
                   else Some (Throws TypeError, h)   (* no [shift] on [v] *)
               end
           end
      else fresh
  end.

End Chain.

(** ** The helpers [last] and [bisect] *)

(** [arr[arr.length - 1]] *)
Definition last (arr : list any) : any :=
  index arr (Z.of_nat (List.length arr) - 1).

(** The test [num < list[mid]] on a list of numbers, rationals here:
    past the end of the list the element is [undefined], and the
    comparison with it is false. *)
Definition less_than_at (num : Q) (list : list Q) (mid : Z) : bool :=
  if mid <? 0 then false
  else match nth_error list (Z.to_nat mid) with
       | Some x => negb (Qle_bool x num)
       | None => false
       end.

(** The loop of [bisect]; [None] when the rounds run out before the
    loop is left.  The two bounds and [mid] are integers.  The code holds
    them in doubles, which is the same thing as long as [high] is at most
    2^52: every sum [currLow + currHigh] is then at most 2^53 and every
    [mid + 1] at most [high], so nothing is rounded.  Above that bound the
    doubles of the code round and the loop below no longer follows it. *)
Fixpoint bisect_loop (rounds : nat) (list : list Q) (num : Q)
    (currLow currHigh : Z) : option Z :=
  if currLow <? currHigh then
    match rounds with
    | O => None
    | S rounds' =>
        let mid := (currLow + currHigh) / 2 in
        if less_than_at num list mid
        then bisect_loop rounds' list num currLow mid
        else bisect_loop rounds' list num (mid + 1) currHigh
    end
  else Some currLow.

(** [bisect(list, num, high)]; [high] is [None] when the argument is
    left out, and is then the length of the list.  The distance between
    the two bounds shrinks in every round, so [high] rounds are enough. *)
Definition bisect (list : list Q) (num : Q) (high : option Z) : option Z :=
  let high :=
    match high with
    | Some h => h
    | None => Z.of_nat (List.length list)
    end in
  bisect_loop (Z.to_nat high) list num 0 high.

(** ** Notions the statements use *)

(** *** Property order *)

(** [k] may come before [k'] among the own properties of an object. *)
Definition precedes (k k' : string) : bool :=
  negb (String.eqb k k') &&
  match array_index k, array_index k' with
  | Some a, Some b => (a <? b)%N
  | None, Some _ => false
  | _, None => true
  end.

Fixpoint key_order_ok (ks : list string) : bool :=
  match ks with
  | [] => true
  | k :: rest => forallb (precedes k) rest && key_order_ok rest
  end.

(** *** Values and JSON *)

(** The values of the model: safe integers, objects in property order. *)
Fixpoint well_formed (v : any) : bool :=
  match v with
  | VNum (Int z) => safe_integer z
  | VArr l => forallb well_formed l
  | VObj props =>
      key_order_ok (map fst props) &&
      forallb (fun kv => well_formed (snd kv)) props
  | _ => true
  end.

(** The values JSON text stands for: no [undefined], [NaN] or infinity
    anywhere. *)
Fixpoint representable (v : any) : bool :=
  match v with
  | VUndefined => false
  | VNull | VBool _ | VStr _ => true
  | VNum (Int z) => safe_integer z
  | VNum _ => false
  | VArr l => forallb representable l
  | VObj props =>
      key_order_ok (map fst props) &&
      forallb (fun kv => representable (snd kv)) props
  end.

(** What [JSON.parse(JSON.stringify(v))] is for a [v] that has a
    rendering. *)
Fixpoint normalize (v : any) : any :=
  match v with
  | VNum (Int z) => v
  | VNum _ => VNull
  | VArr l =>
      VArr (map (fun e => match e with
                          | VUndefined => VNull
                          | _ => normalize e
                          end) l)
  | VObj props =>
      VObj (flat_map (fun kv => match snd kv with
                                | VUndefined => []
                                | _ => [(fst kv, normalize (snd kv))]
                                end) props)
  | _ => v
  end.

(** What may follow a number literal: the end of the text or a
    character that cannot continue it. *)
Definition delimited (rest : list ascii) : bool :=
  match rest with
  | [] => true
  | c :: _ =>
      negb (JSON.is_digit c) && negb (Ascii.eqb c ".") &&
      negb (Ascii.eqb c "e") && negb (Ascii.eqb c "E")
  end.

(** The text of a value, [null] where it has none, and the tokens of
    that text. *)
Definition text (v : any) : list ascii :=
  match JSON.serialize v with
  | Some t => t
  | None => JSON.null_text
  end.

Fixpoint sep (parts : list (list JSON.token)) : list JSON.token :=
  match parts with
  | [] => []
  | [p] => p
  | p :: ps => p ++ JSON.TComma :: sep ps
  end.

Fixpoint tokens (v : any) : list JSON.token :=
  match v with
  | VUndefined | VNull => [JSON.TNull]
  | VBool true => [JSON.TTrue]
  | VBool false => [JSON.TFalse]
  | VNum (Int z) => [JSON.TNumber z]
  | VNum _ => [JSON.TNull]
  | VStr s => [JSON.TString s]
  | VArr l => JSON.TLBracket :: sep (map tokens l) ++ [JSON.TRBracket]
  | VObj props =>
      JSON.TLBrace ::
      sep (map (fun kv => JSON.TString (fst kv) :: JSON.TColon :: tokens (snd kv))
               props) ++ [JSON.TRBrace]
  end.

(** Equality of values, as a test. *)
Fixpoint any_eqb (a b : any) : bool :=
  match a, b with
  | VUndefined, VUndefined | VNull, VNull => true
  | VBool x, VBool y => Bool.eqb x y
  | VNum (Int x), VNum (Int y) => x =? y
  | VNum NaN, VNum NaN => true
  | VNum (Infinity x), VNum (Infinity y) => Bool.eqb x y
  | VStr x, VStr y => String.eqb x y
  | VArr l, VArr l' =>
      (fix all2 (l l' : list any) : bool :=
         match l, l' with
         | [], [] => true
         | x :: r, y :: r' => any_eqb x y && all2 r r'
         | _, _ => false
         end) l l'
  | VObj p, VObj p' =>
      (fix all2 (p p' : list (string * any)) : bool :=
         match p, p' with
         | [], [] => true
         | (k, x) :: r, (k', y) :: r' =>
             String.eqb k k' && any_eqb x y && all2 r r'
         | _, _ => false
         end) p p'
  | _, _ => false
  end.

(** Structural equality that does not look at the order of the
    properties of an object. *)
Fixpoint struct_eqb (a b : any) : bool :=
  match a, b with
  | VArr l, VArr l' =>
      (fix all2 (l l' : list any) : bool :=
         match l, l' with
         | [], [] => true
         | x :: r, y :: r' => struct_eqb x y && all2 r r'
         | _, _ => false
         end) l l'
  | VObj p, VObj p' =>
      (List.length p =? List.length p')%nat &&
      forallb (fun kv => match obj_get (fst kv) p' with
                         | Some y => struct_eqb (snd kv) y
                         | None => false
                         end) p
  | _, _ => any_eqb a b
  end.

(** *** Windows of a corpus *)

Definition followKey (follow : any) : string :=
  JSON.property_key (JSON.stringify follow).

Definition padded (stateSize : nat) (run : list any) : list any :=
  repeat (VStr BEGIN) stateSize ++ run ++ [VStr END].

(** The windows of a run: a state of [stateSize] symbols and the symbol
    that follows it, from every start [0 .. length run]. *)
Definition windows (stateSize : nat) (run : list any) : list (list any * any) :=
  map (fun i => (firstn stateSize (skipn i (padded stateSize run)),
                 nth (i + stateSize) (padded stateSize run) VUndefined))
      (seq 0 (List.length run + 1)).

Definition corpus_windows (stateSize : nat) (runs : list (list any))
  : list (list any * any) :=
  flat_map (windows stateSize) runs.

Definition window_eqb (w w' : list any * any) : bool :=
  any_eqb (VArr (fst w)) (VArr (fst w')) && any_eqb (snd w) (snd w').

(** How often the window [w] occurs, its symbols compared as the values
    they are: an object is the same symbol as another when it has the
    same properties in the same order ([any_eqb]). *)
Definition occurrences (w : list any * any) (ws : list (list any * any)) : Z :=
  Z.of_nat (List.length (filter (window_eqb w) ws)).

(** Equality of windows, and how often a window occurs, under
    structural equality, which does not look at the order of the
    properties of an object ([struct_eqb]). *)
Definition window_struct_eqb (w w' : list any * any) : bool :=
  struct_eqb (VArr (fst w)) (VArr (fst w')) && struct_eqb (snd w) (snd w').

Definition structural_occurrences (w : list any * any)
    (ws : list (list any * any)) : Z :=
  Z.of_nat (List.length (filter (window_struct_eqb w) ws)).

(** No object anywhere in a value. *)
Fixpoint object_free (v : any) : bool :=
  match v with
  | VObj _ => false
  | VArr l => forallb object_free l
  | _ => true
  end.

(** Symbols that are equal as soon as they are structurally equal. *)
Definition order_consistent (symbols : list any) : Prop :=
  forall a b, In a symbols -> In b symbols -> struct_eqb a b = true -> a = b.

(** A symbol of a padded run: [BEGIN], [END] or one of [symbols]. *)
Definition pads_or (symbols : list any) (v : any) : Prop :=
  v = VStr BEGIN \/ v = VStr END \/ In v symbols.


(** How many windows carry the keys [stateKey] and [key]. *)
Definition keyed_occurrences (stateKey key : string)
    (ws : list (list any * any)) : Z :=
  Z.of_nat (List.length
    (filter (fun w => String.eqb (createStateKey (VArr (fst w))) stateKey &&
                      String.eqb (followKey (snd w)) key) ws)).

(** The record the table holds under two keys. *)
Definition transition (m : Model) (stateKey key : string) : option FollowData :=
  match obj_get stateKey m with
  | Some state => obj_get key state
  | None => None
  end.

(** The count the table holds under two keys, [0] when it holds none. *)
Definition count_at (m : Model) (stateKey key : string) : Z :=
  match transition m stateKey key with
  | Some r => count r
  | None => 0
  end.

(** *** Chains *)

Definition proper_keys {A : Type} (o : object A) : bool :=
  key_order_ok (keys o) &&
  forallb (fun k => negb (String.eqb k "__proto__")) (keys o).

(** A model whose objects are in property order under keys other than
    [__proto__], with safe counts and values accepted by [ok]. *)
Definition wf_model (ok : any -> bool) (m : Model) : bool :=
  proper_keys m &&
  forallb (fun st : string * FollowMap =>
             proper_keys (snd st) &&
             forallb (fun fe : string * FollowData =>
                        ok (value (snd fe)) && safe_integer (count (snd fe)))
                     (snd st)) m.

Definition wf_chain (ok : any -> bool) (c : Chain.t) : bool :=
  (1 <=? Chain.stateSize c) && safe_integer (Chain.stateSize c) &&
  wf_model ok (Chain.model c).

(** The chain with every value replaced by what JSON keeps of it. *)
Definition normalize_model (m : Model) : Model :=
  map (fun st : string * FollowMap =>
         (fst st,
          map (fun fe : string * FollowData =>
                 (fst fe, {| value := normalize (value (snd fe));
                             count := count (snd fe) |}))
              (snd st))) m.

Definition normalize_chain (c : Chain.t) : Chain.t :=
  {| Chain.model := normalize_model (Chain.model c);
     Chain.stateSize := Chain.stateSize c |}.

(** The shape of a serialised chain:
    [{ stateSize: integer, model: [[stateKey, [[followKey, { value, count }], ...]], ...] }]. *)
Definition record_shaped (v : any) : bool :=
  match v with
  | VObj props =>
      obj_has "value" props &&
      match obj_get "count" props with
      | Some (VNum (Int _)) => true
      | _ => false
      end
  | _ => false
  end.

Definition follow_shaped (v : any) : bool :=
  match v with
  | VArr [VStr _; r] => record_shaped r
  | _ => false
  end.

Definition entry_shaped (v : any) : bool :=
  match v with
  | VArr [VStr _; VArr follows] => forallb follow_shaped follows
  | _ => false
  end.

Definition well_shaped (v : any) : bool :=
  match v with
  | VObj props =>
      match obj_get "stateSize" props, obj_get "model" props with
      | Some (VNum (Int _)), Some (VArr entries) => forallb entry_shaped entries
      | _, _ => false
      end
  | _ => false
  end.

(** The keys [fromJSON] assigns when it reads a value of the expected
    shape are not [__proto__]: no state key, no follow key and no property
    of a record is.  An assignment to the key [__proto__] would reach the
    prototype setter. *)
Definition record_plain (v : any) : bool :=
  match v with
  | VObj props => forallb (fun kv => negb (String.eqb (fst kv) "__proto__")) props
  | _ => true
  end.

Definition follow_plain (v : any) : bool :=
  match v with
  | VArr [VStr k; r] => negb (String.eqb k "__proto__") && record_plain r
  | _ => true
  end.

Definition entry_plain (v : any) : bool :=
  match v with
  | VArr [VStr k; VArr follows] =>
      negb (String.eqb k "__proto__") && forallb follow_plain follows
  | _ => true
  end.

Definition plain_keyed (v : any) : bool :=
  match v with
  | VObj props =>
      match obj_get "model" props with
      | Some (VArr entries) => forallb entry_plain entries
      | _ => true
      end
  | _ => true
  end.

(** The expected shape with records that hold [value] and [count] and
    nothing else, in this order, or [count] alone. *)
Definition record_typed (v : any) : bool :=
  match v with
  | VObj [(k1, _); (k2, VNum (Int _))] =>
      String.eqb k1 "value" && String.eqb k2 "count"
  | VObj [(k, VNum (Int _))] => String.eqb k "count"
  | _ => false
  end.

Definition follow_typed (v : any) : bool :=
  match v with
  | VArr [VStr _; r] => record_typed r
  | _ => false
  end.

Definition entry_typed (v : any) : bool :=
  match v with
  | VArr [VStr _; VArr follows] => forallb follow_typed follows
  | _ => false
  end.

Definition typed_shaped (v : any) : bool :=
  match v with
  | VObj props =>
      match obj_get "stateSize" props, obj_get "model" props with
      | Some (VNum (Int _)), Some (VArr entries) => forallb entry_typed entries
      | _, _ => false
      end
  | _ => false
  end.

(** Neither a property named [__proto__] nor the string [__proto__]
    anywhere in a value. *)
Fixpoint proto_free (v : any) : bool :=
  match v with
  | VStr s => negb (String.eqb s "__proto__")
  | VArr l => forallb proto_free l
  | VObj props =>
      forallb (fun kv => negb (String.eqb (fst kv) "__proto__") &&
                         proto_free (snd kv)) props
  | _ => true
  end.

(** The values that hold follow records, and the objects of such
    values. *)
Definition holds_records (followMap : object any) : Prop :=
  Forall (fun kv => exists r, record_of_any (snd kv) = Some r) followMap.

Definition holds_follow_maps (acc : object any) : Prop :=
  Forall (fun kv => exists followMap,
                      snd kv = VObj followMap /\ holds_records followMap) acc.

(** *** Notions of the proofs *)

Import JSON.

Definition lexes_d (s : list ascii) (ts : list token) : Prop :=
  forall rest fuel,
    delimited rest = true -> (List.length (s ++ rest) < fuel)%nat ->
    exists fuel', (List.length rest < fuel')%nat /\
      lex fuel (s ++ rest) = (l <- lex fuel' rest ;; Returns (ts ++ l)).

Definition lexes (s : list ascii) (ts : list token) : Prop :=
  forall rest fuel,
    (List.length (s ++ rest) < fuel)%nat ->
    exists fuel', (List.length rest < fuel')%nat /\
      lex fuel (s ++ rest) = (l <- lex fuel' rest ;; Returns (ts ++ l)).

Definition starts_delimited (s : list ascii) : Prop :=
  forall rest, delimited (s ++ rest) = true.

Definition parses (v : any) : Prop :=
  forall fuel rest, (2 * List.length (tokens v) <= fuel)%nat ->
    parse_value fuel (tokens v ++ rest) = Returns (v, rest).

Definition bump (follow : any) (old : option FollowData) : FollowData :=
  match old with
  | Some r => {| value := value r; count := count r + 1 |}
  | None => {| value := follow; count := 1 |}
  end.

(** The table of a list of windows, counted one after the other. *)
Definition tally (ws : list (list any * any)) (m : Model) : Model :=
  fold_left (fun m w => Chain.record m (createStateKey (VArr (fst w))) (snd w))
            ws m.

(** [m] holds exactly the transitions of the windows [ws]. *)
Definition tallies (ws : list (list any * any)) (m : Model) : Prop :=
  forall sk fk,
    match transition m sk fk with
    | Some r =>
        count r = keyed_occurrences sk fk ws /\
        exists w, In w ws /\ createStateKey (VArr (fst w)) = sk /\
                  followKey (snd w) = fk /\ value r = snd w
    | None => keyed_occurrences sk fk ws = 0
    end.

Definition representable_window (w : list any * any) : bool :=
  forallb representable (fst w) && representable (snd w).

Definition example_corpus : list (list any) :=
  [[VStr "foo"; VStr "bar"; VStr "baz"; VStr "qux."];
   [VStr "foo"; VStr "baz"; VStr "qux"; VStr "bar."]].

Definition once (follow : any) (n : Z) : string * FollowData :=
  (followKey follow, {| value := follow; count := n |}).

Definition example_table : Model :=
  [(createStateKey (VArr [VStr BEGIN; VStr BEGIN]), [once (VStr "foo") 2]);
   (createStateKey (VArr [VStr BEGIN; VStr "foo"]),
    [once (VStr "bar") 1; once (VStr "baz") 1]);
   (createStateKey (VArr [VStr "foo"; VStr "bar"]), [once (VStr "baz") 1]);
   (createStateKey (VArr [VStr "bar"; VStr "baz"]), [once (VStr "qux.") 1]);
   (createStateKey (VArr [VStr "baz"; VStr "qux."]), [once (VStr END) 1]);
   (createStateKey (VArr [VStr "foo"; VStr "baz"]), [once (VStr "qux") 1]);
   (createStateKey (VArr [VStr "baz"; VStr "qux"]), [once (VStr "bar.") 1]);
   (createStateKey (VArr [VStr "qux"; VStr "bar."]), [once (VStr END) 1])].

(** What JSON keeps of a follow record. *)
Definition kept_record (r : FollowData) : any :=
  match value r with
  | VUndefined => VObj [("count", VNum (Int (count r)))]
  | v => VObj [("value", normalize v); ("count", VNum (Int (count r)))]
  end.

Definition kept_follows (follows : FollowMap) : object any :=
  map (fun fe => (fst fe, kept_record (snd fe))) follows.

Definition kept_entry (st : string * FollowMap) : any :=
  VArr [VStr (fst st);
        VArr (map (fun fe : string * FollowData =>
                     VArr [VStr (fst fe); kept_record (snd fe)]) (snd st))].

Definition same_model (m m' : Model) : Prop :=
  forall stateKey key, transition m stateKey key = transition m' stateKey key.

Definition no_throw {A : Type} (m : outcome A) : Prop :=
  forall e, m <> Throws e.

Definition quoted (s : string) : string :=
  String "034"%char (s ++ String "034"%char EmptyString).

(** The text [{"model":[]}] *)
Definition text_without_stateSize : string :=
  "{" ++ quoted "model" ++ ":[]}".

Definition weights (state : FollowMap) : list Z :=
  map (fun kv => count (snd kv)) state.

Definition sum (l : list Z) : Z := fold_right Z.add 0 l.

(** The counts of the follow set, and of its first [i] entries. *)
Definition totalCount (state : FollowMap) : Z := sum (weights state).
Definition before (state : FollowMap) (i : nat) : Z :=
  sum (firstn i (weights state)).

Definition records_satisfy (P : any -> Prop) (state : FollowMap) : Prop :=
  forall key r, In (key, r) state -> P (value r).

Definition values_satisfy (P : any -> Prop) (m : Model) : Prop :=
  forall stateKey state, In (stateKey, state) m -> records_satisfy P state.

(** A follow symbol is a symbol of the corpus or [END]. *)
Definition symbol_or_END (runs : list (list any)) (v : any) : Prop :=
  v = VStr END \/ exists run, In run runs /\ In v run.

(** The window after the steps [steps]: each one drops the oldest symbol
    and appends the new one. *)
Definition slide (state steps : list any) : list any :=
  fold_left (fun st v => tl st ++ [v]) steps state.

Definition example_chain2 : Chain.t :=
  {| Chain.model := example_table; Chain.stateSize := 2 |}.

(** A chain with values that JSON does not keep as they are. *)
Definition lossy_chain : Chain.t :=
  {| Chain.model :=
       [(createStateKey (VArr [VStr BEGIN]),
         [once VUndefined 1; once (VNum NaN) 1; once (VArr [VUndefined]) 2])];
     Chain.stateSize := 1 |}.

Definition example_model : Model :=
  Eval vm_compute in
    match Chain.build (VArr (map VArr example_corpus)) 1 with
    | Returns m => m
    | _ => []
    end.

Definition example_chain : Chain.t :=
  {| Chain.model := example_model; Chain.stateSize := 1 |}.

Definition entries_satisfy {A : Type} (Q : string -> A -> Prop) (o : object A)
  : Prop :=
  forall k a, In (k, a) o -> Q k a.

(** A follow map, and a table, in property order under keys other than
    [__proto__], with values that satisfy [P]. *)
Definition ordered_follows (P : any -> Prop) (state : FollowMap) : Prop :=
  key_order_ok (keys state) = true /\
  entries_satisfy (fun key r => key <> "__proto__" /\ P (value r)) state.

Definition ordered_table (P : any -> Prop) (m : Model) : Prop :=
  key_order_ok (keys m) = true /\
  entries_satisfy
    (fun stateKey state => stateKey <> "__proto__" /\ ordered_follows P state) m.

Definition fuelled {A : Type} (ts : list token) (m : outcome (A * list token))
  : Prop :=
  m <> Unmodelled /\
  forall a rest, m = Returns (a, rest) -> (List.length rest < List.length ts)%nat.

(** *** Notions of the further properties *)

(** A list in ascending order. *)
Definition ascending (l : list Q) : Prop :=
  forall i j x y,
    (i <= j)%nat -> nth_error l i = Some x -> nth_error l j = Some y ->
    (x <= y)%Q.

(** The upper bound [bisect] starts from. *)
Definition high_or_length (list : list Q) (high : option Z) : Z :=
  match high with
  | Some h => h
  | None => Z.of_nat (List.length list)
  end.

(** *** Totals of a table *)

(** How many windows start from a state with the key [stateKey]. *)
Definition state_occurrences (stateKey : string) (ws : list (list any * any)) : Z :=
  Z.of_nat (List.length
    (filter (fun w => String.eqb (createStateKey (VArr (fst w))) stateKey) ws)).

(** The sum of the counts the table holds under a state key, [0] when
    it has no such key, and the sum of all its counts. *)
Definition total_at (m : Model) (stateKey : string) : Z :=
  match obj_get stateKey m with
  | Some state => totalCount state
  | None => 0
  end.

Definition grandTotal (m : Model) : Z :=
  sum (map (fun st : string * FollowMap => totalCount (snd st)) m).

(** What one round of [build] does to the follow set of its state. *)
Definition counted (follow : any) (state : FollowMap) : FollowMap :=
  obj_modify (followKey follow)
    (fun r => {| value := value r; count := count r + 1 |})
    (if obj_has (followKey follow) state then state
     else obj_set (followKey follow) {| value := follow; count := 0 |} state).

(** The text of a serialised chain that lists the entries [entries] as
    [toJSON] writes them; the list may repeat a key and need not be in
    the order of an object. *)
Definition serialized (stateSize : Z)
    (entries : list (string * list (string * FollowData))) : string :=
  Chain.stringify {| Chain.model := entries; Chain.stateSize := stateSize |}.

(** A follow record as JSON keeps it. *)
Definition kept (r : FollowData) : FollowData :=
  {| value := normalize (value r); count := count r |}.

(** The object that results from defining the properties of a list one
    after the other. *)
Definition defined_in_turn {X A : Type} (key : X -> string) (val : X -> A)
    (l : list X) (acc : object A) : object A :=
  fold_left (fun acc x => obj_set (key x) (val x) acc) l acc.

(** Entries [fromJSON] reads within the model: no key [__proto__], values
    and counts of the model. *)
Definition sound_entries (entries : list (string * list (string * FollowData)))
  : Prop :=
  Forall (fun st : string * list (string * FollowData) =>
            fst st <> "__proto__" /\
            Forall (fun fe : string * FollowData =>
                      fst fe <> "__proto__" /\
                      well_formed (value (snd fe)) = true /\
                      safe_integer (count (snd fe)) = true) (snd st)) entries.

(** The exceptions a call may throw are among those that satisfy [P]. *)
Definition throws_only {A : Type} (P : exn -> Prop) (m : outcome A) : Prop :=
  forall e, m = Throws e -> P e.

Definition is_syntax (e : exn) : Prop := e = SyntaxError.
Definition is_type (e : exn) : Prop := e = TypeError.

(** A parsed value from which [fromJSON] cannot read the entries of a
    model: not an object, or an object whose [model] is missing or
    [null]. *)
Definition lacks_model (v : any) : bool :=
  match v with
  | VObj props =>
      match obj_get "model" props with
      | None | Some VNull | Some VUndefined => true
      | Some _ => false
      end
  | _ => true
  end.

(** [v instanceof Object], for the values of the model: arrays and
    plain objects are objects, the primitive values are not. *)
Definition instanceofObject (v : any) : bool :=
  match v with
  | VArr _ | VObj _ => true
  | _ => false
  end.

(** The windows [build] cuts from a run when it is called with the
    state size 0: one from [BEGIN] to the first symbol ([END] for an empty
    run), then one from the empty state to every symbol of the run. *)
Definition windows0 (run : list any) : list (list any * any) :=
  ([VStr BEGIN], nth 0 (run ++ [VStr END]) VUndefined) ::
  map (fun symbol => ([], symbol)) run.

(** * Facts *)

Lemma any_ind (P : any -> Prop)
    (Hundefined : P VUndefined) (Hnull : P VNull)
    (Hbool : forall b, P (VBool b)) (Hnum : forall n, P (VNum n))
    (Hstr : forall s, P (VStr s))
    (Harr : forall l, Forall P l -> P (VArr l))
    (Hobj : forall props, Forall (fun kv => P (snd kv)) props -> P (VObj props)) :
  forall v, P v.
Proof.
  fix IH 1. intros [ | | b | n | s | l | props].
  - exact Hundefined.
  - exact Hnull.
  - apply Hbool.
  - apply Hnum.
  - apply Hstr.
  - apply Harr. induction l as [|x l IHl]; constructor; [apply IH | exact IHl].
  - apply Hobj.
    induction props as [|[k x] props IHp]; constructor; [apply IH | exact IHp].
Qed.

Lemma any_eqb_refl : forall v, any_eqb v v = true.
Proof.
  induction v as [ | | b | n | s | l IHl | props IHp] using any_ind; simpl; auto.
  - destruct b; auto.
  - destruct n as [z| |b]; auto using Z.eqb_refl. destruct b; auto.
  - apply String.eqb_refl.
  - induction IHl; auto. rewrite H, IHIHl. auto.
  - induction IHp as [|[k x] props Hx _ IH]; auto. simpl in Hx.
    rewrite String.eqb_refl, Hx, IH. auto.
Qed.

(** ** Facts about plain objects *)

Section ObjectFacts.
Context {A : Type}.
Implicit Types (o : object A) (k : string) (a : A).

Lemma obj_get_modify k k' f o :
  obj_get k' (obj_modify k f o) =
  if String.eqb k k' then option_map f (obj_get k' o) else obj_get k' o.
Proof.
  induction o as [|[k0 a0] o IH]; simpl.
  - now destruct (String.eqb k k').
  - destruct (String.eqb_spec k0 k) as [->|Hne]; simpl.
    + destruct (String.eqb_spec k k'); reflexivity.
    + rewrite IH. destruct (String.eqb_spec k0 k') as [->|]; [|reflexivity].
      destruct (String.eqb_spec k k'); congruence.
Qed.

Lemma obj_get_insert_index n k k' a o :
  obj_get k o = None ->
  obj_get k' (obj_insert_index n k a o) =
  if String.eqb k k' then Some a else obj_get k' o.
Proof.
  induction o as [|[k0 a0] o IH]; simpl; [reflexivity|].
  destruct (String.eqb_spec k0 k) as [->|Hne]; [discriminate|]. intros Hk.
  destruct (array_index k0) as [n0|]; [destruct (n <? n0)%N|]; simpl;
    try reflexivity.
  rewrite (IH Hk).
  destruct (String.eqb_spec k0 k') as [->|]; [|reflexivity].
  destruct (String.eqb_spec k k'); congruence.
Qed.

Lemma obj_get_snoc k k' a o :
  obj_get k' (o ++ [(k, a)]) =
  match obj_get k' o with
  | Some x => Some x
  | None => if String.eqb k k' then Some a else None
  end.
Proof.
  induction o as [|[k0 a0] o IH]; simpl; [reflexivity|].
  now destruct (String.eqb k0 k').
Qed.

Lemma obj_get_set k k' a o :
  obj_get k' (obj_set k a o) =
  if String.eqb k k' then Some a else obj_get k' o.
Proof.
  unfold obj_set, obj_has. destruct (obj_get k o) as [x|] eqn:Hk.
  - rewrite obj_get_modify. destruct (String.eqb_spec k k') as [<-|]; [|reflexivity].
    now rewrite Hk.
  - destruct (array_index k) as [n|].
    + now apply obj_get_insert_index.
    + rewrite obj_get_snoc. destruct (String.eqb_spec k k') as [<-|].
      * now rewrite Hk.
      * now destruct (obj_get k' o).
Qed.

Lemma obj_get_set_same k a o : obj_get k (obj_set k a o) = Some a.
Proof. now rewrite obj_get_set, String.eqb_refl. Qed.

Lemma obj_get_In k a o : obj_get k o = Some a -> In (k, a) o.
Proof.
  induction o as [|[k0 a0] o IH]; simpl; [discriminate|].
  destruct (String.eqb_spec k0 k) as [->|]; [intros [= ->]; now left | auto].
Qed.

Lemma obj_get_None k o : obj_get k o = None <-> ~ In k (keys o).
Proof.
  induction o as [|[k0 a0] o IH]; simpl; [tauto|].
  destruct (String.eqb_spec k0 k) as [->|Hne].
  - split; [discriminate | intros H; exfalso; apply H; now left].
  - rewrite IH. tauto.
Qed.

(** In property order a new last key is appended. *)
Lemma obj_set_snoc k a o :
  Forall (fun k0 => precedes k0 k = true) (keys o) ->
  obj_set k a o = o ++ [(k, a)].
Proof.
  intros Hall. unfold obj_set, obj_has.
  assert (Hk : obj_get k o = None).
  { apply obj_get_None. intros Hin.
    rewrite Forall_forall in Hall. specialize (Hall _ Hin).
    unfold precedes in Hall. now rewrite String.eqb_refl in Hall. }
  rewrite Hk. destruct (array_index k) as [n|] eqn:Hidx; [|reflexivity].
  clear Hk. induction o as [|[k0 a0] o IH]; simpl; [reflexivity|].
  inversion Hall as [|? ? H0 Hrest]; subst.
  unfold precedes in H0. rewrite Hidx in H0.
  destruct (array_index k0) as [n0|]; [|now rewrite andb_false_r in H0].
  apply andb_prop in H0 as [_ H0]. apply N.ltb_lt in H0.
  destruct (N.ltb_spec n n0); [lia|]. now rewrite (IH Hrest).
Qed.
End ObjectFacts.

Lemma key_order_ok_app l1 l2 :
  key_order_ok (l1 ++ l2) = true ->
  key_order_ok l1 = true /\ key_order_ok l2 = true /\
  Forall (fun k => Forall (fun k' => precedes k k' = true) l2) l1.
Proof.
  induction l1 as [|k l1 IH]; simpl; [auto|].
  rewrite forallb_app, !andb_true_iff. intros [[H1 H2] H3].
  destruct (IH H3) as (Ha & Hb & Hc). repeat split; auto.
  constructor; [|assumption]. apply Forall_forall.
  now apply (proj1 (forallb_forall _ _)).
Qed.

Lemma key_order_ok_snoc l k :
  key_order_ok (l ++ [k]) = true ->
  key_order_ok l = true /\ Forall (fun k0 => precedes k0 k = true) l.
Proof.
  intros H. apply key_order_ok_app in H as (H1 & _ & H3). split; [assumption|].
  eapply Forall_impl; [|exact H3]. intros k0 Hk0. now inversion Hk0.
Qed.

(** Defining the properties of an object in property order, one after
    the other, rebuilds it. *)
Lemma define_in_order {A : Type} (props acc : object A) :
  key_order_ok (keys (acc ++ props)) = true ->
  fold_left (fun o kv => obj_set (fst kv) (snd kv) o) props acc = acc ++ props.
Proof.
  revert acc. induction props as [|[k a] props IH]; intros acc H; simpl.
  - now rewrite List.app_nil_r.
  - replace (acc ++ (k, a) :: props) with ((acc ++ [(k, a)]) ++ props) in *
      by now rewrite <- List.app_assoc.
    rewrite obj_set_snoc.
    + now apply IH.
    + unfold keys in H. rewrite !map_app in H.
      apply key_order_ok_app in H as (H & _). simpl in H.
      now apply key_order_ok_snoc in H.
Qed.

(** ** JSON text: reading back what [serialize] writes *)

Lemma lex_string_quote_char c s :
  lex_string (quote_char c ++ s) =
  ('(str, rest) <- lex_string s ;; Returns (String c str, rest)).
Proof.
  destruct c as [[|] [|] [|] [|] [|] [|] [|] [|]]; reflexivity.
Qed.

Lemma lex_string_quote cs rest :
  lex_string (flat_map quote_char cs ++ "034"%char :: rest) =
  Returns (string_of_list_ascii cs, rest).
Proof.
  induction cs as [|c cs IH]; [reflexivity|]. simpl.
  rewrite <- List.app_assoc, lex_string_quote_char, IH. reflexivity.
Qed.

(** Decimal digits *)

Lemma string_of_uint_digits d :
  Forall (fun c => is_digit c = true) (chars (NilEmpty.string_of_uint d)).
Proof. induction d; simpl; constructor; auto. Qed.

Lemma to_uint_canonical n : N.to_uint n = Decimal.unorm (N.to_uint n).
Proof.
  rewrite <- (DecimalN.Unsigned.to_of (N.to_uint n)).
  now rewrite DecimalN.Unsigned.of_to.
Qed.

(** The digits of a number: at least one, and no leading zero. *)
Lemma string_of_N_shape n :
  exists c cs,
    chars (string_of_N n) = c :: cs /\
    is_digit c = true /\ Forall (fun c => is_digit c = true) cs /\
    (c = "0"%char -> cs = []).
Proof.
  unfold string_of_N.
  pose proof (string_of_uint_digits (N.to_uint n)) as Hd.
  pose proof (to_uint_canonical n) as Hc.
  pose proof (DecimalFacts.nzhead_nonzero (N.to_uint n)) as Hnz.
  unfold Decimal.unorm in Hc.
  destruct (N.to_uint n) as [|d|d|d|d|d|d|d|d|d|d] eqn:E; simpl in *;
    try discriminate Hc;
    inversion Hd; subst;
    (eexists; eexists; split; [reflexivity|]; split; [reflexivity|];
     split; [assumption|]);
    try discriminate.
  intros _. destruct (Decimal.nzhead d) eqn:En; try discriminate Hc.
  - injection Hc as ->. reflexivity.
  - exfalso. now apply (Hnz u).
Qed.

Lemma span_digits_app ds rest :
  Forall (fun c => is_digit c = true) ds -> delimited rest = true ->
  span_digits (ds ++ rest) = (ds, rest).
Proof.
  intros Hds Hrest. induction Hds as [|c ds Hc _ IH]; simpl.
  - destruct rest as [|c r]; [reflexivity|]. simpl in *.
    destruct (is_digit c); [discriminate | reflexivity].
  - now rewrite Hc, IH.
Qed.

Lemma split_sign_digit c s :
  is_digit c = true -> split_sign (c :: s) = (false, c :: s).
Proof.
  destruct c as [[|] [|] [|] [|] [|] [|] [|] [|]]; simpl;
    try reflexivity; discriminate.
Qed.

Lemma leading_zero_canonical c cs :
  (c = "0"%char -> cs = []) -> leading_zero (c :: cs) = false.
Proof.
  intros H. destruct cs as [|c' cs].
  - destruct c as [[|] [|] [|] [|] [|] [|] [|] [|]]; reflexivity.
  - destruct c as [[|] [|] [|] [|] [|] [|] [|] [|]]; try reflexivity.
    now specialize (H eq_refl).
Qed.

Lemma lex_fraction_delimited rest :
  delimited rest = true -> lex_fraction rest = Returns (false, rest).
Proof.
  destruct rest as [|c r]; [reflexivity|].
  destruct c as [[|] [|] [|] [|] [|] [|] [|] [|]]; simpl;
    try reflexivity; discriminate.
Qed.

Lemma lex_exponent_delimited rest :
  delimited rest = true -> lex_exponent rest = Returns (false, rest).
Proof.
  destruct rest as [|c r]; [reflexivity|].
  destruct c as [[|] [|] [|] [|] [|] [|] [|] [|]]; simpl;
    try reflexivity; discriminate.
Qed.

Lemma lex_digits (n : N) (negative : bool) (rest : list ascii) :
  delimited rest = true ->
  lex_number ((if negative then ["-"%char] else @nil ascii) ++ chars (string_of_N n) ++ rest) =
  let z := Z.of_N n in
  if (negative && (z =? 0)) || negb (safe_integer z) then Unmodelled
  else Returns (if negative then - z else z, rest).
Proof.
  intros Hrest. destruct (string_of_N_shape n) as (c & cs & E & Hc & Hcs & H0).
  unfold lex_number.
  assert (Hs : split_sign ((if negative then ["-"%char] else @nil ascii) ++
                           chars (string_of_N n) ++ rest) =
               (negative, chars (string_of_N n) ++ rest)).
  { destruct negative; [reflexivity|]. simpl. rewrite E. simpl.
    now apply split_sign_digit. }
  rewrite Hs, span_digits_app; [|rewrite E; now constructor|assumption].
  assert (Hlz : leading_zero (chars (string_of_N n)) = false)
    by (rewrite E; now apply leading_zero_canonical).
  rewrite Hlz. rewrite E at 1.
  rewrite lex_fraction_delimited by assumption. simpl.
  rewrite lex_exponent_delimited by assumption. simpl.
  unfold chars, string_of_N.
  rewrite string_of_list_ascii_of_string, NilEmpty.usu, DecimalN.Unsigned.of_to.
  reflexivity.
Qed.

Lemma lex_number_roundtrip z rest :
  safe_integer z = true -> delimited rest = true ->
  lex_number (chars (string_of_Z z) ++ rest) = Returns (z, rest).
Proof.
  intros Hz Hrest. destruct z as [|p|p].
  - apply (lex_digits 0%N false rest Hrest).
  - pose proof (lex_digits (Npos p) false rest Hrest) as H. simpl in H.
    change (Z.of_N (Npos p)) with (Zpos p) in H. now rewrite Hz in H.
  - pose proof (lex_digits (Npos p) true rest Hrest) as H. simpl in H.
    assert (Hp : safe_integer (Zpos p) = true).
    { unfold safe_integer in *. rewrite andb_true_iff in *.
      rewrite !Z.leb_le in *. lia. }
    change (Z.of_N (Npos p)) with (Zpos p) in H. now rewrite Hp in H.
Qed.

(** Lexing a piece of text: [lexes s ts] whatever follows, [lexes_d s ts]
    when what follows is delimited. *)

Lemma lexes_weaken s ts : lexes s ts -> lexes_d s ts.
Proof. intros H rest fuel _. apply H. Qed.

Lemma bind_assoc_app {A : Type} (m : outcome (list A)) (l1 l2 : list A) :
  (l <- (l' <- m ;; Returns (l2 ++ l')) ;; Returns (l1 ++ l)) =
  (l' <- m ;; Returns ((l1 ++ l2) ++ l')).
Proof. destruct m; simpl; [now rewrite List.app_assoc | reflexivity..]. Qed.

Lemma lexes_app s1 ts1 s2 ts2 :
  lexes s1 ts1 -> lexes s2 ts2 -> lexes (s1 ++ s2) (ts1 ++ ts2).
Proof.
  intros H1 H2 rest fuel Hf. rewrite <- List.app_assoc in *.
  destruct (H1 _ _ Hf) as (f1 & Hf1 & ->).
  destruct (H2 _ _ Hf1) as (f2 & Hf2 & ->).
  exists f2. split; [assumption | apply bind_assoc_app].
Qed.

Lemma lexes_app_d s1 ts1 s2 ts2 :
  lexes s1 ts1 -> lexes_d s2 ts2 -> lexes_d (s1 ++ s2) (ts1 ++ ts2).
Proof.
  intros H1 H2 rest fuel Hd Hf. rewrite <- List.app_assoc in *.
  destruct (H1 _ _ Hf) as (f1 & Hf1 & ->).
  destruct (H2 _ _ Hd Hf1) as (f2 & Hf2 & ->).
  exists f2. split; [assumption | apply bind_assoc_app].
Qed.

Lemma lexes_d_app s1 ts1 s2 ts2 :
  lexes_d s1 ts1 -> starts_delimited s2 -> lexes s2 ts2 ->
  lexes (s1 ++ s2) (ts1 ++ ts2).
Proof.
  intros H1 Hd H2 rest fuel Hf. rewrite <- List.app_assoc in *.
  destruct (H1 _ _ (Hd rest) Hf) as (f1 & Hf1 & ->).
  destruct (H2 _ _ Hf1) as (f2 & Hf2 & ->).
  exists f2. split; [assumption | apply bind_assoc_app].
Qed.

Ltac lex_one :=
  let rest := fresh "rest" in let fuel := fresh "fuel" in
  let Hf := fresh "Hf" in
  intros rest fuel Hf; destruct fuel as [|fuel]; [inversion Hf|];
  exists fuel; split; [simpl in Hf; lia|];
  simpl; unfold prepend; now destruct (lex fuel rest).

Lemma lexes_lbracket : lexes ["["%char] [TLBracket]. Proof. lex_one. Qed.
Lemma lexes_rbracket : lexes ["]"%char] [TRBracket]. Proof. lex_one. Qed.
Lemma lexes_lbrace : lexes ["{"%char] [TLBrace]. Proof. lex_one. Qed.
Lemma lexes_rbrace : lexes ["}"%char] [TRBrace]. Proof. lex_one. Qed.
Lemma lexes_comma : lexes [","%char] [TComma]. Proof. lex_one. Qed.
Lemma lexes_colon : lexes [":"%char] [TColon]. Proof. lex_one. Qed.
Lemma lexes_null : lexes null_text [TNull]. Proof. lex_one. Qed.
Lemma lexes_true : lexes (text (VBool true)) [TTrue]. Proof. lex_one. Qed.
Lemma lexes_false : lexes (text (VBool false)) [TFalse]. Proof. lex_one. Qed.

Lemma lexes_quote s : lexes (quote s) [TString s].
Proof.
  intros rest fuel Hf. destruct fuel as [|fuel]; [inversion Hf|].
  exists fuel. unfold quote in *. split.
  - simpl in Hf. rewrite !length_app in Hf. simpl in Hf. Lia.lia.
  - simpl. rewrite <- List.app_assoc. simpl. rewrite lex_string_quote. simpl.
    unfold chars. rewrite string_of_list_ascii_of_string.
    unfold prepend. now destruct (lex fuel rest).
Qed.

Lemma string_of_Z_shape z :
  exists c cs, chars (string_of_Z z) = c :: cs /\
    is_ws c = false /\ (is_digit c || Ascii.eqb c "-")%bool = true.
Proof.
  destruct z as [|p|p].
  - now exists "0"%char, [].
  - destruct (string_of_N_shape (Npos p)) as (c & cs & E & Hc & _).
    exists c, cs. split; [exact E|]. rewrite Hc. split; [|reflexivity].
    destruct c as [[|] [|] [|] [|] [|] [|] [|] [|]]; try reflexivity;
      discriminate.
  - eexists _, _. split; [reflexivity|]. split; reflexivity.
Qed.

Lemma lexes_number z :
  safe_integer z = true -> lexes_d (chars (string_of_Z z)) [TNumber z].
Proof.
  intros Hz rest fuel Hd Hf. destruct fuel as [|fuel]; [inversion Hf|].
  pose proof (lex_number_roundtrip z rest Hz Hd) as Hn.
  destruct (string_of_Z_shape z) as (c & cs & E & Hws & Hstart).
  rewrite E in *. exists fuel. split.
  - simpl in Hf. rewrite length_app in Hf. lia.
  - simpl. rewrite Hws.
    rewrite <- List.app_comm_cons in Hn.
    destruct c as [[|] [|] [|] [|] [|] [|] [|] [|]]; try discriminate Hstart;
      simpl; simpl in Hn; rewrite Hn; simpl; unfold prepend;
      now destruct (lex fuel rest).
Qed.

Lemma lexes_join_close (c : ascii) (t : token) (parts : list (list ascii * list token)) :
  lexes [c] [t] -> starts_delimited [c] ->
  Forall (fun p => lexes_d (fst p) (snd p)) parts ->
  lexes (join (map fst parts) ++ [c]) (sep (map snd parts) ++ [t]).
Proof.
  intros Hc Hd Hparts. induction Hparts as [|p parts Hp Hrest IH]; [exact Hc|].
  destruct parts as [|q parts].
  - simpl. now apply lexes_d_app.
  - change (join (map fst (p :: q :: parts)) ++ [c])
      with ((fst p ++ ","%char :: join (map fst (q :: parts))) ++ [c]).
    change (sep (map snd (p :: q :: parts)) ++ [t])
      with ((snd p ++ TComma :: sep (map snd (q :: parts))) ++ [t]).
    rewrite <- !List.app_assoc. apply lexes_d_app; [assumption| |].
    + intros rest. reflexivity.
    + apply (lexes_app [","%char] [TComma]); [apply lexes_comma | exact IH].
Qed.

Lemma serialize_defined v : v <> VUndefined -> serialize v = Some (text v).
Proof.
  unfold text. destruct v as [ | |[|]|[z| |b]|s|l|props]; try reflexivity.
  now intros [].
Qed.

Lemma representable_defined v : representable v = true -> v <> VUndefined.
Proof. now destruct v. Qed.

Lemma text_object props :
  Forall (fun kv : string * any => snd kv <> VUndefined) props ->
  text (VObj props) =
  "{"%char :: join (map (fun kv => quote (fst kv) ++ ":"%char :: text (snd kv))
                        props) ++ ["}"%char].
Proof.
  intros H. unfold text at 1. simpl. do 3 f_equal.
  induction H as [|[k x] props Hx _ IH]; [reflexivity|]. simpl in *.
  now rewrite (serialize_defined x Hx), IH.
Qed.

Lemma lexes_serialize v :
  representable v = true -> lexes_d (text v) (tokens v).
Proof.
  induction v as [ | | b | n | s | l IHl | props IHp] using any_ind;
    simpl; intros Hv.
  - discriminate.
  - apply lexes_weaken, lexes_null.
  - destruct b; apply lexes_weaken; [apply lexes_true | apply lexes_false].
  - destruct n as [z| |b]; try discriminate. now apply lexes_number.
  - apply lexes_weaken, lexes_quote.
  - apply lexes_weaken.
    change (text (VArr l)) with ("["%char :: join (map text l) ++ ["]"%char]).
    apply (lexes_app ["["%char] [TLBracket]); [apply lexes_lbracket|].
    pose proof (lexes_join_close "]"%char TRBracket
                  (map (fun e => (text e, tokens e)) l)) as H.
    rewrite !map_map in H. simpl in H. apply H.
    + apply lexes_rbracket.
    + intros rest. reflexivity.
    + rewrite Forall_map. simpl. rewrite forallb_forall in Hv.
      rewrite Forall_forall in *. auto.
  - apply andb_prop in Hv as [_ Hv]. rewrite forallb_forall in Hv.
    apply lexes_weaken. rewrite text_object.
    2:{ rewrite Forall_forall. intros kv Hin.
        apply representable_defined. auto. }
    apply (lexes_app ["{"%char] [TLBrace]); [apply lexes_lbrace|].
    pose proof (lexes_join_close "}"%char TRBrace
                  (map (fun kv : string * any =>
                          (quote (fst kv) ++ ":"%char :: text (snd kv),
                           TString (fst kv) :: TColon :: tokens (snd kv)))
                       props)) as H.
    rewrite !map_map in H. simpl in H. apply H.
    + apply lexes_rbrace.
    + intros rest. reflexivity.
    + rewrite Forall_map. simpl. rewrite Forall_forall in *.
      intros kv Hin.
      apply (lexes_app_d (quote (fst kv)) [TString (fst kv)]
                         (":"%char :: text (snd kv)) (TColon :: tokens (snd kv)));
        [apply lexes_quote|].
      apply (lexes_app_d [":"%char] [TColon]); [apply lexes_colon|]. auto.
Qed.

(** Parsing the tokens of a value *)

Lemma tokens_head v :
  exists t ts, tokens v = t :: ts /\ t <> TRBracket.
Proof.
  destruct v as [ | |[|]|[z| |b]|s|l|props]; simpl;
    eexists _, _; (split; [reflexivity | discriminate]).
Qed.

Lemma sep_cons_cons (p q : list token) (ps : list (list token)) :
  sep (p :: q :: ps) = p ++ TComma :: sep (q :: ps).
Proof. reflexivity. Qed.

Lemma parse_elements_tokens l :
  l <> [] -> Forall parses l ->
  forall fuel rest,
    (2 * List.length (sep (map tokens l)) + 1 <= fuel)%nat ->
    parse_elements fuel (sep (map tokens l) ++ TRBracket :: rest) =
    Returns (l, rest).
Proof.
  intros Hne Hall. induction Hall as [|e l He Hl IH]; [congruence|].
  intros fuel rest Hfuel. destruct fuel as [|fuel]; [lia|].
  destruct l as [|e' l].
  - simpl in *. rewrite He by lia. reflexivity.
  - change (map tokens (e :: e' :: l))
      with (tokens e :: tokens e' :: map tokens l) in *.
    rewrite sep_cons_cons in *.
    rewrite length_app in Hfuel. simpl in Hfuel.
    rewrite <- List.app_assoc. simpl.
    rewrite He by lia. simpl.
    rewrite IH; [reflexivity | congruence | simpl; lia].
Qed.

Lemma parse_members_tokens props :
  props <> [] -> Forall (fun kv : string * any => parses (snd kv)) props ->
  forall fuel rest acc,
    (2 * List.length (sep (map (fun kv : string * any =>
         TString (fst kv) :: TColon :: tokens (snd kv)) props)) + 1 <= fuel)%nat ->
    parse_members fuel
      (sep (map (fun kv : string * any =>
                   TString (fst kv) :: TColon :: tokens (snd kv)) props)
       ++ TRBrace :: rest) acc =
    Returns (fold_left (fun o kv => obj_set (fst kv) (snd kv) o) props acc, rest).
Proof.
  intros Hne Hall. induction Hall as [|[k x] l He Hl IH]; [congruence|].
  intros fuel rest acc Hfuel. destruct fuel as [|fuel]; [lia|].
  destruct l as [|[k' x'] l].
  - simpl in *. rewrite He by lia. reflexivity.
  - remember ((k', x') :: l) as l' eqn:El.
    assert (Hl' : l' <> []) by (subst; congruence).
    simpl map in *. destruct (map _ l') as [|q qs] eqn:Em;
      [subst; discriminate|].
    rewrite sep_cons_cons in *. remember (sep (q :: qs)) as sq eqn:Esq.
    simpl in He. simpl in Hfuel. rewrite length_app in Hfuel. simpl in Hfuel.
    simpl. rewrite <- List.app_assoc. simpl.
    rewrite He by lia. simpl.
    rewrite IH; [reflexivity | assumption | lia].
Qed.

Lemma parses_representable v : representable v = true -> parses v.
Proof.
  induction v as [ | | b | n | s | l IHl | props IHp] using any_ind;
    simpl; intros Hv fuel rest Hfuel;
    try (destruct fuel as [|fuel]; [simpl in Hfuel; lia|]).
  - discriminate.
  - reflexivity.
  - destruct b; (destruct fuel; [simpl in Hfuel; lia | reflexivity]).
  - destruct n; try discriminate.
    destruct fuel; [simpl in Hfuel; lia | reflexivity].
  - reflexivity.
  - assert (Hall : Forall parses l).
    { rewrite forallb_forall in Hv. rewrite Forall_forall in *. auto. }
    destruct l as [|e l]; [reflexivity|].
    destruct (tokens_head e) as (t & ts & Et & Ht).
    remember (e :: l) as l' eqn:El.
    assert (Hs : exists ts', sep (map tokens l') = t :: ts').
    { subst l'. simpl. rewrite Et. destruct (map tokens l); simpl; eauto. }
    destruct Hs as (ts' & Es).
    simpl tokens in *. simpl List.length in Hfuel. rewrite length_app in Hfuel.
    simpl in Hfuel.
    pose proof (parse_elements_tokens l' ltac:(subst; congruence) Hall
                  fuel rest ltac:(lia)) as Hp.
    rewrite <- List.app_comm_cons, <- List.app_assoc. simpl.
    rewrite Es in *. rewrite <- List.app_comm_cons in *.
    rewrite Hp. destruct t; try reflexivity. now contradiction Ht.
  - apply andb_prop in Hv as [Hord Hv].
    assert (Hall : Forall (fun kv : string * any => parses (snd kv)) props).
    { rewrite forallb_forall in Hv. rewrite Forall_forall in *. auto. }
    destruct props as [|[k x] props]; [reflexivity|].
    remember ((k, x) :: props) as l' eqn:El.
    simpl tokens in *. simpl List.length in Hfuel. rewrite length_app in Hfuel.
    simpl in Hfuel.
    pose proof (parse_members_tokens l' ltac:(subst; congruence) Hall
                  fuel rest [] ltac:(lia)) as Hp.
    rewrite <- List.app_comm_cons, <- List.app_assoc. simpl.
    assert (Hs : exists ts',
               sep (map (fun kv : string * any =>
                           TString (fst kv) :: TColon :: tokens (snd kv)) l') =
               TString k :: ts').
    { subst l'. simpl. destruct (map _ props); simpl; eauto. }
    destruct Hs as (ts' & Es). rewrite Es in *.
    rewrite <- List.app_comm_cons in *. rewrite Hp.
    rewrite (define_in_order l' []) by exact Hord. reflexivity.
Qed.

Lemma stringify_text v :
  v <> VUndefined -> stringify v = Some (string_of_list_ascii (text v)).
Proof. intros H. unfold stringify. now rewrite serialize_defined. Qed.

(** JSON.parse reads back a representable value from its text. *)
Lemma parse_text v :
  representable v = true ->
  parse (string_of_list_ascii (text v)) = Returns v.
Proof.
  intros Hv. unfold parse, chars. rewrite list_ascii_of_string_of_list_ascii.
  destruct (lexes_serialize v Hv [] (S (List.length (text v))) eq_refl)
    as (fuel' & Hfuel' & Hlex).
  { rewrite List.app_nil_r. lia. }
  rewrite List.app_nil_r in Hlex. rewrite Hlex.
  destruct fuel' as [|fuel']; [inversion Hfuel'|].
  pose proof (parses_representable v Hv (S (2 * List.length (tokens v)))%nat []
                (Nat.le_succ_diag_r _)) as Hp.
  rewrite List.app_nil_r in Hp.
  change (lex (S fuel') []) with (@Returns (list token) []).
  cbn [bind]. rewrite List.app_nil_r, Hp. reflexivity.
Qed.

Lemma parse_stringify_representable v :
  representable v = true ->
  exists s, stringify v = Some s /\ parse s = Returns v.
Proof.
  intros Hv. exists (string_of_list_ascii (text v)). split.
  - now apply stringify_text, representable_defined.
  - now apply parse_text.
Qed.

(** Normal forms *)

Lemma normalize_defined v : v <> VUndefined -> normalize v <> VUndefined.
Proof. destruct v as [ | |b|[z| |b]|s|l|props]; simpl; congruence. Qed.

Lemma serialize_normalize v : serialize (normalize v) = serialize v.
Proof.
  induction v as [ | | b | n | s | l IHl | props IHp] using any_ind;
    try reflexivity.
  - now destruct n.
  - simpl. do 4 f_equal. rewrite map_map.
    apply map_ext_Forall. eapply Forall_impl; [|exact IHl].
    intros e He. simpl in He. destruct e; try (now rewrite He); reflexivity.
  - simpl. do 4 f_equal.
    induction IHp as [|[k x] props Hx _ IH]; [reflexivity|].
    cbn [snd] in Hx. cbn [flat_map fst snd].
    rewrite flat_map_app, IH. f_equal.
    destruct x as [ | |b|n|s|l|props'];
      [reflexivity | cbn [flat_map fst snd]; rewrite Hx; apply List.app_nil_r ..].
Qed.

Lemma forallb_precedes_sub {A : Type} (k : string) (f : string * A -> list (string * A))
    (props : list (string * A)) :
  (forall kv, f kv = [] \/ exists y, f kv = [(fst kv, y)]) ->
  forallb (precedes k) (map fst props) = true ->
  forallb (precedes k) (map fst (flat_map f props)) = true.
Proof.
  intros Hf. induction props as [|kv props IH]; [reflexivity|]. simpl.
  rewrite map_app, forallb_app, andb_true_iff. intros [H1 H2].
  rewrite (IH H2), andb_true_r.
  destruct (Hf kv) as [->|(y & ->)]; [reflexivity|]. simpl. now rewrite H1.
Qed.

Lemma key_order_ok_sub {A : Type} (f : string * A -> list (string * A))
    (props : list (string * A)) :
  (forall kv, f kv = [] \/ exists y, f kv = [(fst kv, y)]) ->
  key_order_ok (map fst props) = true ->
  key_order_ok (map fst (flat_map f props)) = true.
Proof.
  intros Hf. induction props as [|kv props IH]; [reflexivity|]. simpl.
  rewrite andb_true_iff. intros [H1 H2].
  destruct (Hf kv) as [->|(y & ->)]; simpl; [now apply IH|].
  rewrite (IH H2), andb_true_r. now apply forallb_precedes_sub.
Qed.

Lemma representable_normalize v :
  well_formed v = true -> v <> VUndefined -> representable (normalize v) = true.
Proof.
  induction v as [ | | b | n | s | l IHl | props IHp] using any_ind;
    simpl; intros Hwf Hdef; try reflexivity.
  - congruence.
  - now destruct n.
  - rewrite forallb_forall in Hwf. rewrite Forall_forall in IHl.
    apply forallb_forall. intros e' Hin. apply in_map_iff in Hin as (e & <- & Hin).
    destruct e; try reflexivity; apply (IHl _ Hin); auto; discriminate.
  - apply andb_prop in Hwf as [Hord Hwf]. apply andb_true_intro. split.
    + apply key_order_ok_sub; [|assumption].
      intros [k x]. simpl. destruct x; eauto.
    + rewrite forallb_forall in Hwf. rewrite Forall_forall in IHp.
      apply forallb_forall. intros kv' Hin.
      apply in_flat_map in Hin as (kv & Hin & Hkv).
      specialize (IHp _ Hin). specialize (Hwf _ Hin).
      destruct kv as [k x]. simpl in *.
      destruct x; simpl in Hkv; try contradiction;
        destruct Hkv as [<-|[]]; simpl; apply IHp; auto; discriminate.
Qed.

Lemma normalize_representable v : representable v = true -> normalize v = v.
Proof.
  induction v as [ | | b | n | s | l IHl | props IHp] using any_ind;
    simpl; intros Hv; try reflexivity.
  - now destruct n.
  - f_equal. rewrite forallb_forall in Hv. rewrite Forall_forall in IHl.
    rewrite <- (map_id l) at 2. apply map_ext_in. intros e Hin.
    specialize (IHl _ Hin (Hv _ Hin)). specialize (Hv _ Hin).
    destruct e; try assumption. discriminate.
  - f_equal. apply andb_prop in Hv as [_ Hv].
    rewrite forallb_forall in Hv. rewrite Forall_forall in IHp.
    induction props as [|[k x] props IH]; [reflexivity|]. simpl.
    rewrite IH.
    + pose proof (IHp (k, x) (or_introl eq_refl) (Hv _ (or_introl eq_refl))) as Hx.
      pose proof (Hv (k, x) (or_introl eq_refl)) as Hr. cbn [snd fst] in *.
      destruct x; try discriminate Hr; cbn [app]; now rewrite Hx.
    + intros kv Hin. apply IHp. now right.
    + intros kv Hin. apply Hv. now right.
Qed.

Lemma representable_well_formed v : representable v = true -> well_formed v = true.
Proof.
  induction v as [ | | b | n | s | l IHl | props IHp] using any_ind;
    simpl; intros Hv; try reflexivity.
  - now destruct n.
  - rewrite forallb_forall in *. rewrite Forall_forall in IHl. auto.
  - apply andb_prop in Hv as [Hord Hv]. rewrite Hord. simpl.
    rewrite forallb_forall in *. rewrite Forall_forall in IHp. auto.
Qed.

(** JSON.parse after JSON.stringify, on every value of the model that
    has a text. *)
Lemma parse_stringify v :
  well_formed v = true -> v <> VUndefined ->
  exists s, stringify v = Some s /\ parse s = Returns (normalize v).
Proof.
  intros Hwf Hdef.
  destruct (parse_stringify_representable (normalize v)) as (s & Hs & Hp).
  { now apply representable_normalize. }
  exists s. split; [|assumption].
  unfold stringify in *. now rewrite <- serialize_normalize.
Qed.

(** ** The fuel of the parser and of the lexer is enough *)

Lemma fuelled_bind {A B : Type} (ts ts' : list token)
    (m : outcome (A * list token)) (k : A * list token -> outcome (B * list token)) :
  fuelled ts' m ->
  (forall a rest, (List.length rest < List.length ts')%nat -> fuelled ts (k (a, rest))) ->
  fuelled ts (bind m k).
Proof.
  intros [Hm Hlen] Hk. destruct m as [[a rest]|e|]; simpl.
  - apply Hk. now apply (Hlen a rest).
  - split; [discriminate | intros ? ? [=]].
  - congruence.
Qed.

Lemma fuelled_returns {A : Type} (ts rest : list token) (a : A) :
  (List.length rest < List.length ts)%nat -> fuelled ts (Returns (a, rest)).
Proof. intros H. split; [discriminate | now intros ? ? [= <- <-]]. Qed.

Lemma fuelled_throws {A : Type} (ts : list token) e :
  @fuelled A ts (Throws e).
Proof. split; [discriminate | intros ? ? [=]]. Qed.

Lemma parser_fuel (fuel : nat) :
  (forall ts, (2 * List.length ts < fuel)%nat -> fuelled ts (parse_value fuel ts)) /\
  (forall ts, (2 * List.length ts + 1 < fuel)%nat ->
     fuelled ts (parse_elements fuel ts)) /\
  (forall ts acc, (2 * List.length ts + 1 < fuel)%nat ->
     fuelled ts (parse_members fuel ts acc)).
Proof.
  induction fuel as [|fuel (IHv & IHe & IHm)]; [repeat split; intros; lia|].
  split; [|split].
  - intros ts Hf.
    assert (Hm : forall whole ts0 : list token,
               (List.length ts0 < List.length whole)%nat ->
               (2 * List.length ts0 + 1 < fuel)%nat ->
               fuelled whole
                 ('(props, rest') <- parse_members fuel ts0 [] ;;
                  Returns (VObj props, rest'))).
    { intros whole ts0 H0 H1. apply (fuelled_bind _ ts0); [now apply IHm|].
      intros props rest Hr. apply fuelled_returns. lia. }
    assert (He : forall whole ts0 : list token,
               (List.length ts0 < List.length whole)%nat ->
               (2 * List.length ts0 + 1 < fuel)%nat ->
               fuelled whole
                 ('(elems, rest') <- parse_elements fuel ts0 ;;
                  Returns (VArr elems, rest'))).
    { intros whole ts0 H0 H1. apply (fuelled_bind _ ts0); [now apply IHe|].
      intros elems rest Hr. apply fuelled_returns. lia. }
    destruct ts as [|t ts]; [apply fuelled_throws|].
    destruct t; try apply fuelled_throws;
      try (apply fuelled_returns; simpl; lia).
    + destruct ts as [|t ts]; [apply Hm; simpl in *; lia|].
      destruct t; try (apply Hm; simpl in *; lia).
      apply fuelled_returns. simpl. lia.
    + destruct ts as [|t ts]; [apply He; simpl in *; lia|].
      destruct t; try (apply He; simpl in *; lia).
      apply fuelled_returns. simpl. lia.
  - intros ts Hf. simpl. apply (fuelled_bind _ ts); [apply IHv; lia|].
    intros v rest Hr. destruct rest as [|t rest]; [apply fuelled_throws|].
    destruct t; try apply fuelled_throws.
    + apply fuelled_returns. simpl in *. lia.
    + apply (fuelled_bind _ rest); [apply IHe; simpl in *; lia|].
      intros vs rest' Hr'. apply fuelled_returns. simpl in *. lia.
  - intros ts acc Hf. simpl.
    destruct ts as [|t ts]; [apply fuelled_throws|].
    destruct t; try apply fuelled_throws.
    destruct ts as [|t ts]; [apply fuelled_throws|].
    destruct t; try apply fuelled_throws.
    simpl in Hf. apply (fuelled_bind _ ts); [apply IHv; lia|].
    intros v rest Hr. destruct rest as [|t rest]; [apply fuelled_throws|].
    destruct t; try apply fuelled_throws.
    + apply fuelled_returns. simpl in *. lia.
    + destruct (IHm rest (obj_set s v acc)) as [H1 H2]; [simpl in *; lia|].
      split; [assumption|]. intros a r E. specialize (H2 a r E). simpl in *. lia.
Qed.

Lemma lex_string_length (n : nat) : forall s str rest,
  (List.length s <= n)%nat ->
  lex_string s = Returns (str, rest) -> (List.length rest < List.length s)%nat.
Proof.
  induction n as [|n IH]; intros s str rest Hn.
  - destruct s; [discriminate | simpl in Hn; lia].
  - destruct s as [|c s]; [discriminate|]. simpl in Hn.
    assert (Hplain : forall x : ascii,
               ('(str0, rest0) <- lex_string s ;; Returns (String x str0, rest0)) =
               Returns (str, rest) ->
               (List.length rest < List.length (c :: s))%nat).
    { intros x. destruct (lex_string s) as [[str0 rest0]|e|] eqn:E; try discriminate.
      intros [= <- <-]. apply IH in E; [simpl; lia | lia]. }
    destruct c as [[|] [|] [|] [|] [|] [|] [|] [|]];
      try (exact (Hplain _)); try discriminate;
      try (intros [= <- <-]; simpl; lia).
    destruct s as [|e s]; [discriminate|]. simpl in Hn.
    assert (Hesc : forall x : ascii,
               ('(str0, rest0) <- lex_string s ;; Returns (String x str0, rest0)) =
               Returns (str, rest) ->
               (List.length rest < List.length ("\"%char :: e :: s))%nat).
    { intros x. destruct (lex_string s) as [[str0 rest0]|e'|] eqn:E; try discriminate.
      intros [= <- <-]. apply IH in E; [simpl; lia | lia]. }
    destruct e as [[|] [|] [|] [|] [|] [|] [|] [|]];
      try (exact (Hesc _)); try discriminate.
    destruct s as [|a [|b [|c [|d s]]]]; try discriminate.
    simpl. destruct (hex4 a b c d) as [k|]; [|discriminate].
    destruct (k <? 256)%N; [|discriminate].
    destruct (lex_string s) as [[str0 rest0]|e'|] eqn:E; try discriminate.
    intros [= <- <-]. apply IH in E; [simpl; lia | simpl in Hn; lia].
Qed.

Lemma span_digits_length s :
  List.length s =
  (List.length (fst (span_digits s)) + List.length (snd (span_digits s)))%nat.
Proof.
  induction s as [|c s IH]; [reflexivity|]. simpl.
  destruct (is_digit c); [|reflexivity].
  destruct (span_digits s) as [ds rest]. simpl in *. lia.
Qed.

Lemma lex_fraction_length s b rest :
  lex_fraction s = Returns (b, rest) -> (List.length rest <= List.length s)%nat.
Proof.
  unfold lex_fraction. destruct s as [|c s]; [now intros [= <- <-]|].
  assert (Hdot : match span_digits s with
                 | ([], _) => Throws SyntaxError
                 | (_ :: _, rest0) => Returns (true, rest0)
                 end = Returns (b, rest) ->
                 (List.length rest <= List.length (c :: s))%nat).
  { pose proof (span_digits_length s) as Hl.
    destruct (span_digits s) as [[|d ds] rest0]; [discriminate|].
    intros [= <- <-]. simpl in *. lia. }
  destruct c as [[|] [|] [|] [|] [|] [|] [|] [|]];
    try (now intros [= <- <-]); exact Hdot.
Qed.

Lemma lex_exponent_length s b rest :
  lex_exponent s = Returns (b, rest) -> (List.length rest <= List.length s)%nat.
Proof.
  unfold lex_exponent. destruct s as [|c s]; [now intros [= <- <-]|].
  assert (Hexp : match span_digits match s with
                                   | ("+"%char :: t | "-"%char :: t) => t
                                   | _ => s
                                   end with
                 | ([], _) => Throws SyntaxError
                 | (_ :: _, rest0) => Returns (true, rest0)
                 end = Returns (b, rest) ->
                 (List.length rest <= List.length (c :: s))%nat).
  { assert (Hs : (List.length match s with
                              | ("+"%char :: t | "-"%char :: t) => t
                              | _ => s
                              end <= List.length s)%nat).
    { destruct s as [|c' s']; [reflexivity|].
      destruct c' as [[|] [|] [|] [|] [|] [|] [|] [|]]; simpl; lia. }
    revert Hs. generalize (match s with
                           | ("+"%char :: t | "-"%char :: t) => t
                           | _ => s
                           end).
    intros s0 Hs. pose proof (span_digits_length s0) as Hl.
    destruct (span_digits s0) as [[|d ds] rest0]; [discriminate|].
    intros [= <- <-]. simpl in *. lia. }
  destruct c as [[|] [|] [|] [|] [|] [|] [|] [|]];
    try (now intros [= <- <-]); exact Hexp.
Qed.

Lemma split_sign_length s :
  (List.length (snd (split_sign s)) <= List.length s)%nat.
Proof.
  destruct s as [|c s]; [reflexivity|].
  destruct c as [[|] [|] [|] [|] [|] [|] [|] [|]]; simpl; lia.
Qed.

Lemma lex_number_length s z rest :
  lex_number s = Returns (z, rest) -> (List.length rest < List.length s)%nat.
Proof.
  unfold lex_number. pose proof (split_sign_length s) as Hsign.
  destruct (split_sign s) as [negative s1]. simpl in Hsign.
  pose proof (span_digits_length s1) as Hspan.
  destruct (span_digits s1) as [[|d ds] s2]; [discriminate|]. simpl in Hspan.
  destruct (leading_zero (d :: ds)); [discriminate|].
  destruct (lex_fraction s2) as [[frac s3]|e|] eqn:Ef; try discriminate.
  apply lex_fraction_length in Ef. cbn [bind].
  destruct (lex_exponent s3) as [[exp s4]|e|] eqn:Ee; try discriminate.
  apply lex_exponent_length in Ee. cbn [bind].
  destruct (NilEmpty.uint_of_string _); [|discriminate].
  destruct (_ || _); [discriminate|]. intros [= _ <-]. lia.
Qed.

(** Above the length of the text, the fuel does not matter. *)
Lemma lex_fuel (fuel1 : nat) : forall fuel2 s,
  (List.length s < fuel1)%nat -> (List.length s < fuel2)%nat ->
  lex fuel1 s = lex fuel2 s.
Proof.
  induction fuel1 as [|fuel1 IH]; intros fuel2 s H1 H2; [lia|].
  destruct fuel2 as [|fuel2]; [lia|].
  destruct s as [|c s]; [reflexivity|]. simpl in H1, H2.
  assert (Hrec : forall rest, (List.length rest <= List.length s)%nat ->
                              lex fuel1 rest = lex fuel2 rest)
    by (intros rest Hr; apply IH; lia).
  assert (Hstr : ('(str, rest) <- lex_string s ;; prepend (TString str) (lex fuel1 rest)) =
                 ('(str, rest) <- lex_string s ;; prepend (TString str) (lex fuel2 rest))).
  { destruct (lex_string s) as [[str rest]|e|] eqn:E; try reflexivity.
    apply (lex_string_length _ _ _ _ (Nat.le_refl _)) in E.
    cbn [bind]. rewrite Hrec by lia. reflexivity. }
  assert (Hnum : ('(z, rest) <- lex_number (c :: s) ;; prepend (TNumber z) (lex fuel1 rest)) =
                 ('(z, rest) <- lex_number (c :: s) ;; prepend (TNumber z) (lex fuel2 rest))).
  { destruct (lex_number (c :: s)) as [[z rest]|e|] eqn:E; try reflexivity.
    apply lex_number_length in E. simpl in E.
    cbn [bind]. rewrite Hrec by lia. reflexivity. }
  assert (Hkw : forall (t : token) (k : nat),
             prepend t (lex fuel1 (skipn k s)) = prepend t (lex fuel2 (skipn k s))).
  { intros t k. rewrite Hrec; [reflexivity|].
    rewrite length_skipn. lia. }
  pose proof (Hkw TTrue 3%nat) as Htrue.
  pose proof (Hkw TFalse 4%nat) as Hfalse.
  pose proof (Hkw TNull 3%nat) as Hnull.
  pose proof (Hrec s (Nat.le_refl _)) as Hs.
  destruct c as [[|] [|] [|] [|] [|] [|] [|] [|]];
    cbn [lex is_ws is_digit Ascii.eqb Bool.eqb orb];
    try reflexivity; try (rewrite Hs; reflexivity);
    try exact Hstr; try exact Hnum.
  - destruct s as [|[[|] [|] [|] [|] [|] [|] [|] [|]] s]; try reflexivity.
    destruct s as [|[[|] [|] [|] [|] [|] [|] [|] [|]] s]; try reflexivity.
    destruct s as [|[[|] [|] [|] [|] [|] [|] [|] [|]] s]; try reflexivity.
    first [ exact Htrue | exact Hnull
          | destruct s as [|[[|] [|] [|] [|] [|] [|] [|] [|]] s]; try reflexivity;
            exact Hfalse ].
  - destruct s as [|[[|] [|] [|] [|] [|] [|] [|] [|]] s]; try reflexivity.
    destruct s as [|[[|] [|] [|] [|] [|] [|] [|] [|]] s]; try reflexivity.
    destruct s as [|[[|] [|] [|] [|] [|] [|] [|] [|]] s]; try reflexivity.
    first [ exact Htrue | exact Hnull
          | destruct s as [|[[|] [|] [|] [|] [|] [|] [|] [|]] s]; try reflexivity;
            exact Hfalse ].
  - destruct s as [|[[|] [|] [|] [|] [|] [|] [|] [|]] s]; try reflexivity.
    destruct s as [|[[|] [|] [|] [|] [|] [|] [|] [|]] s]; try reflexivity.
    destruct s as [|[[|] [|] [|] [|] [|] [|] [|] [|]] s]; try reflexivity.
    first [ exact Htrue | exact Hnull
          | destruct s as [|[[|] [|] [|] [|] [|] [|] [|] [|]] s]; try reflexivity;
            exact Hfalse ].
Qed.

(** [JSON.parse] leaves the model only where the lexer does: at a
    number literal or an escape that the model does not hold. *)
Lemma parse_unmodelled text :
  parse text = Unmodelled ->
  lex (S (List.length (chars text))) (chars text) = Unmodelled.
Proof.
  unfold parse. destruct (lex _ (chars text)) as [ts|e|]; [|discriminate|reflexivity].
  cbn [bind]. intros H. exfalso.
  destruct (proj1 (parser_fuel (S (2 * List.length ts))) ts (Nat.lt_succ_diag_r _))
    as [Hne _].
  destruct (parse_value _ ts) as [[v [|t rest]]|e|]; try discriminate.
  now apply Hne.
Qed.

(** ** build *)

Lemma transition_record m sk f sk' fk' :
  transition (Chain.record m sk f) sk' fk' =
  if String.eqb sk sk' && String.eqb (followKey f) fk'
  then Some (bump f (transition m sk (followKey f)))
  else transition m sk' fk'.
Proof.
  unfold transition, Chain.record. fold (followKey f).
  rewrite !obj_get_modify.
  destruct (String.eqb_spec sk sk') as [<-|Hne]; simpl.
  - unfold obj_has. destruct (obj_get sk m) as [st|] eqn:Est.
    + rewrite Est. simpl. rewrite obj_get_modify.
      destruct (String.eqb_spec (followKey f) fk') as [<-|Hf].
      * destruct (obj_get (followKey f) st) as [r|] eqn:Er.
        -- now rewrite Er.
        -- rewrite obj_get_set_same. reflexivity.
      * destruct (obj_get (followKey f) st); [reflexivity|].
        rewrite obj_get_set. now destruct (String.eqb_spec (followKey f) fk').
    + rewrite obj_get_set_same. cbn [option_map obj_get]. rewrite obj_get_modify.
      rewrite obj_get_set. cbn [obj_get].
      destruct (String.eqb_spec (followKey f) fk') as [<-|Hf]; [|reflexivity].
      reflexivity.
  - unfold obj_has. destruct (obj_get sk m); [reflexivity|].
    rewrite obj_get_set. now destruct (String.eqb_spec sk sk').
Qed.

Lemma any_eqb_eq a b : any_eqb a b = true <-> a = b.
Proof.
  split; [|intros <-; apply any_eqb_refl].
  revert b.
  induction a as [ | | x | n | s | l IHl | props IHp] using any_ind;
    intros [ | | y | m | t | l' | props']; simpl; try discriminate;
    intros H; try reflexivity; try (destruct n; discriminate H).
  - now apply Bool.eqb_prop in H as ->.
  - destruct n as [z| |x], m as [z'| |y]; try discriminate; try reflexivity.
    + now apply Z.eqb_eq in H as ->.
    + now apply Bool.eqb_prop in H as ->.
  - now apply String.eqb_eq in H as ->.
  - f_equal. revert l' H.
    induction IHl as [|x l Hx _ IH]; intros [|y l']; try discriminate;
      [reflexivity|].
    intros H. apply andb_prop in H as [H1 H2].
    f_equal; [now apply Hx | now apply IH].
  - f_equal. revert props' H.
    induction IHp as [|[k x] l Hx _ IH]; intros [|[k' y] l']; try discriminate;
      [reflexivity|].
    intros H. apply andb_prop in H as [H1 H3]. apply andb_prop in H1 as [H1 H2].
    apply String.eqb_eq in H1 as ->. simpl in Hx.
    f_equal; [f_equal; now apply Hx | now apply IH].
Qed.

Lemma any_eqb_neq a b : any_eqb a b = false <-> a <> b.
Proof.
  rewrite <- any_eqb_eq. destruct (any_eqb a b); split; congruence.
Qed.

(** Distinct representable values have distinct texts. *)
Lemma text_injective a b :
  representable a = true -> representable b = true ->
  text a = text b -> a = b.
Proof.
  intros Ha Hb E. pose proof (parse_text a Ha) as Pa.
  rewrite E, (parse_text b Hb) in Pa. congruence.
Qed.

Lemma createStateKey_array l :
  createStateKey (VArr l) = string_of_list_ascii (text (VArr l)).
Proof. reflexivity. Qed.

Lemma string_of_list_ascii_inj a b :
  string_of_list_ascii a = string_of_list_ascii b -> a = b.
Proof.
  intros H. apply (f_equal list_ascii_of_string) in H.
  now rewrite !list_ascii_of_string_of_list_ascii in H.
Qed.

Lemma createStateKey_injective s1 s2 :
  forallb representable s1 = true -> forallb representable s2 = true ->
  createStateKey (VArr s1) = createStateKey (VArr s2) -> s1 = s2.
Proof.
  intros H1 H2 E. rewrite !createStateKey_array in E.
  apply string_of_list_ascii_inj, text_injective in E; [congruence|assumption..].
Qed.

Lemma followKey_text f :
  f <> VUndefined -> followKey f = string_of_list_ascii (text f).
Proof.
  intros H. unfold followKey. now rewrite stringify_text.
Qed.

Lemma followKey_injective f1 f2 :
  representable f1 = true -> representable f2 = true ->
  followKey f1 = followKey f2 -> f1 = f2.
Proof.
  intros H1 H2 E.
  rewrite !followKey_text in E by now apply representable_defined.
  now apply string_of_list_ascii_inj, text_injective in E.
Qed.

Lemma keyed_occurrences_snoc sk fk ws w :
  keyed_occurrences sk fk (ws ++ [w]) =
  keyed_occurrences sk fk ws +
  (if String.eqb (createStateKey (VArr (fst w))) sk &&
      String.eqb (followKey (snd w)) fk then 1 else 0).
Proof.
  unfold keyed_occurrences. rewrite filter_app, length_app. simpl.
  destruct (_ && _); simpl; lia.
Qed.

Lemma keyed_occurrences_nonneg sk fk ws : 0 <= keyed_occurrences sk fk ws.
Proof. unfold keyed_occurrences. lia. Qed.

Lemma tallies_nil : tallies [] [].
Proof. intros sk fk. reflexivity. Qed.

Lemma tallies_snoc ws m w :
  tallies ws m ->
  tallies (ws ++ [w]) (Chain.record m (createStateKey (VArr (fst w))) (snd w)).
Proof.
  intros H sk fk. rewrite transition_record, keyed_occurrences_snoc.
  destruct (String.eqb_spec (createStateKey (VArr (fst w))) sk) as [<-|Hs]; simpl.
  - destruct (String.eqb_spec (followKey (snd w)) fk) as [<-|Hf].
    + specialize (H (createStateKey (VArr (fst w))) (followKey (snd w))).
      destruct (transition m _ _) as [r|]; simpl.
      * destruct H as (Hc & w' & Hin & H1 & H2 & H3). split; [lia|].
        exists w'. rewrite in_app_iff. auto.
      * split; [lia|]. exists w. rewrite in_app_iff. simpl. auto.
    + specialize (H (createStateKey (VArr (fst w))) fk).
      destruct (transition m _ _) as [r|]; [|lia].
      destruct H as (Hc & w' & Hin & H1 & H2 & H3). split; [lia|].
      exists w'. rewrite in_app_iff. auto.
  - specialize (H sk fk).
    destruct (transition m _ _) as [r|]; [|lia].
    destruct H as (Hc & w' & Hin & H1 & H2 & H3). split; [lia|].
    exists w'. rewrite in_app_iff. auto.
Qed.

Lemma tallies_tally ws2 : forall ws1 m,
  tallies ws1 m -> tallies (ws1 ++ ws2) (tally ws2 m).
Proof.
  induction ws2 as [|w ws2 IH]; intros ws1 m H; simpl.
  - now rewrite List.app_nil_r.
  - replace (ws1 ++ w :: ws2) with ((ws1 ++ [w]) ++ ws2)
      by now rewrite <- List.app_assoc.
    apply IH. now apply tallies_snoc.
Qed.

(** [build] is the tally of the windows of the corpus. *)

Lemma forM_returns {A S : Type} (body : S -> A -> outcome S) (g : S -> A -> S)
    (l : list A) :
  (forall s a, In a l -> body s a = Returns (g s a)) ->
  forall s, forM body s l = Returns (fold_left g l s).
Proof.
  induction l as [|a l IH]; intros H s; [reflexivity|]. simpl.
  rewrite H by now left. simpl. apply IH. intros s' a' Hin. apply H. now right.
Qed.

Lemma fold_left_ext_in {A B : Type} (f g : A -> B -> A) (l : list B) :
  (forall a b, In b l -> f a b = g a b) ->
  forall a, fold_left f l a = fold_left g l a.
Proof.
  induction l as [|b l IH]; intros H a; [reflexivity|]. simpl.
  rewrite H by now left. apply IH. intros a' b' Hin. apply H. now right.
Qed.

Lemma fold_left_map {A B C : Type} (f : A -> C -> A) (g : B -> C) (l : list B) a :
  fold_left f (map g l) a = fold_left (fun a b => f a (g b)) l a.
Proof. revert a. induction l as [|b l IH]; intros a; simpl; auto. Qed.

Lemma fold_left_flat_map {A B C : Type} (f : A -> C -> A) (g : B -> list C)
    (l : list B) a :
  fold_left f (flat_map g l) a = fold_left (fun a b => fold_left f (g b) a) l a.
Proof.
  revert a. induction l as [|b l IH]; intros a; simpl; [reflexivity|].
  now rewrite fold_left_app, IH.
Qed.

Lemma length_padded n run :
  List.length (padded n run) = (n + List.length run + 1)%nat.
Proof. unfold padded. rewrite !length_app, repeat_length. simpl. lia. Qed.

Lemma observe_window n run m i :
  1 <= n -> (i <= List.length run)%nat ->
  Chain.observe n (padded (Z.to_nat n) run) m i =
  Chain.record m
    (createStateKey (VArr (firstn (Z.to_nat n) (skipn i (padded (Z.to_nat n) run)))))
    (nth (i + Z.to_nat n) (padded (Z.to_nat n) run) VUndefined).
Proof.
  intros Hn Hi. unfold Chain.observe.
  destruct (Z.eqb_spec (Z.of_nat i + n) 0) as [E|_]; [lia|].
  f_equal.
  - do 2 f_equal. unfold slice. rewrite length_padded.
    destruct (Z.ltb_spec (Z.of_nat i) 0) as [?|_]; [lia|].
    destruct (Z.ltb_spec (Z.of_nat i + n) 0) as [?|_]; [lia|].
    rewrite !Z.min_l by lia. rewrite Nat2Z.id. do 2 f_equal. lia.
  - unfold index. destruct (Z.ltb_spec (Z.of_nat i + n) 0) as [?|_]; [lia|].
    f_equal. lia.
Qed.

Lemma build_tally runs n :
  1 <= n ->
  Chain.build (VArr (map VArr runs)) n =
  Returns (tally (corpus_windows (Z.to_nat n) runs) []).
Proof.
  intros Hn. unfold Chain.build, tally, corpus_windows.
  rewrite fold_left_flat_map.
  assert (Hd : or_default n = n).
  { unfold or_default. destruct (Z.eqb_spec n 0); [lia | reflexivity]. }
  rewrite Hd.
  rewrite (forM_returns _
    (fun m run => match run with
                  | VArr symbols =>
                      fold_left (Chain.observe n (padded (Z.to_nat n) symbols))
                        (seq 0 (List.length symbols + 1)) m
                  | _ => m
                  end)).
  - f_equal. rewrite fold_left_map. apply fold_left_ext_in.
    intros m run _. unfold windows. rewrite fold_left_map.
    apply fold_left_ext_in. intros m' i Hi. apply in_seq in Hi.
    apply observe_window; lia.
  - intros m run Hin. apply in_map_iff in Hin as (symbols & <- & _). reflexivity.
Qed.

Lemma padded_representable n run :
  forallb representable run = true ->
  forallb representable (padded n run) = true.
Proof.
  intros H. unfold padded. rewrite !forallb_app, H. simpl.
  rewrite andb_true_r. apply forallb_forall. intros x Hx.
  now apply repeat_spec in Hx as ->.
Qed.

Lemma in_firstn {A : Type} (x : A) n l : In x (firstn n l) -> In x l.
Proof.
  intros H. rewrite <- (firstn_skipn n l). apply in_or_app. now left.
Qed.

Lemma in_skipn {A : Type} (x : A) n l : In x (skipn n l) -> In x l.
Proof.
  intros H. rewrite <- (firstn_skipn n l). apply in_or_app. now right.
Qed.

Lemma windows_representable n runs :
  forallb (forallb representable) runs = true ->
  forallb representable_window (corpus_windows n runs) = true.
Proof.
  intros H. apply forallb_forall. intros w Hw.
  apply in_flat_map in Hw as (run & Hrun & Hw).
  rewrite forallb_forall in H. specialize (H _ Hrun).
  apply (padded_representable n) in H. rewrite forallb_forall in H.
  apply in_map_iff in Hw as (i & <- & Hi). apply in_seq in Hi.
  unfold representable_window. simpl. apply andb_true_intro. split.
  - apply forallb_forall. intros x Hx. apply H.
    eapply in_skipn, in_firstn, Hx.
  - apply H, nth_In. rewrite length_padded. lia.
Qed.

Lemma window_eqb_eq w w' : window_eqb w w' = true <-> w = w'.
Proof.
  unfold window_eqb. rewrite andb_true_iff, !any_eqb_eq.
  destruct w, w'; simpl. split; [intros [[= ->] ->] | intros [= -> ->]]; auto.
Qed.

Lemma keyed_occurrences_exact st f ws :
  representable_window (st, f) = true ->
  forallb representable_window ws = true ->
  keyed_occurrences (createStateKey (VArr st)) (followKey f) ws =
  occurrences (st, f) ws.
Proof.
  intros Hw Hws. unfold keyed_occurrences, occurrences. do 2 f_equal.
  apply filter_ext_in. intros [st' f'] Hin.
  rewrite forallb_forall in Hws. specialize (Hws _ Hin).
  unfold representable_window in *. cbn [fst snd] in *.
  apply andb_prop in Hw as [Hst Hf]. apply andb_prop in Hws as [Hst' Hf'].
  destruct (window_eqb (st, f) (st', f')) eqn:Ew.
  - apply window_eqb_eq in Ew. injection Ew as <- <-.
    now rewrite !String.eqb_refl.
  - apply andb_false_iff.
    destruct (String.eqb_spec (createStateKey (VArr st')) (createStateKey (VArr st)))
      as [E|E]; [|now left]. right.
    destruct (String.eqb_spec (followKey f') (followKey f)) as [E'|E'];
      [|reflexivity].
    apply createStateKey_injective in E as ->; [|assumption..].
    apply followKey_injective in E' as ->; [|assumption..].
    assert (window_eqb (st, f) (st, f) = true) by now apply window_eqb_eq.
    congruence.
Qed.

(** ** toJSON and fromJSON *)

Lemma forM_ext_in {A S : Type} (f g : S -> A -> outcome S) (l : list A) :
  (forall s a, In a l -> f s a = g s a) ->
  forall s, forM f s l = forM g s l.
Proof.
  induction l as [|a l IH]; intros H s; [reflexivity|]. simpl.
  rewrite H by now left. destruct (g s a); simpl; try reflexivity.
  apply IH. intros s' a' Hin. apply H. now right.
Qed.

(** Assigning properties in property order appends them. *)
Lemma forM_assign_in_order {X A : Type} (key : X -> string) (val : X -> A)
    (l : list X) : forall acc : object A,
  key_order_ok (keys acc ++ map key l) = true ->
  forallb (fun k => negb (String.eqb k "__proto__")) (map key l) = true ->
  forM (fun acc x => obj_assign (key x) (val x) acc) acc l =
  Returns (acc ++ map (fun x => (key x, val x)) l).
Proof.
  induction l as [|x l IH]; intros acc Hord Hproto; simpl.
  - now rewrite List.app_nil_r.
  - simpl in Hproto. apply andb_prop in Hproto as [Hx Hproto].
    unfold obj_assign at 1. apply negb_true_iff in Hx. rewrite Hx. simpl.
    cbn [map] in Hord.
    replace (keys acc ++ key x :: map key l)
      with ((keys acc ++ [key x]) ++ map key l) in Hord
      by now rewrite <- List.app_assoc.
    destruct (key_order_ok_app _ _ Hord) as (Hsnoc & _ & _).
    destruct (key_order_ok_snoc _ _ Hsnoc) as [_ Hall].
    rewrite obj_set_snoc by exact Hall.
    rewrite IH.
    + now rewrite <- List.app_assoc.
    + unfold keys in *. now rewrite map_app.
    + assumption.
Qed.

Lemma forM_snoc_map {X Y : Type} (g : X -> Y)
    (body : list Y -> X -> outcome (list Y)) (l : list X) :
  (forall s x, In x l -> body s x = Returns (s ++ [g x])) ->
  forall s, forM body s l = Returns (s ++ map g l).
Proof.
  induction l as [|x l IH]; intros H s; simpl.
  - now rewrite List.app_nil_r.
  - rewrite H by now left. simpl. rewrite IH.
    + now rewrite <- List.app_assoc.
    + intros s' x' Hin. apply H. now right.
Qed.

Lemma traverse_map {A B C : Type} (f : B -> option C) (g : A -> B) (h : A -> C)
    (l : list (string * A)) :
  (forall kv, In kv l -> f (g (snd kv)) = Some (h (snd kv))) ->
  traverse f (map (fun kv => (fst kv, g (snd kv))) l) =
  Some (map (fun kv => (fst kv, h (snd kv))) l).
Proof.
  induction l as [|[k a] l IH]; intros H; [reflexivity|]. simpl.
  pose proof (H (k, a) (or_introl eq_refl)) as Ha. simpl in Ha.
  rewrite Ha, IH; [reflexivity|].
  intros kv Hin. apply H. now right.
Qed.

Lemma normalize_record r : normalize (any_of_record r) = kept_record r.
Proof.
  unfold any_of_record, kept_record. destruct r as [v n]. simpl.
  destruct v; reflexivity.
Qed.

Lemma record_of_kept r :
  record_of_any (kept_record r) =
  Some {| value := normalize (value r); count := count r |}.
Proof. unfold kept_record. destruct r as [v n]. simpl. destruct v; reflexivity. Qed.

Lemma object_assign_kept r :
  object_assign (kept_record r) =
  Returns match kept_record r with VObj props => props | _ => [] end.
Proof. unfold kept_record. destruct r as [v n]. simpl. destruct v; reflexivity. Qed.

Lemma normalize_toJSON c :
  normalize (Chain.toJSON c) =
  VObj [("stateSize", VNum (Int (Chain.stateSize c)));
        ("model", VArr (map kept_entry (Chain.model c)))].
Proof.
  unfold Chain.toJSON. cbn [normalize flat_map fst snd app].
  do 5 f_equal. rewrite map_map. apply map_ext. intros [state follows].
  cbn [normalize map]. unfold kept_entry. cbn [fst snd].
  do 4 f_equal. rewrite map_map. apply map_ext. intros [follow r].
  cbn [normalize map fst snd]. rewrite normalize_record.
  unfold kept_record. destruct (value r); reflexivity.
Qed.

Lemma forM_map {A B S : Type} (body : S -> B -> outcome S) (g : A -> B)
    (l : list A) : forall s,
  forM body s (map g l) = forM (fun s x => body s (g x)) s l.
Proof.
  induction l as [|a l IH]; intros s; [reflexivity|]. simpl.
  destruct (body s (g a)); simpl; auto.
Qed.

Lemma kept_record_object r : exists props, kept_record r = VObj props /\
  object_assign (kept_record r) = Returns props.
Proof.
  unfold kept_record. destruct (value r); eexists; split; reflexivity.
Qed.

Lemma proper_keys_spec {A : Type} (o : object A) :
  proper_keys o = true ->
  key_order_ok (map fst o) = true /\
  forallb (fun k => negb (String.eqb k "__proto__")) (map fst o) = true.
Proof. unfold proper_keys, keys. now rewrite andb_true_iff. Qed.

Lemma model_of_kept (m : Model) :
  model_of_any
    (VObj (map (fun st : string * FollowMap =>
                  (fst st, VObj (kept_follows (snd st)))) m)) =
  Some (normalize_model m).
Proof.
  unfold model_of_any, normalize_model.
  apply (traverse_map follow_map_of_any
           (fun fm : FollowMap => VObj (kept_follows fm))
           (fun fm : FollowMap =>
              map (fun fe : string * FollowData =>
                     (fst fe, {| value := normalize (value (snd fe));
                                 count := count (snd fe) |})) fm)).
  intros [k fm] _. cbn [snd follow_map_of_any]. unfold kept_follows.
  apply (traverse_map record_of_any kept_record
           (fun r => {| value := normalize (value r); count := count r |})).
  intros [k' r] _. apply record_of_kept.
Qed.

Lemma hydrate_kept c :
  wf_chain well_formed c = true ->
  Chain.hydrate
    (VObj [("stateSize", VNum (Int (Chain.stateSize c)));
           ("model", VArr (map kept_entry (Chain.model c)))]) =
  Returns (normalize_chain c).
Proof.
  unfold wf_chain, wf_model. rewrite !andb_true_iff.
  intros [[Hsize Hsafe] [Hkeys Hfollows]].
  apply Z.leb_le in Hsize. apply proper_keys_spec in Hkeys as [Hord Hproto].
  rewrite forallb_forall in Hfollows.
  unfold Chain.hydrate.
  cbn [get_field obj_get String.eqb Ascii.eqb Bool.eqb bind elements].
  rewrite forM_map.
  rewrite (forM_snoc_map
             (fun st : string * FollowMap => (VStr (fst st), kept_follows (snd st)))).
  2:{ intros states [state follows] Hin. specialize (Hfollows _ Hin).
      cbn [kept_entry destructure2 nth bind fst snd elements].
      apply andb_prop in Hfollows as [Hpk _].
      apply proper_keys_spec in Hpk as [Hord' Hproto'].
      rewrite forM_map.
      rewrite (forM_ext_in _
                 (fun acc (fe : string * FollowData) =>
                    obj_assign (fst fe) (kept_record (snd fe)) acc)).
      2:{ intros acc [follow r] _. cbn [destructure2 nth bind fst snd].
          destruct (kept_record_object r) as (props & -> & ->).
          reflexivity. }
      rewrite (forM_assign_in_order fst (fun fe => kept_record (snd fe)))
        by assumption.
      reflexivity. }
  cbn [bind app]. rewrite forM_map.
  rewrite (forM_ext_in _
             (fun acc (st : string * FollowMap) =>
                obj_assign (fst st) (VObj (kept_follows (snd st))) acc)).
  2:{ intros acc [state follows] _. reflexivity. }
  rewrite (forM_assign_in_order fst (fun st => VObj (kept_follows (snd st))))
    by assumption.
  cbn [bind app]. unfold Chain.constructor.
  assert (Ht : truthy (VNum (Int (Chain.stateSize c))) = true).
  { simpl. destruct (Z.eqb_spec (Chain.stateSize c) 0); [lia | reflexivity]. }
  rewrite Ht. cbn [bind]. rewrite model_of_kept. reflexivity.
Qed.

Lemma well_formed_toJSON c :
  wf_chain well_formed c = true -> well_formed (Chain.toJSON c) = true.
Proof.
  unfold wf_chain, wf_model. rewrite !andb_true_iff.
  intros [[Hsize Hsafe] [Hkeys Hfollows]]. rewrite forallb_forall in Hfollows.
  unfold Chain.toJSON.
  change (well_formed (VObj ?p)) with
    (key_order_ok (map fst p) && forallb (fun kv => well_formed (snd kv)) p).
  apply andb_true_intro. split; [reflexivity|].
  cbn [forallb snd]. change (well_formed (VNum (Int ?z))) with (safe_integer z).
  rewrite Hsafe, andb_true_r. cbn [andb].
  change (well_formed (VArr ?l)) with (forallb well_formed l).
  apply forallb_forall. intros e He.
  apply in_map_iff in He as ([state follows] & <- & Hin).
  specialize (Hfollows _ Hin). cbn [snd] in Hfollows.
  apply andb_prop in Hfollows as [_ Hrecs]. rewrite forallb_forall in Hrecs.
  change (well_formed (VArr ?l)) with (forallb well_formed l).
  cbn [forallb]. change (well_formed (VStr state)) with true.
  rewrite andb_true_r. cbn [andb].
  change (well_formed (VArr ?l)) with (forallb well_formed l).
  apply forallb_forall. intros e He.
  apply in_map_iff in He as ([follow r] & <- & Hr).
  specialize (Hrecs _ Hr). cbn [snd] in Hrecs.
  apply andb_prop in Hrecs as [Hv Hc].
  change (well_formed (VArr ?l)) with (forallb well_formed l).
  cbn [forallb]. change (well_formed (VStr follow)) with true.
  rewrite andb_true_r. cbn [andb]. unfold any_of_record.
  change (well_formed (VObj ?p)) with
    (key_order_ok (map fst p) && forallb (fun kv => well_formed (snd kv)) p).
  apply andb_true_intro. split; [reflexivity|].
  cbn [forallb snd]. change (well_formed (VNum (Int ?z))) with (safe_integer z).
  now rewrite Hv, Hc.
Qed.

(** Reading back a serialised chain gives the chain, with every value
    as JSON keeps it. *)
Lemma fromJSON_stringify c :
  wf_chain well_formed c = true ->
  Chain.fromJSON (Chain.stringify c) = Returns (normalize_chain c).
Proof.
  intros Hwf. unfold Chain.fromJSON, Chain.stringify.
  destruct (parse_stringify (Chain.toJSON c)) as (s & -> & Hparse).
  - now apply well_formed_toJSON.
  - discriminate.
  - cbn [JSON.property_key]. rewrite Hparse. cbn [bind].
    rewrite normalize_toJSON. now apply hydrate_kept.
Qed.

Lemma wf_model_weaken (ok ok' : any -> bool) m :
  (forall v, ok v = true -> ok' v = true) ->
  wf_model ok m = true -> wf_model ok' m = true.
Proof.
  intros Hok. unfold wf_model. rewrite !andb_true_iff. intros [Hk Hf].
  split; [assumption|]. rewrite forallb_forall in *. intros st Hin.
  specialize (Hf _ Hin). rewrite andb_true_iff in *. destruct Hf as [Hpk Hr].
  split; [assumption|]. rewrite forallb_forall in *. intros fe Hfe.
  specialize (Hr _ Hfe). rewrite andb_true_iff in *. destruct Hr. auto.
Qed.

Lemma normalize_model_id (ok : any -> bool) m :
  (forall v, ok v = true -> normalize v = v) ->
  wf_model ok m = true -> normalize_model m = m.
Proof.
  intros Hok. unfold wf_model, normalize_model. rewrite andb_true_iff.
  intros [_ Hf]. rewrite forallb_forall in Hf.
  rewrite <- (map_id m) at 2. apply map_ext_in. intros [state follows] Hin.
  specialize (Hf _ Hin). cbn beta. cbn [fst snd] in *.
  apply andb_prop in Hf as [_ Hr]. rewrite forallb_forall in Hr.
  apply (f_equal (pair state)).
  rewrite <- (map_id follows) at 2. apply map_ext_in.
  intros [follow [v n]] Hfe. specialize (Hr _ Hfe). cbn beta.
  cbn [fst snd value count] in *.
  apply andb_prop in Hr as [Hv _]. now rewrite (Hok v Hv).
Qed.

Lemma wf_normalize_model m :
  wf_model well_formed m = true -> wf_model well_formed (normalize_model m) = true.
Proof.
  unfold wf_model, normalize_model. rewrite !andb_true_iff. intros [Hk Hf].
  split.
  - unfold proper_keys, keys in *. now rewrite map_map.
  - rewrite forallb_forall in *. intros st' Hin.
    apply in_map_iff in Hin as ([state follows] & <- & Hin).
    specialize (Hf _ Hin). cbn [fst snd] in *. rewrite andb_true_iff in *.
    destruct Hf as [Hpk Hr]. split.
    + unfold proper_keys, keys in *. now rewrite map_map.
    + rewrite forallb_forall in *. intros fe' Hfe.
      apply in_map_iff in Hfe as ([follow [v n]] & <- & Hfe).
      specialize (Hr _ Hfe). cbn [fst snd value count] in *.
      rewrite andb_true_iff in *. destruct Hr as [Hv Hn]. split; [|assumption].
      destruct v; try reflexivity;
        apply representable_well_formed, representable_normalize;
        (assumption || discriminate).
Qed.

Lemma normalize_idempotent v :
  well_formed v = true -> normalize (normalize v) = normalize v.
Proof.
  intros Hwf. destruct v; try reflexivity;
    apply normalize_representable, representable_normalize;
    (assumption || discriminate).
Qed.

Lemma normalize_model_idempotent m :
  wf_model well_formed m = true ->
  normalize_model (normalize_model m) = normalize_model m.
Proof.
  unfold wf_model, normalize_model. rewrite andb_true_iff. intros [_ Hf].
  rewrite forallb_forall in Hf. rewrite map_map. apply map_ext_in.
  intros [state follows] Hin. specialize (Hf _ Hin). cbn [fst snd] in *.
  apply andb_prop in Hf as [_ Hr]. rewrite forallb_forall in Hr.
  apply (f_equal (pair state)). rewrite map_map. apply map_ext_in.
  intros [follow [v n]] Hfe. specialize (Hr _ Hfe). cbn [fst snd value count] in *.
  apply andb_prop in Hr as [Hv _]. now rewrite normalize_idempotent.
Qed.

(** ** Failures of build *)

Lemma build_runs (stateSize : Z) (runs : list any) : forall acc : Model,
  let body := fun (model : Model) (run : any) =>
    match run with
    | VArr symbols =>
        let paddedRun :=
          createBeginState (or_default stateSize) ++ symbols ++ [VStr END] in
        Returns (fold_left (Chain.observe stateSize paddedRun)
                   (seq 0 (List.length symbols + 1)) model)
    | _ => Throws InvalidRun
    end in
  if forallb isArray runs
  then exists m, forM body acc runs = Returns m
  else forM body acc runs = Throws InvalidRun.
Proof.
  induction runs as [|run runs IH]; intros acc body; simpl.
  - now exists acc.
  - destruct run as [ | |b|n|s|symbols|props]; simpl; try reflexivity.
    apply IH.
Qed.

Lemma build_outcome (corpus : any) (stateSize : Z) :
  match corpus with
  | VArr runs =>
      if forallb isArray runs
      then exists m, Chain.build corpus stateSize = Returns m
      else Chain.build corpus stateSize = Throws InvalidRun
  | _ => Chain.build corpus stateSize = Throws InvalidCorpus
  end.
Proof.
  destruct corpus as [ | |b|n|s|runs|props]; try reflexivity.
  exact (build_runs stateSize runs []).
Qed.

(** C6.  [build] throws the corpus error exactly when the corpus is not
    an array and, on an array, the run error exactly when one of its
    elements is not an array; it throws nothing else, whatever the
    symbols are, it is never outside the model, and it returns a table
    exactly on an array of arrays.  A call that throws yields no table:
    the outcome is the exception alone. *)
Theorem build_failures (corpus : any) (stateSize : Z) :
  (Chain.build corpus stateSize = Throws InvalidCorpus <-> isArray corpus = false) /\
  (forall runs, corpus = VArr runs ->
     (Chain.build corpus stateSize = Throws InvalidRun <->
      forallb isArray runs = false)) /\
  (forall e, Chain.build corpus stateSize = Throws e ->
     e = InvalidCorpus \/ e = InvalidRun) /\
  Chain.build corpus stateSize <> Unmodelled /\
  ((exists m, Chain.build corpus stateSize = Returns m) <->
   exists runs, corpus = VArr runs /\ forallb isArray runs = true).
Proof.
  pose proof (build_outcome corpus stateSize) as H.
  destruct corpus as [ | |b|n|s|runs|props];
    try (rewrite H; split; [|split; [|split; [|split]]];
         [ split; auto
         | intros runs E; discriminate E
         | intros e [= <-]; now left
         | discriminate
         | split; [intros [m Hm]; discriminate Hm
                  | intros (runs & E & _); discriminate E] ]).
  destruct (forallb isArray runs) eqn:Hruns.
  - destruct H as [m ->]. split; [|split; [|split; [|split]]].
    + split; discriminate.
    + intros runs' [= <-]. split; [discriminate | congruence].
    + discriminate.
    + discriminate.
    + split; eauto.
  - rewrite H. split; [|split; [|split; [|split]]].
    + split; discriminate.
    + intros runs' [= <-]. split; auto.
    + intros e [= <-]. now right.
    + discriminate.
    + split; [intros [m Hm]; discriminate|].
      intros (runs' & [= <-] & Hr). congruence.
Qed.

(** ** The constructor and a falsy state size *)

(** C10.  A state size of [0] is replaced by the default: the
    constructor gives with [{ stateSize: 0 }] what it gives without the
    option, whatever its first argument; a chain it returns has state
    size [1]; and it returns one on every array of arrays and on every
    model. *)
Theorem constructor_falsy_stateSize (x : any) :
  Chain.constructor x (VNum (Int 0)) = Chain.constructor x VUndefined /\
  (forall c, Chain.constructor x (VNum (Int 0)) = Returns c ->
     Chain.stateSize c = DEFAULT_STATE_SIZE /\ DEFAULT_STATE_SIZE = 1) /\
  (forall runs, x = VArr runs -> forallb isArray runs = true ->
     exists c, Chain.constructor x (VNum (Int 0)) = Returns c) /\
  (forall m, isArray x = false -> model_of_any x = Some m ->
     Chain.constructor x (VNum (Int 0)) =
     Returns {| Chain.model := m; Chain.stateSize := 1 |}).
Proof.
  split; [reflexivity|]. split; [|split].
  - intros c. unfold Chain.constructor. cbn [truthy Z.eqb negb bind].
    destruct x as [ | |b|n|s|runs|props]; cbn [bind];
      match goal with
      | |- context [Chain.build ?a ?b] => destruct (Chain.build a b)
      | |- context [model_of_any ?a] => destruct (model_of_any a)
      end; cbn [bind]; try discriminate; intros [= <-]; now split.
  - intros runs -> Hruns. unfold Chain.constructor. cbn [truthy Z.eqb negb bind].
    pose proof (build_outcome (VArr runs) DEFAULT_STATE_SIZE) as H.
    cbv beta iota in H. rewrite Hruns in H. destruct H as [m ->]. simpl. eauto.
  - intros m Harr Hm. unfold Chain.constructor. cbn [truthy Z.eqb negb bind].
    destruct x; try discriminate. now rewrite Hm.
Qed.

(** ** move *)

Lemma fold_left_add_sum l : forall a, fold_left Z.add l a = a + sum l.
Proof.
  induction l as [|w l IH]; intros a; simpl; [lia|]. rewrite IH. lia.
Qed.

Lemma first_above_spec (r : Q) (ws : list Z) : forall (acc : Z) (k : nat),
  let i := Chain.first_above r (Chain.running_sums acc ws) k in
  (k <= i <= k + List.length ws)%nat /\
  (forall j, (k <= j < i)%nat ->
     (inject_Z (acc + sum (firstn (S (j - k)) ws)) <= r)%Q) /\
  ((i < k + List.length ws)%nat ->
     (r < inject_Z (acc + sum (firstn (S (i - k)) ws)))%Q).
Proof.
  induction ws as [|w ws IH]; intros acc k; simpl.
  - split; [lia|]. split; intros; lia.
  - destruct (Qle_bool (inject_Z (acc + w)) r) eqn:E.
    + specialize (IH (acc + w) (S k)). cbv zeta in IH.
      destruct IH as (Hb & Hle & Hlt). split; [lia|]. split.
      * intros j Hj. destruct (Nat.eq_dec j k) as [->|Hne].
        -- rewrite Nat.sub_diag. simpl. apply Qle_bool_iff in E.
           now replace (acc + (w + 0)) with (acc + w) by lia.
        -- specialize (Hle j ltac:(lia)).
           replace (j - k)%nat with (S (j - S k)) by lia.
           cbn [firstn sum fold_right] in *.
           now rewrite Z.add_assoc.
      * intros Hi. specialize (Hlt ltac:(lia)).
        replace (Chain.first_above r (Chain.running_sums (acc + w) ws) (S k) - k)%nat
          with (S (Chain.first_above r (Chain.running_sums (acc + w) ws) (S k) - S k))
          by lia.
        cbn [firstn sum fold_right] in *. now rewrite Z.add_assoc.
    + split; [lia|]. split; [intros; lia|]. intros _.
      rewrite Nat.sub_diag. simpl.
      replace (acc + (w + 0)) with (acc + w) by lia.
      apply Qnot_le_lt. intros H. apply Qle_bool_iff in H. congruence.
Qed.

Lemma randomIndex_spec (state : FollowMap) (random : Q) :
  let r := (random * inject_Z (totalCount state))%Q in
  let i := Chain.randomIndex (weights state) random in
  (i <= List.length state)%nat /\
  (forall j, (j < i)%nat -> (inject_Z (before state (S j)) <= r)%Q) /\
  ((i < List.length state)%nat -> (r < inject_Z (before state (S i)))%Q).
Proof.
  unfold Chain.randomIndex. rewrite fold_left_add_sum. simpl Z.add.
  fold (totalCount state).
  pose proof (first_above_spec (random * inject_Z (totalCount state))%Q
                (weights state) 0 0) as H.
  cbv zeta in *. destruct H as (Hb & Hle & Hlt).
  assert (Hlen : List.length (weights state) = List.length state)
    by (unfold weights; apply length_map).
  rewrite Hlen in *. split; [lia|]. split.
  - intros j Hj. specialize (Hle j ltac:(lia)).
    now rewrite Nat.sub_0_r in Hle.
  - intros Hi. specialize (Hlt ltac:(lia)). now rewrite Nat.sub_0_r in Hlt.
Qed.

Lemma before_full state n :
  (List.length state <= n)%nat -> before state n = totalCount state.
Proof.
  intros H. unfold before, totalCount. rewrite firstn_all2; [reflexivity|].
  unfold weights. now rewrite length_map.
Qed.

Lemma sum_firstn_S ws : forall j w,
  nth_error ws j = Some w -> sum (firstn (S j) ws) = sum (firstn j ws) + w.
Proof.
  induction ws as [|w0 ws IH]; intros [|j] w H; try discriminate.
  - injection H as ->. cbn. lia.
  - cbn [nth_error] in H. specialize (IH j w H).
    change (sum (firstn (S (S j)) (w0 :: ws))) with (w0 + sum (firstn (S j) ws)).
    change (sum (firstn (S j) (w0 :: ws))) with (w0 + sum (firstn j ws)).
    lia.
Qed.

Lemma before_S state j k r :
  nth_error state j = Some (k, r) ->
  before state (S j) = before state j + count r.
Proof.
  intros H. unfold before. apply sum_firstn_S.
  unfold weights. now rewrite nth_error_map, H.
Qed.

Lemma sum_firstn_monotone ws :
  Forall (fun w => 0 <= w) ws ->
  forall i j, (i <= j)%nat -> sum (firstn i ws) <= sum (firstn j ws).
Proof.
  intros Hpos. induction Hpos as [|w ws Hw _ IH]; intros i j Hij.
  - rewrite !firstn_nil. lia.
  - destruct i as [|i], j as [|j]; try lia.
    + specialize (IH 0%nat j ltac:(lia)).
      change (sum (firstn (S j) (w :: ws))) with (w + sum (firstn j ws)).
      change (sum (firstn 0 (w :: ws))) with 0.
      change (sum (firstn 0 ws)) with 0 in IH. lia.
    + specialize (IH i j ltac:(lia)).
      change (sum (firstn (S j) (w :: ws))) with (w + sum (firstn j ws)).
      change (sum (firstn (S i) (w :: ws))) with (w + sum (firstn i ws)).
      lia.
Qed.

Lemma before_monotone state :
  (forall kv, In kv state -> 0 <= count (snd kv)) ->
  forall i j, (i <= j)%nat -> before state i <= before state j.
Proof.
  intros Hpos i j Hij. unfold before. apply sum_firstn_monotone; [|assumption].
  unfold weights. rewrite Forall_map, Forall_forall. exact Hpos.
Qed.

(** C3.  [move] returns [undefined] when the model has no entry under
    the key of the state.  Otherwise, with [r] the draw scaled by the
    total count, it returns the value at the first index whose cumulative
    count exceeds [r]; for [r] in [0, totalCount) this is the value of an
    entry of the follow set; and, the counts being non-negative, the
    draws that select the entry [j] are those of the interval
    [before j <= r < before j + count j], of length [count j] out of
    [totalCount]. *)
Theorem move_weighted (this : Chain.t) (fromState : any) :
  (obj_get (createStateKey fromState) (Chain.model this) = None ->
   forall random, Chain.move this fromState random = VUndefined) /\
  (forall state,
      obj_get (createStateKey fromState) (Chain.model this) = Some state ->
      forall random : Q,
        let r := (random * inject_Z (totalCount state))%Q in
        let i := Chain.randomIndex (weights state) random in
        Chain.move this fromState random =
          nth i (map (fun kv => value (snd kv)) state) VUndefined /\
        (forall j, (j < i)%nat -> (inject_Z (before state (S j)) <= r)%Q) /\
        ((i < List.length state)%nat -> (r < inject_Z (before state (S i)))%Q) /\
        ((0 <= r)%Q /\ (r < inject_Z (totalCount state))%Q ->
         exists k rec,
           nth_error state i = Some (k, rec) /\
           Chain.move this fromState random = value rec) /\
        ((forall kv, In kv state -> 0 <= count (snd kv)) ->
         (0 <= r)%Q /\ (r < inject_Z (totalCount state))%Q ->
         forall j k rec,
           nth_error state j = Some (k, rec) ->
           (i = j <->
            (inject_Z (before state j) <= r)%Q /\
            (r < inject_Z (before state j + count rec))%Q))).
Proof.
  split.
  - intros H random. unfold Chain.move. now rewrite H.
  - intros state Hstate random r i.
    assert (Hmove : Chain.move this fromState random =
                    nth i (map (fun kv => value (snd kv)) state) VUndefined).
    { unfold Chain.move. now rewrite Hstate. }
    destruct (randomIndex_spec state random) as (Hb & Hle & Hlt).
    fold r i in Hb, Hle, Hlt. clearbody r i.
    assert (Hin : (0 <= r)%Q /\ (r < inject_Z (totalCount state))%Q ->
                  (i < List.length state)%nat).
    { intros [H0 H1]. destruct (Nat.lt_ge_cases i (List.length state)) as [|Hge];
        [assumption|]. exfalso.
      destruct (List.length state) as [|n] eqn:El.
      - destruct state; [|discriminate]. unfold totalCount in H1. simpl in H1.
        change (inject_Z 0) with 0%Q in H1. lra.
      - specialize (Hle n ltac:(lia)).
        rewrite before_full in Hle by lia. lra. }
    split; [exact Hmove|]. split; [exact Hle|]. split; [exact Hlt|]. split.
    + intros Hr. specialize (Hin Hr).
      destruct (nth_error state i) as [[k rec]|] eqn:En.
      * exists k, rec. split; [reflexivity|]. rewrite Hmove.
        erewrite nth_error_nth; [reflexivity|].
        rewrite nth_error_map, En. reflexivity.
      * apply nth_error_None in En. lia.
    + intros Hpos Hr j k rec Hj. specialize (Hin Hr).
      pose proof (before_S state j k rec Hj) as HS.
      assert (Hjlt : (j < List.length state)%nat)
        by (apply nth_error_Some; congruence).
      split.
      * intros <-. rewrite <- HS. split; [|now apply Hlt].
        destruct i as [|i']; [unfold before; simpl; tauto|].
        apply Hle. lia.
      * intros [Hlo Hhi]. rewrite <- HS in Hhi.
        destruct (Nat.lt_trichotomy i j) as [Hlt'|[->|Hgt]]; [|reflexivity|].
        -- exfalso. specialize (Hlt Hin).
           pose proof (before_monotone state Hpos (S i) j ltac:(lia)) as Hm.
           rewrite Zle_Qle in Hm. lra.
        -- exfalso. specialize (Hle j Hgt). lra.
Qed.

Lemma move_weighted_witness :
  exists k rec,
    nth_error [once (VStr "bar") 1; once (VStr "baz") 1]
      (Chain.randomIndex (weights [once (VStr "bar") 1; once (VStr "baz") 1])
         (1 # 2)) = Some (k, rec) /\
    Chain.move example_chain (VStr "foo") (1 # 2) = value rec.
Proof.
  refine (proj1 (proj2 (proj2 (proj2
            (proj2 (move_weighted example_chain (VStr "foo"))
               [once (VStr "bar") 1; once (VStr "baz") 1] eq_refl (1 # 2)))))
            _).
  split; [unfold Qle | unfold Qlt]; simpl; lia.
Defined.

(** ** The values a table holds *)

Section Membership.
Context {A : Type}.
Implicit Types (o : object A) (k : string) (a : A).

Lemma In_obj_modify k0 (f : A -> A) k a o :
  In (k, a) (obj_modify k0 f o) ->
  In (k, a) o \/ (k = k0 /\ exists a0, In (k0, a0) o /\ a = f a0).
Proof.
  induction o as [|[k1 a1] o IH]; simpl; [tauto|].
  destruct (String.eqb_spec k1 k0) as [->|Hne]; simpl.
  - intros [[= <- <-]|H]; [right; eauto | tauto].
  - intros [H|H]; [tauto|]. destruct (IH H) as [?|(-> & a0 & ? & ->)]; eauto 6.
Qed.

Lemma In_obj_insert_index n k a o x :
  In x (obj_insert_index n k a o) -> x = (k, a) \/ In x o.
Proof.
  induction o as [|[k1 a1] o IH]; simpl; [intuition|].
  destruct (array_index k1) as [n1|]; [destruct (n <? n1)%N|]; simpl;
    intuition.
Qed.

Lemma In_obj_set k a o x : In x (obj_set k a o) -> x = (k, a) \/ In x o.
Proof.
  unfold obj_set. destruct (obj_has k o).
  - destruct x as [k' a']. intros H.
    apply In_obj_modify in H as [H|(-> & a0 & _ & ->)]; auto.
  - destruct (array_index k) as [n|].
    + apply In_obj_insert_index.
    + rewrite in_app_iff. simpl. intuition.
Qed.
End Membership.

Lemma values_satisfy_modify (P : any -> Prop) (g : FollowMap -> FollowMap) sk m :
  (forall state, records_satisfy P state -> records_satisfy P (g state)) ->
  values_satisfy P m -> values_satisfy P (obj_modify sk g m).
Proof.
  intros Hg Hm stateKey state Hin.
  apply In_obj_modify in Hin as [Hin|(-> & st0 & Hin & ->)]; eauto.
Qed.

Lemma values_satisfy_record (P : any -> Prop) m sk f :
  P f -> values_satisfy P m -> values_satisfy P (Chain.record m sk f).
Proof.
  intros Hf Hm. unfold Chain.record.
  apply values_satisfy_modify.
  { intros state Hs key r Hin.
    apply In_obj_modify in Hin as [Hin|(-> & r0 & Hin & ->)];
      [eauto | exact (Hs _ _ Hin)]. }
  apply values_satisfy_modify.
  { intros state Hs. destruct (obj_has _ state); [assumption|].
    intros key r Hin. apply In_obj_set in Hin as [[= -> ->]|Hin];
      [exact Hf | eauto]. }
  destruct (obj_has sk m); [assumption|].
  intros stateKey state Hin. apply In_obj_set in Hin as [[= -> ->]|Hin];
    [intros key r [] | eauto].
Qed.

Lemma values_satisfy_tally (P : any -> Prop) ws : forall m,
  Forall (fun w => P (snd w)) ws ->
  values_satisfy P m -> values_satisfy P (tally ws m).
Proof.
  induction ws as [|w ws IH]; intros m Hws Hm; [assumption|].
  inversion Hws; subst. simpl. apply IH; [assumption|].
  now apply values_satisfy_record.
Qed.

Lemma windows_follow n runs :
  Forall (fun w => symbol_or_END runs (snd w)) (corpus_windows n runs).
Proof.
  apply Forall_forall. intros w Hw.
  apply in_flat_map in Hw as (run & Hrun & Hw).
  apply in_map_iff in Hw as (i & <- & Hi). apply in_seq in Hi. simpl.
  unfold padded. rewrite app_nth2; rewrite repeat_length; [|lia].
  replace (i + n - n)%nat with i by lia.
  destruct (Nat.eq_dec i (List.length run)) as [->|Hne].
  - left. rewrite app_nth2, Nat.sub_diag; [reflexivity | lia].
  - right. exists run. split; [assumption|].
    rewrite app_nth1 by lia. apply nth_In. lia.
Qed.

Lemma build_values runs n m :
  1 <= n -> Chain.build (VArr (map VArr runs)) n = Returns m ->
  values_satisfy (symbol_or_END runs) m.
Proof.
  intros Hn. rewrite build_tally by assumption. intros [= <-].
  apply values_satisfy_tally; [apply windows_follow|].
  intros stateKey state [].
Qed.

Lemma move_value c fromState random :
  Chain.move c fromState random = VUndefined \/
  exists stateKey state key r,
    In (stateKey, state) (Chain.model c) /\ In (key, r) state /\
    value r = Chain.move c fromState random.
Proof.
  unfold Chain.move.
  destruct (obj_get _ (Chain.model c)) as [state|] eqn:Es; [|now left].
  apply obj_get_In in Es.
  destruct (nth_in_or_default
              (Chain.randomIndex (map (fun kv => count (snd kv)) state) random)
              (map (fun kv : string * FollowData => value (snd kv)) state)
              VUndefined) as [Hin| ->]; [|now left].
  right. apply in_map_iff in Hin as ([key r] & Hv & Hin). eauto 8.
Qed.

(** ** Failures of fromJSON *)

Lemma no_throw_bind {A B : Type} (m : outcome A) (k : A -> outcome B) :
  no_throw m -> (forall a, m = Returns a -> no_throw (k a)) ->
  no_throw (bind m k).
Proof.
  intros Hm Hk e. destruct m as [a|e'|]; simpl.
  - now apply Hk.
  - now destruct (Hm e').
  - discriminate.
Qed.

Lemma no_throw_forM {A S : Type} (body : S -> A -> outcome S) (l : list A) :
  (forall s a, In a l -> no_throw (body s a)) ->
  forall s, no_throw (forM body s l).
Proof.
  induction l as [|a l IH]; intros H s; simpl; [discriminate|].
  apply no_throw_bind; [apply H; now left|].
  intros s' _. apply IH. intros s'' a' Hin. apply H. now right.
Qed.

Lemma no_throw_obj_assign {A : Type} k (a : A) o : no_throw (obj_assign k a o).
Proof. unfold obj_assign. intros e. now destruct (String.eqb k _). Qed.

Lemma no_throw_to_property_key v : no_throw (to_property_key v).
Proof.
  intros e. destruct v as [ | |[|]|[z| |[|]]|s|l|props]; simpl; try discriminate.
  now destruct (safe_integer z).
Qed.

Lemma no_throw_object_assign v : no_throw (object_assign v).
Proof.
  destruct v; simpl; try discriminate.
  apply no_throw_forM. intros s a _. apply no_throw_obj_assign.
Qed.

Lemma no_throw_constructor_object props stateSize :
  no_throw (Chain.constructor (VObj props) stateSize).
Proof.
  unfold Chain.constructor. apply no_throw_bind.
  - destruct (truthy stateSize); [|discriminate].
    destruct stateSize as [ | |?|[z| |?]|?|?|?]; discriminate.
  - intros size _ e. now destruct (model_of_any _).
Qed.

Lemma hydrate_well_shaped v :
  well_shaped v = true -> plain_keyed v = true -> no_throw (Chain.hydrate v).
Proof.
  intros Hshape _. revert Hshape.
  destruct v as [ | |b|n|s|l|props]; try discriminate. simpl.
  destruct (obj_get "stateSize" props) as [[ | |?|[z| |?]|?|?|?]|] eqn:Es;
    try discriminate.
  destruct (obj_get "model" props) as [[ | |?|?|?|entries|?]|] eqn:Em;
    try discriminate.
  intros Hentries. rewrite forallb_forall in Hentries.
  unfold Chain.hydrate. cbn [get_field bind]. rewrite Es, Em. cbn [elements bind].
  apply no_throw_bind.
  - apply no_throw_forM. intros states entry Hin. specialize (Hentries _ Hin).
    destruct entry as [ | |?|?|?|[|[ | |?|?|stateKey|?|?] [|[ | |?|?|?|follows|?] [|]]]|?];
      try discriminate.
    cbn [destructure2 nth bind elements]. apply no_throw_bind; [|discriminate].
    simpl in Hentries. rewrite forallb_forall in Hentries.
    apply no_throw_forM. intros followMap fe Hfe. specialize (Hentries _ Hfe).
    destruct fe as [ | |?|?|?|[|[ | |?|?|followKey|?|?] [|r [|]]]|?];
      try discriminate.
    cbn [destructure2 nth bind].
    apply no_throw_bind; [apply no_throw_object_assign|]. intros copy _.
    apply no_throw_obj_assign.
  - intros states _. apply no_throw_bind.
    + apply no_throw_forM. intros acc [key value] _.
      apply no_throw_bind; [apply no_throw_to_property_key|].
      intros k _. apply no_throw_obj_assign.
    + intros acc _. apply no_throw_constructor_object.
Qed.

(** *** Values of the expected shape *)

Lemma forM_defined {A S : Type} (body : S -> A -> outcome S) (Inv : S -> Prop)
    (l : list A) :
  (forall s a, In a l -> Inv s -> exists s', body s a = Returns s' /\ Inv s') ->
  forall s, Inv s -> exists s', forM body s l = Returns s' /\ Inv s'.
Proof.
  induction l as [|a l IH]; intros H s Hs; [now exists s|]. simpl.
  destruct (H s a (or_introl eq_refl) Hs) as (s1 & -> & Hs1). simpl.
  apply IH; [|assumption]. intros s' a' Hin. apply H. now right.
Qed.

Lemma Forall_obj_set {A : Type} (P : string * A -> Prop) k (a : A) (o : object A) :
  P (k, a) -> Forall P o -> Forall P (obj_set k a o).
Proof.
  intros Ha Ho. apply Forall_forall. intros x Hx.
  apply In_obj_set in Hx as [->|Hx]; [assumption|].
  rewrite Forall_forall in Ho. auto.
Qed.

Lemma traverse_defined {A B : Type} (f : A -> option B) (l : object A) :
  Forall (fun kv => exists b, f (snd kv) = Some b) l ->
  exists l', traverse f l = Some l'.
Proof.
  induction 1 as [|[k a] l [b Hb] _ [l' IH]]; [now exists []|].
  simpl in *. rewrite Hb, IH. eauto.
Qed.

Lemma record_typed_inv r :
  record_typed r = true ->
  (exists x n, r = VObj [("value", x); ("count", VNum (Int n))]) \/
  (exists n, r = VObj [("count", VNum (Int n))]).
Proof.
  destruct r as [ | |?|?|?|?|props]; try discriminate.
  destruct props as [|[k1 v1] [|[k2 v2] [|]]]; try discriminate; simpl.
  - destruct v1 as [ | |?|[n| |?]|?|?|?]; try discriminate.
    intros H. apply String.eqb_eq in H as ->. right. eauto.
  - destruct v1 as [ | |?|[?| |?]|?|?|?];
      destruct v2 as [ | |?|[m| |?]|?|?|?]; try discriminate;
      intros H; apply andb_prop in H as [H1 H2];
      apply String.eqb_eq in H1 as ->; apply String.eqb_eq in H2 as ->;
      left; eauto.
  - destruct v1 as [ | |?|[?| |?]|?|?|?];
      destruct v2 as [ | |?|[?| |?]|?|?|?]; discriminate.
Qed.

Lemma object_assign_typed r :
  record_typed r = true ->
  exists copy rec, object_assign r = Returns copy /\ record_of_any (VObj copy) = Some rec.
Proof.
  intros H. apply record_typed_inv in H as [(x & n & ->)|(n & ->)];
    eexists _, _; split; reflexivity.
Qed.

Lemma follow_map_defined followMap :
  holds_records followMap -> exists fm, follow_map_of_any (VObj followMap) = Some fm.
Proof. intros H. simpl. now apply traverse_defined. Qed.

Lemma model_defined acc :
  holds_follow_maps acc -> exists m, model_of_any (VObj acc) = Some m.
Proof.
  intros H. simpl. apply traverse_defined.
  eapply Forall_impl; [|exact H]. intros [k x] (followMap & Hx & Hfm).
  simpl in *. subst x. now apply follow_map_defined.
Qed.

Lemma obj_assign_plain {A : Type} k (a : A) o :
  String.eqb k "__proto__" = false -> obj_assign k a o = Returns (obj_set k a o).
Proof. intros H. unfold obj_assign. now rewrite H. Qed.

Lemma hydrate_typed v :
  typed_shaped v = true -> plain_keyed v = true ->
  exists c, Chain.hydrate v = Returns c.
Proof.
  destruct v as [ | |b|n|s|l|props]; try discriminate. simpl.
  destruct (obj_get "stateSize" props) as [[ | |?|[z| |?]|?|?|?]|] eqn:Es;
    try discriminate.
  destruct (obj_get "model" props) as [[ | |?|?|?|entries|?]|] eqn:Em;
    try discriminate.
  intros Htyped Hplain. rewrite forallb_forall in Htyped, Hplain.
  unfold Chain.hydrate. cbn [get_field bind]. rewrite Es, Em. cbn [elements bind].
  pose (Inv := fun states : list (any * object any) =>
          Forall (fun st => exists k, fst st = VStr k /\
                              String.eqb k "__proto__" = false /\
                              holds_records (snd st)) states).
  destruct (forM_defined
    (fun states entry =>
       '(stateKey, follow) <- destructure2 entry ;;
       followEntries <- elements follow ;;
       followMap <-
         forM
           (fun followMap fe =>
              '(followKey, followData) <- destructure2 fe ;;
              copy <- object_assign followData ;;
              key <- to_property_key followKey ;;
              obj_assign key (VObj copy) followMap)
           [] followEntries ;;
       Returns (states ++ [(stateKey, followMap)])) Inv entries)
    with (s := @nil (any * object any)) as (states & -> & Hstates).
  { intros states entry Hin Hs.
    specialize (Htyped _ Hin). specialize (Hplain _ Hin).
    destruct entry as [ | |?|?|?|[|[ | |?|?|stateKey|?|?] [|[ | |?|?|?|follows|?] [|]]]|?];
      try discriminate.
    cbn [destructure2 nth bind elements].
    simpl in Htyped, Hplain. apply andb_prop in Hplain as [Hk Hplain].
    apply negb_true_iff in Hk.
    rewrite forallb_forall in Htyped, Hplain.
    destruct (forM_defined
      (fun followMap fe =>
         '(followKey, followData) <- destructure2 fe ;;
         copy <- object_assign followData ;;
         key <- to_property_key followKey ;;
         obj_assign key (VObj copy) followMap) holds_records follows)
      with (s := @nil (string * any)) as (followMap & -> & Hfm).
    - intros followMap fe Hfe Hfm.
      specialize (Htyped _ Hfe). specialize (Hplain _ Hfe).
      destruct fe as [ | |?|?|?|[|[ | |?|?|followKey|?|?] [|r [|]]]|?];
        try discriminate.
      cbn [destructure2 nth bind]. simpl in Htyped, Hplain.
      apply andb_prop in Hplain as [Hfk _]. apply negb_true_iff in Hfk.
      destruct (object_assign_typed r Htyped) as (copy & rec & -> & Hrec).
      cbn [bind to_property_key]. rewrite (obj_assign_plain _ _ _ Hfk).
      eexists. split; [reflexivity|].
      apply Forall_obj_set; [|exact Hfm]. now exists rec.
    - constructor.
    - cbn [bind]. eexists. split; [reflexivity|].
      apply Forall_app. split; [exact Hs|]. constructor; [|constructor].
      exists stateKey. auto. }
  { constructor. }
  cbn [bind].
  destruct (forM_defined
    (fun acc (st : any * object any) =>
       let (key, value) := st in
       k <- to_property_key key ;;
       obj_assign k (VObj value) acc) holds_follow_maps states)
    with (s := @nil (string * any)) as (acc & -> & Hacc).
  { intros acc [key value] Hin Hacc.
    unfold Inv in Hstates. rewrite Forall_forall in Hstates.
    destruct (Hstates _ Hin) as (k & Hkey & Hk & Hvalue). simpl in Hkey, Hvalue.
    subst key. cbn [bind to_property_key]. rewrite (obj_assign_plain _ _ _ Hk).
    eexists. split; [reflexivity|].
    apply Forall_obj_set; [|exact Hacc]. now exists value. }
  { constructor. }
  cbn [bind]. unfold Chain.constructor.
  destruct (model_defined acc Hacc) as [m Hm]. rewrite Hm.
  destruct (truthy (VNum (Int z))); cbn [bind]; eauto.
Qed.

(** C8, amended.  [fromJSON] fails whenever [JSON.parse] fails, with
    the same exception; when it fails on text that parses, the parsed
    value does not have the expected shape, or one of its state keys,
    follow keys or record properties is named [__proto__], the one key
    whose assignment does not define a property; on a value of the
    expected shape without such a key, its records holding [value] and
    [count] as [toJSON] writes them, it returns a chain; and a call that
    fails returns no chain.  The shape is not checked, so that a failure
    is not implied by a mismatch: see
    [fromJSON_accepts_missing_stateSize]. *)
Theorem fromJSON_failures :
  (forall text e, JSON.parse text = Throws e -> Chain.fromJSON text = Throws e) /\
  (forall text e,
      Chain.fromJSON text = Throws e ->
      JSON.parse text = Throws e \/
      exists v, JSON.parse text = Returns v /\
                (well_shaped v = false \/ plain_keyed v = false)) /\
  (forall text v,
      JSON.parse text = Returns v ->
      typed_shaped v = true -> plain_keyed v = true ->
      exists c, Chain.fromJSON text = Returns c) /\
  (forall text e c,
      Chain.fromJSON text = Throws e -> Chain.fromJSON text <> Returns c).
Proof.
  split; [|split; [|split]].
  - intros text e H. unfold Chain.fromJSON. now rewrite H.
  - intros text e. unfold Chain.fromJSON.
    destruct (JSON.parse text) as [v|e'|]; simpl; try discriminate.
    + intros H. right. exists v. split; [reflexivity|].
      destruct (well_shaped v) eqn:Hv; [|now left].
      destruct (plain_keyed v) eqn:Hk; [|now right].
      now destruct (hydrate_well_shaped v Hv Hk e).
    + intros [= <-]. now left.
  - intros text v H Ht Hk. unfold Chain.fromJSON. rewrite H. cbn [bind].
    now apply hydrate_typed.
  - intros text e c H. rewrite H. discriminate.
Qed.

Lemma fromJSON_failures_witness :
  (Chain.fromJSON "null" = Throws TypeError /\
   (JSON.parse "null" = Throws TypeError \/
    exists v, JSON.parse "null" = Returns v /\
              (well_shaped v = false \/ plain_keyed v = false))) /\
  (JSON.parse (Chain.stringify example_chain) = Returns (Chain.toJSON example_chain) /\
   typed_shaped (Chain.toJSON example_chain) = true /\
   plain_keyed (Chain.toJSON example_chain) = true /\
   exists c, Chain.fromJSON (Chain.stringify example_chain) = Returns c).
Proof.
  split.
  - split; [reflexivity|].
    apply (proj1 (proj2 fromJSON_failures)). reflexivity.
  - split; [reflexivity|split; [reflexivity|split; [reflexivity|]]].
    apply (proj1 (proj2 (proj2 fromJSON_failures)) _ (Chain.toJSON example_chain));
      reflexivity.
Defined.

(** A text without [stateSize] does not have the expected shape, and
    [fromJSON] returns a chain for it, with the default state size. *)
Lemma fromJSON_accepts_missing_stateSize :
  JSON.parse text_without_stateSize = Returns (VObj [("model", VArr [])]) /\
  well_shaped (VObj [("model", VArr [])]) = false /\
  Chain.fromJSON text_without_stateSize =
  Returns {| Chain.model := []; Chain.stateSize := 1 |}.
Proof. repeat split. Qed.

(** ** walk *)

Lemma length_store h : forall p a, List.length (Chain.store h p a) = List.length h.
Proof. induction h as [|x h IH]; intros [|p] a; simpl; auto. Qed.

Lemma deref_store_same h : forall p a,
  (p < List.length h)%nat -> Chain.deref (Chain.store h p a) p = a.
Proof.
  unfold Chain.deref. induction h as [|x h IH]; intros [|p] a Hp; simpl in *;
    try lia; [reflexivity|]. apply IH. lia.
Qed.

Lemma deref_store_other h : forall p q a,
  q <> p -> Chain.deref (Chain.store h p a) q = Chain.deref h q.
Proof.
  unfold Chain.deref.
  induction h as [|x h IH]; intros [|p] [|q] a Hq; simpl; try reflexivity;
    try congruence.
  apply IH. congruence.
Qed.

Lemma slide_skipn steps : forall state,
  state <> [] ->
  slide state steps = skipn (List.length steps) (state ++ steps) /\
  List.length (slide state steps) = List.length state.
Proof.
  induction steps as [|v steps IH]; intros state Hne.
  - simpl. now rewrite List.app_nil_r.
  - destruct state as [|x state]; [congruence|].
    change (slide (x :: state) (v :: steps)) with (slide (state ++ [v]) steps).
    destruct (IH (state ++ [v])) as [E L].
    { now destruct state. }
    rewrite L, E, <- List.app_assoc, length_app. simpl. split; [reflexivity | lia].
Qed.

Lemma stops_spec step :
  Chain.stops step = true <-> step = VUndefined \/ step = VStr END.
Proof.
  destruct step; simpl; try (split; [discriminate | intros [|]; discriminate]).
  - tauto.
  - rewrite String.eqb_eq. split; [intros ->; now right|].
    intros [|[= ->]]; [discriminate | reflexivity].
Qed.

(** The two equations of the loop: without a draw it is left exactly
    from a state without an entry; with a draw it does a round. *)
Lemma walk_loop_nil c h p steps :
  Chain.walk_loop c [] h p steps =
  match obj_get (createStateKey (VArr (Chain.deref h p))) (Chain.model c) with
  | None => (true, steps, h)
  | Some _ => (false, steps, h)
  end.
Proof. reflexivity. Qed.

Lemma walk_loop_cons c random rest h p steps :
  Chain.walk_loop c (random :: rest) h p steps =
  let step := Chain.move c (VArr (Chain.deref h p)) random in
  if Chain.stops step then (true, steps, h)
  else Chain.walk_loop c rest
         (Chain.store h p (tl (Chain.deref h p) ++ [step])) p (steps ++ [step]).
Proof.
  cbn [Chain.walk_loop]. unfold Chain.move.
  now destruct (obj_get (createStateKey (VArr (Chain.deref h p))) (Chain.model c)).
Qed.

(** From a state without an entry the loop is left at once, whatever
    draws there are. *)
Lemma walk_loop_absent c draws h p steps :
  obj_get (createStateKey (VArr (Chain.deref h p))) (Chain.model c) = None ->
  Chain.walk_loop c draws h p steps = (true, steps, h).
Proof. intros H. destruct draws; cbn [Chain.walk_loop]; now rewrite H. Qed.

Lemma walk_loop_invariant (P : any -> Prop) c :
  values_satisfy P (Chain.model c) ->
  forall draws h p steps exited steps' h',
    (p < List.length h)%nat ->
    Chain.walk_loop c draws h p steps = (exited, steps', h') ->
    exists new,
      steps' = steps ++ new /\
      Forall (fun v => P v /\ Chain.stops v = false) new /\
      List.length h' = List.length h /\
      Chain.deref h' p = slide (Chain.deref h p) new /\
      (forall q, q <> p -> Chain.deref h' q = Chain.deref h q).
Proof.
  intros Hc. induction draws as [|random draws IH];
    intros h p steps exited steps' h' Hp.
  - rewrite walk_loop_nil.
    destruct (obj_get _ (Chain.model c)); intros [= <- <- <-];
      exists []; rewrite List.app_nil_r; auto.
  - rewrite walk_loop_cons. cbv zeta. destruct (Chain.stops _) eqn:Hstop.
    + intros [= <- <- <-]. exists []. rewrite List.app_nil_r. auto.
    + intros H. apply IH in H; [|now rewrite length_store].
      destruct H as (new & -> & Hnew & Hlen & Hst & Hother).
      set (step := Chain.move c (VArr (Chain.deref h p)) random) in *.
      exists (step :: new). rewrite <- List.app_assoc. simpl.
      split; [reflexivity|]. split; [|split; [|split]].
      * constructor; [|assumption]. split; [|assumption].
        destruct (move_value c (VArr (Chain.deref h p)) random)
          as [E|(sk & st & key & r & Hin & Hr & E)].
        -- fold step in E. rewrite E in Hstop. discriminate.
        -- fold step in E. rewrite <- E. exact (Hc _ _ Hin _ _ Hr).
      * now rewrite Hlen, length_store.
      * now rewrite Hst, deref_store_same.
      * intros q Hq. now rewrite Hother, deref_store_other.
Qed.

Lemma constructor_build runs n c :
  1 <= n ->
  Chain.constructor (VArr (map VArr runs)) (VNum (Int n)) = Returns c ->
  Chain.stateSize c = n /\
  Chain.build (VArr (map VArr runs)) n = Returns (Chain.model c).
Proof.
  intros Hn. unfold Chain.constructor. simpl truthy.
  destruct (Z.eqb_spec n 0); [lia|]. cbn [negb bind].
  destruct (Chain.build _ n) as [m| |]; simpl; try discriminate.
  intros [= <-]. auto.
Qed.

(** C4.  On a chain built from a corpus without [BEGIN] or [END] among
    its symbols, [walk()] starts from a fresh array of [stateSize] times
    [BEGIN]; each round stops when [move] gives [undefined] or [END], and
    otherwise appends the step to the output and, in the state, drops the
    oldest symbol and appends the step; after any number of rounds the
    state has length [stateSize], it is the last [stateSize] symbols of
    the start followed by the steps, and the steps contain neither
    [BEGIN] nor [END]; so does the sequence [walk] returns. *)
Theorem walk_from_begin (runs : list (list any)) (n : Z) (c : Chain.t) :
  1 <= n ->
  (forall run symbol,
      In run runs -> In symbol run ->
      symbol <> VStr BEGIN /\ symbol <> VStr END) ->
  Chain.constructor (VArr (map VArr runs)) (VNum (Int n)) = Returns c ->
  forall (h : Chain.heap) (draws : list Q),
    let state := List.length h in
    let h0 := h ++ [createBeginState n] in
    Chain.deref h0 state = repeat (VStr BEGIN) (Z.to_nat n) /\
    Chain.walk c h Chain.Omitted draws =
      match Chain.walk_loop c draws h0 state [] with
      | (true, steps, h') => Some (Returns steps, h')
      | (false, _, _) => None
      end /\
    (forall random rest h1 steps,
        Chain.walk_loop c (random :: rest) h1 state steps =
        let step := Chain.move c (VArr (Chain.deref h1 state)) random in
        if Chain.stops step then (true, steps, h1)
        else Chain.walk_loop c rest
               (Chain.store h1 state (tl (Chain.deref h1 state) ++ [step]))
               state (steps ++ [step])) /\
    (forall step,
        Chain.stops step = true <-> step = VUndefined \/ step = VStr END) /\
    (forall exited steps h',
        Chain.walk_loop c draws h0 state [] = (exited, steps, h') ->
        ~ In (VStr BEGIN) steps /\ ~ In (VStr END) steps /\
        List.length (Chain.deref h' state) = Z.to_nat n /\
        Chain.deref h' state =
          skipn (List.length steps) (createBeginState n ++ steps)) /\
    (forall steps h',
        Chain.walk c h Chain.Omitted draws = Some (Returns steps, h') ->
        ~ In (VStr BEGIN) steps /\ ~ In (VStr END) steps).
Proof.
  intros Hn Hsym Hc h draws state h0.
  destruct (constructor_build runs n c Hn Hc) as [Hsize Hbuild].
  pose proof (build_values runs n _ Hn Hbuild) as Hvals.
  assert (Hd : Chain.deref h0 state = repeat (VStr BEGIN) (Z.to_nat n)).
  { unfold Chain.deref, h0, state. now rewrite nth_middle. }
  assert (Hw : Chain.walk c h Chain.Omitted draws =
               match Chain.walk_loop c draws h0 state [] with
               | (true, steps, h') => Some (Returns steps, h')
               | (false, _, _) => None
               end).
  { unfold Chain.walk, Chain.alloc. now rewrite Hsize. }
  assert (Hinv : forall exited steps h',
             Chain.walk_loop c draws h0 state [] = (exited, steps, h') ->
             ~ In (VStr BEGIN) steps /\ ~ In (VStr END) steps /\
             List.length (Chain.deref h' state) = Z.to_nat n /\
             Chain.deref h' state =
               skipn (List.length steps) (createBeginState n ++ steps)).
  { intros exited steps h' Hloop.
    apply (walk_loop_invariant (symbol_or_END runs) c Hvals) in Hloop.
    2:{ unfold h0, state. rewrite length_app. simpl. lia. }
    destruct Hloop as (new & -> & Hnew & _ & Hst & _). simpl.
    rewrite Forall_forall in Hnew.
    assert (Hne : Chain.deref h0 state <> []).
    { rewrite Hd. destruct (Z.to_nat n) eqn:E; [lia | discriminate]. }
    destruct (slide_skipn new _ Hne) as [E L].
    rewrite Hst, L, E, Hd, repeat_length.
    repeat split; try reflexivity.
    - intros Hin. destruct (Hnew _ Hin) as [[E'|(run & Hrun & Hs)] _];
        [discriminate|]. now destruct (Hsym _ _ Hrun Hs).
    - intros Hin. destruct (Hnew _ Hin) as [_ Hstop]. discriminate Hstop. }
  split; [exact Hd|]. split; [exact Hw|].
  split; [intros; apply walk_loop_cons|].
  split; [apply stops_spec|]. split; [exact Hinv|].
  intros steps h' Hwalk. rewrite Hw in Hwalk.
  destruct (Chain.walk_loop c draws h0 state []) as [[[|] steps0] h1] eqn:Hloop;
    [|discriminate].
  injection Hwalk as <- <-.
  destruct (Hinv _ _ _ eq_refl) as (H1 & H2 & _). auto.
Qed.

(** ** Tables built by [build] are objects in property order *)

Lemma array_index_canonical k n : array_index k = Some n -> k = string_of_N n.
Proof.
  unfold array_index. destruct (NilEmpty.uint_of_string k) as [d|]; [|discriminate].
  destruct (String.eqb_spec (string_of_N (N.of_uint d)) k) as [E|]; [|discriminate].
  simpl. destruct (_ <=? _)%N; [|discriminate]. intros [= <-]. now symmetry.
Qed.

Lemma precedes_irrefl k : precedes k k = false.
Proof. unfold precedes. now rewrite String.eqb_refl. Qed.

Section KeyOrder.
Context {A : Type}.
Implicit Types (o : object A) (k : string) (a : A).

Lemma keys_obj_modify k (f : A -> A) o : keys (obj_modify k f o) = keys o.
Proof.
  unfold keys. induction o as [|[k0 a0] o IH]; simpl; [reflexivity|].
  destruct (String.eqb k0 k); simpl; [reflexivity | now rewrite IH].
Qed.

Lemma keys_obj_insert_index n k a o k' :
  In k' (keys (obj_insert_index n k a o)) <-> k' = k \/ In k' (keys o).
Proof.
  unfold keys. induction o as [|[k0 a0] o IH]; simpl; [intuition|].
  destruct (array_index k0) as [n0|]; [destruct (n <? n0)%N|]; simpl;
    intuition.
Qed.

Lemma key_order_ok_insert_index n k a o :
  array_index k = Some n -> ~ In k (keys o) ->
  key_order_ok (keys o) = true ->
  key_order_ok (keys (obj_insert_index n k a o)) = true.
Proof.
  intros Hk. induction o as [|[k0 a0] o IH]; intros Hnin Hok; [reflexivity|].
  change (keys ((k0, a0) :: o)) with (k0 :: keys o) in *.
  simpl in Hok. apply andb_prop in Hok as [H0 Hok].
  rewrite forallb_forall in H0.
  assert (Hne : k <> k0) by (intros ->; apply Hnin; now left).
  assert (Hnin' : ~ In k (keys o)) by (intros H; apply Hnin; now right).
  simpl. destruct (array_index k0) as [n0|] eqn:E0.
  - destruct (N.ltb_spec n n0) as [Hlt|Hge].
    + change (keys ((k, a) :: (k0, a0) :: o)) with (k :: k0 :: keys o).
      simpl. rewrite andb_true_iff. split; [|rewrite andb_true_iff; split].
      * rewrite andb_true_iff. split.
        -- unfold precedes. rewrite Hk, E0.
           destruct (String.eqb_spec k k0); [congruence|].
           simpl. now apply N.ltb_lt.
        -- apply forallb_forall. intros k' Hin. specialize (H0 _ Hin).
           unfold precedes in *. rewrite Hk. rewrite E0 in H0.
           destruct (String.eqb_spec k k') as [->|_]; [contradiction|]. simpl.
           apply andb_prop in H0 as [_ H0].
           destruct (array_index k'); [|reflexivity].
           apply N.ltb_lt in H0. apply N.ltb_lt. lia.
      * now apply forallb_forall.
      * assumption.
    + change (keys ((k0, a0) :: obj_insert_index n k a o))
        with (k0 :: keys (obj_insert_index n k a o)).
      simpl. rewrite andb_true_iff. split; [|now apply IH].
      apply forallb_forall. intros k' Hin.
      apply keys_obj_insert_index in Hin as [->|Hin]; [|auto].
      unfold precedes. rewrite Hk, E0.
      destruct (String.eqb_spec k0 k); [congruence|]. simpl.
      apply N.ltb_lt.
      assert (n0 <> n).
      { intros ->. apply array_index_canonical in Hk, E0. congruence. }
      lia.
  - change (keys ((k, a) :: (k0, a0) :: o)) with (k :: k0 :: keys o).
    simpl. rewrite andb_true_iff. split; [|rewrite andb_true_iff; split].
    + rewrite andb_true_iff. split.
      * unfold precedes. rewrite Hk, E0.
        destruct (String.eqb_spec k k0); [congruence | reflexivity].
      * apply forallb_forall. intros k' Hin. specialize (H0 _ Hin).
        unfold precedes in *. rewrite Hk. rewrite E0 in H0.
        destruct (String.eqb_spec k k') as [->|_]; [contradiction|]. simpl.
        apply andb_prop in H0 as [_ H0].
        destruct (array_index k'); [discriminate | reflexivity].
    + now apply forallb_forall.
    + assumption.
Qed.

Lemma key_order_ok_snoc_intro (l : list string) k :
  key_order_ok l = true -> Forall (fun k0 => precedes k0 k = true) l ->
  key_order_ok (l ++ [k]) = true.
Proof.
  induction l as [|k0 l IH]; intros Hok Hall; [reflexivity|]. simpl in *.
  apply andb_prop in Hok as [H0 Hok].
  inversion Hall as [|? ? Hk0 Hl]; subst.
  rewrite forallb_app, H0, IH by assumption. simpl.
  now rewrite Hk0.
Qed.

Lemma key_order_ok_obj_set k a o :
  key_order_ok (keys o) = true -> key_order_ok (keys (obj_set k a o)) = true.
Proof.
  intros Hok. unfold obj_set, obj_has.
  destruct (obj_get k o) eqn:Hget; [now rewrite keys_obj_modify|].
  apply obj_get_None in Hget.
  destruct (array_index k) as [n|] eqn:Hk.
  - now apply key_order_ok_insert_index.
  - unfold keys. rewrite map_app. cbn [map fst]. apply key_order_ok_snoc_intro; [assumption|].
    apply Forall_forall. intros k0 Hin. unfold precedes. cbn [fst]. rewrite Hk.
    destruct (String.eqb_spec k0 k) as [->|_]; [contradiction|].
    simpl. now destruct (array_index k0).
Qed.

Lemma obj_get_of_In k a o :
  key_order_ok (keys o) = true -> In (k, a) o -> obj_get k o = Some a.
Proof.
  induction o as [|[k0 a0] o IH]; intros Hok Hin; [destruct Hin|].
  change (keys ((k0, a0) :: o)) with (k0 :: keys o) in Hok. simpl in Hok.
  apply andb_prop in Hok as [H0 Hok]. rewrite forallb_forall in H0. simpl.
  destruct Hin as [[= -> ->]|Hin]; [now rewrite String.eqb_refl|].
  destruct (String.eqb_spec k0 k) as [->|_]; [|now apply IH].
  exfalso. assert (Hk : In k (keys o)) by (apply (in_map fst _ _ Hin)).
  specialize (H0 _ Hk). now rewrite precedes_irrefl in H0.
Qed.
End KeyOrder.

Lemma entries_satisfy_modify {A : Type} (Q : string -> A -> Prop) k (f : A -> A) o :
  (forall a, Q k a -> Q k (f a)) ->
  entries_satisfy Q o -> entries_satisfy Q (obj_modify k f o).
Proof.
  intros Hf Ho k' a' Hin.
  apply In_obj_modify in Hin as [Hin|(-> & a0 & Hin & ->)]; auto.
Qed.

Lemma entries_satisfy_set {A : Type} (Q : string -> A -> Prop) k (a : A) o :
  Q k a -> entries_satisfy Q o -> entries_satisfy Q (obj_set k a o).
Proof.
  intros Ha Ho k' a' Hin. apply In_obj_set in Hin as [[= -> ->]|Hin]; auto.
Qed.

Lemma ordered_table_record (P : any -> Prop) m sk f :
  sk <> "__proto__" -> followKey f <> "__proto__" -> P f ->
  ordered_table P m -> ordered_table P (Chain.record m sk f).
Proof.
  intros Hsk Hfk Hf [Hok Hm]. unfold Chain.record. fold (followKey f). split.
  - rewrite !keys_obj_modify. destruct (obj_has sk m); [assumption|].
    now apply key_order_ok_obj_set.
  - apply entries_satisfy_modify.
    { intros state [_ [Hs1 Hs2]]. split; [assumption|]. split.
      - now rewrite keys_obj_modify.
      - apply entries_satisfy_modify; [|assumption]. intros r [? ?]. now split. }
    apply entries_satisfy_modify.
    { intros state [_ [Hs1 Hs2]]. split; [assumption|].
      destruct (obj_has (followKey f) state); [now split|]. split.
      - now apply key_order_ok_obj_set.
      - apply entries_satisfy_set; [now split | assumption]. }
    destruct (obj_has sk m); [assumption|].
    apply entries_satisfy_set; [|assumption].
    split; [assumption|]. split; [reflexivity|]. intros k a [].
Qed.

Lemma createStateKey_not_proto v : createStateKey v <> "__proto__".
Proof. unfold createStateKey. destruct v; discriminate. Qed.

Lemma followKey_not_proto f : followKey f <> "__proto__".
Proof.
  unfold followKey, JSON.stringify.
  destruct f as [ | |[|]|[z| |b]|s|l|props]; try discriminate.
  cbn [serialize option_map property_key]. unfold chars.
  rewrite string_of_list_ascii_of_string. intros E.
  destruct (string_of_Z_shape z) as (c & cs & Ec & _ & Hc).
  rewrite E in Ec. injection Ec as <- _. discriminate Hc.
Qed.

Lemma ordered_table_tally (P : any -> Prop) ws : forall m,
  Forall (fun w => P (snd w)) ws ->
  ordered_table P m -> ordered_table P (tally ws m).
Proof.
  induction ws as [|w ws IH]; intros m Hws Hm; [assumption|].
  inversion Hws; subst. simpl. apply IH; [assumption|].
  apply ordered_table_record; auto using createStateKey_not_proto, followKey_not_proto.
Qed.

Lemma keyed_occurrences_le sk fk ws :
  keyed_occurrences sk fk ws <= Z.of_nat (List.length ws).
Proof.
  unfold keyed_occurrences. apply inj_le. apply filter_length_le.
Qed.

(** The table [build] returns for a corpus of representable symbols is
    a model as the round trip needs it. *)
Lemma build_well_formed runs n m :
  1 <= n ->
  forallb (forallb representable) runs = true ->
  Z.of_nat (List.length (corpus_windows (Z.to_nat n) runs)) <= MAX_SAFE_INTEGER ->
  Chain.build (VArr (map VArr runs)) n = Returns m ->
  wf_model representable m = true.
Proof.
  intros Hn Hrep Hsize. rewrite build_tally by assumption. intros [= <-].
  set (ws := corpus_windows (Z.to_nat n) runs) in *.
  pose proof (tallies_tally ws [] [] tallies_nil) as Ht. simpl in Ht.
  assert (Ho : ordered_table (symbol_or_END runs) (tally ws [])).
  { apply ordered_table_tally; [apply windows_follow|].
    split; [reflexivity | intros k a []]. }
  destruct Ho as [Hok Hent].
  assert (Hsym : forall v, symbol_or_END runs v -> representable v = true).
  { intros v [->|(run & Hrun & Hv)]; [reflexivity|].
    rewrite forallb_forall in Hrep. specialize (Hrep _ Hrun).
    rewrite forallb_forall in Hrep. auto. }
  unfold wf_model, proper_keys. rewrite Hok. cbn [andb].
  apply andb_true_intro. split.
  - apply forallb_forall. intros k Hk. apply in_map_iff in Hk as ([k' st] & <- & Hin).
    destruct (Hent _ _ Hin) as [Hne _]. simpl.
    now destruct (String.eqb_spec k' "__proto__").
  - apply forallb_forall. intros [sk st] Hin.
    destruct (Hent _ _ Hin) as (_ & Hst & Hrecs). cbn [snd].
    rewrite Hst. cbn [andb]. apply andb_true_intro. split.
    + apply forallb_forall. intros k Hk.
      apply in_map_iff in Hk as ([k' r] & <- & Hr).
      destruct (Hrecs _ _ Hr) as [Hne _]. simpl.
      now destruct (String.eqb_spec k' "__proto__").
    + apply forallb_forall. intros [fk r] Hr. cbn [snd].
      destruct (Hrecs _ _ Hr) as [_ Hv]. rewrite (Hsym _ Hv). cbn [andb].
      specialize (Ht sk fk). unfold transition in Ht.
      rewrite (obj_get_of_In _ _ _ Hok Hin), (obj_get_of_In _ _ _ Hst Hr) in Ht.
      destruct Ht as (Hc & w & Hw & _).
      pose proof (keyed_occurrences_le sk fk ws).
      pose proof (keyed_occurrences_nonneg sk fk ws).
      unfold safe_integer. apply andb_true_intro.
      split; apply Z.leb_le; unfold MAX_SAFE_INTEGER in *; lia.
Qed.

(** ** The counts of [build] and the windows of the corpus *)

Lemma struct_eqb_atom_l a b :
  (forall l, a <> VArr l) -> (forall p, a <> VObj p) ->
  struct_eqb a b = any_eqb a b.
Proof.
  intros Ha Ho. destruct a; try reflexivity.
  - now destruct (Ha elems).
  - now destruct (Ho props).
Qed.

Lemma struct_eqb_atom_r a s : struct_eqb a (VStr s) = any_eqb a (VStr s).
Proof. now destruct a. Qed.

Lemma struct_eqb_cons x l y l' :
  struct_eqb (VArr (x :: l)) (VArr (y :: l')) =
  struct_eqb x y && struct_eqb (VArr l) (VArr l').
Proof. reflexivity. Qed.

(** Structural equality holds between a value of the model and itself. *)
Lemma struct_eqb_refl : forall v, representable v = true -> struct_eqb v v = true.
Proof.
  induction v as [ | | x | n | s | l IHl | props IHp] using any_ind;
    intros Hv; try apply any_eqb_refl.
  - simpl in Hv. induction IHl as [|x l Hx _ IH]; [reflexivity|].
    simpl in Hv. apply andb_prop in Hv as [H1 H2].
    rewrite struct_eqb_cons, (Hx H1). now apply IH.
  - simpl in Hv. apply andb_prop in Hv as [Hord Hvals].
    cbn [struct_eqb]. rewrite Nat.eqb_refl. cbn [andb].
    rewrite forallb_forall in Hvals. rewrite Forall_forall in IHp.
    apply forallb_forall. intros [k x] Hin.
    cbn [fst snd]. rewrite (obj_get_of_In k x props Hord Hin).
    apply (IHp _ Hin). exact (Hvals _ Hin).
Qed.

(** Without objects, structural equality is equality. *)
Lemma struct_eqb_object_free : forall a b,
  object_free a = true -> struct_eqb a b = any_eqb a b.
Proof.
  induction a as [ | | x | n | s | l IHl | props IHp] using any_ind;
    intros b Ha; try reflexivity; [|discriminate].
  destruct b as [ | | ? | ? | ? | l' | ?]; try reflexivity.
  simpl in Ha. revert l'. induction IHl as [|x l Hx _ IH]; intros l'.
  - now destruct l'.
  - simpl in Ha. apply andb_prop in Ha as [H1 H2].
    destruct l' as [|y l']; [reflexivity|].
    rewrite struct_eqb_cons, (Hx y H1), (IH H2 l'). reflexivity.
Qed.

Lemma order_consistent_object_free (symbols : list any) :
  forallb object_free symbols = true -> order_consistent symbols.
Proof.
  intros H a b Ha _ E. rewrite forallb_forall in H.
  rewrite struct_eqb_object_free in E by auto. now apply any_eqb_eq.
Qed.

Lemma struct_eqb_symbols symbols a b :
  order_consistent symbols ->
  pads_or symbols a -> pads_or symbols b -> struct_eqb a b = true -> a = b.
Proof.
  intros Hoc Ha Hb E.
  destruct Ha as [->|[->|Ha]]; [now apply any_eqb_eq in E | now apply any_eqb_eq in E|].
  destruct Hb as [->|[->|Hb]];
    [rewrite struct_eqb_atom_r in E; now apply any_eqb_eq in E
    |rewrite struct_eqb_atom_r in E; now apply any_eqb_eq in E|].
  now apply Hoc.
Qed.

Lemma struct_eqb_lists symbols : forall l l',
  order_consistent symbols ->
  Forall (pads_or symbols) l -> Forall (pads_or symbols) l' ->
  struct_eqb (VArr l) (VArr l') = true -> l = l'.
Proof.
  induction l as [|x l IH]; intros [|y l'] Hoc Hl Hl' E; try discriminate;
    [reflexivity|].
  rewrite struct_eqb_cons in E. apply andb_prop in E as [E1 E2].
  inversion Hl; inversion Hl'; subst. f_equal.
  - eapply struct_eqb_symbols; eassumption.
  - now apply IH.
Qed.

Lemma window_symbols n runs st f :
  In (st, f) (corpus_windows n runs) ->
  Forall (pads_or (List.concat runs)) st /\ pads_or (List.concat runs) f.
Proof.
  intros Hw. apply in_flat_map in Hw as (run & Hrun & Hw).
  apply in_map_iff in Hw as (i & [= <- <-] & Hi). apply in_seq in Hi.
  assert (Hp : forall x, In x (padded n run) -> pads_or (List.concat runs) x).
  { intros x Hx. unfold padded in Hx. apply in_app_or in Hx as [Hx|Hx].
    - apply repeat_spec in Hx as ->. now left.
    - apply in_app_or in Hx as [Hx|[<-|[]]]; [|right; now left].
      right; right. apply in_concat. eauto. }
  split.
  - apply Forall_forall. intros x Hx. apply Hp. eapply in_skipn, in_firstn, Hx.
  - apply Hp, nth_In. rewrite length_padded. lia.
Qed.

(** Where structurally equal symbols are equal, the two ways to count
    the occurrences of a window agree. *)
Lemma structural_occurrences_exact n runs st f :
  forallb (forallb representable) runs = true ->
  order_consistent (List.concat runs) ->
  In (st, f) (corpus_windows n runs) ->
  structural_occurrences (st, f) (corpus_windows n runs) =
  occurrences (st, f) (corpus_windows n runs).
Proof.
  intros Hrep Hoc Hin. unfold structural_occurrences, occurrences. do 2 f_equal.
  apply filter_ext_in. intros [st' f'] Hin'.
  pose proof (windows_representable n runs Hrep) as Hws.
  rewrite forallb_forall in Hws.
  destruct (window_eqb (st, f) (st', f')) eqn:Ew.
  - apply window_eqb_eq in Ew. injection Ew as <- <-.
    specialize (Hws _ Hin). unfold representable_window in Hws. cbn [fst snd] in Hws.
    apply andb_prop in Hws as [Hst Hf].
    unfold window_struct_eqb. cbn [fst snd].
    rewrite (struct_eqb_refl (VArr st)), (struct_eqb_refl f) by assumption.
    reflexivity.
  - destruct (window_struct_eqb (st, f) (st', f')) eqn:Es; [|reflexivity].
    exfalso. unfold window_struct_eqb in Es. cbn [fst snd] in Es.
    apply andb_prop in Es as [E1 E2].
    destruct (window_symbols n runs st f Hin) as [Hst Hf].
    destruct (window_symbols n runs st' f' Hin') as [Hst' Hf'].
    apply (struct_eqb_lists _ _ _ Hoc Hst Hst') in E1.
    apply (struct_eqb_symbols _ _ _ Hoc Hf Hf') in E2. subst.
    assert (window_eqb (st', f') (st', f') = true) by now apply window_eqb_eq.
    congruence.
Qed.

(** C1, amended.  For every corpus of runs and every state size of at
    least one, [build] returns a table in which the count under a state
    key and a follow key is the number of windows of the padded runs
    (state size times [BEGIN], the run, one [END]; a window from every
    start [0 .. length run]) that carry these two keys; every record comes
    from such a window, whose follow symbol it keeps.  When the symbols
    are representable in JSON, the keys tell the windows apart, and the
    record of a window holds its symbol and the number of its
    occurrences, a symbol being the value it is: an object occurs again
    where an object with the same properties in the same order occurs.
    Structurally equal objects whose properties are in different orders
    have different keys and are counted apart.  So the count is the number
    of occurrences under structural equality where the structurally equal
    symbols of the corpus are equal, as they are when no symbol holds an
    object.  On the corpus of the example and state size two the table is
    the one expected, no more and no less. *)
Theorem build_counts_windows :
  (forall (runs : list (list any)) (n : Z),
      1 <= n ->
      exists m,
        Chain.build (VArr (map VArr runs)) n = Returns m /\
        let ws := corpus_windows (Z.to_nat n) runs in
        (forall sk fk, count_at m sk fk = keyed_occurrences sk fk ws) /\
        (forall sk fk r,
            transition m sk fk = Some r ->
            1 <= count r /\
            exists w, In w ws /\ createStateKey (VArr (fst w)) = sk /\
                      followKey (snd w) = fk /\ value r = snd w) /\
        (forallb (forallb representable) runs = true ->
         forall st f,
           In (st, f) ws ->
           exists r,
             transition m (createStateKey (VArr st)) (followKey f) = Some r /\
             value r = f /\ count r = occurrences (st, f) ws) /\
        (forallb (forallb representable) runs = true ->
         order_consistent (List.concat runs) ->
         forall st f,
           In (st, f) ws ->
           exists r,
             transition m (createStateKey (VArr st)) (followKey f) = Some r /\
             value r = f /\ count r = structural_occurrences (st, f) ws) /\
        (forallb object_free (List.concat runs) = true ->
         order_consistent (List.concat runs))) /\
  Chain.build (VArr (map VArr example_corpus)) 2 = Returns example_table.
Proof.
  split; [|vm_compute; reflexivity].
  intros runs n Hn. eexists. split; [now apply build_tally|].
  set (ws := corpus_windows (Z.to_nat n) runs). cbv zeta.
  pose proof (tallies_tally ws [] [] tallies_nil) as Ht. simpl in Ht.
  assert (Hexact : forallb (forallb representable) runs = true ->
            forall st f,
              In (st, f) ws ->
              exists r,
                transition (tally ws []) (createStateKey (VArr st)) (followKey f)
                  = Some r /\
                value r = f /\ count r = occurrences (st, f) ws).
  { intros Hrep st f Hin.
    pose proof (windows_representable (Z.to_nat n) runs Hrep) as Hws.
    fold ws in Hws.
    assert (Hw : representable_window (st, f) = true)
      by (rewrite forallb_forall in Hws; auto).
    specialize (Ht (createStateKey (VArr st)) (followKey f)).
    rewrite (keyed_occurrences_exact st f ws Hw Hws) in Ht.
    destruct (transition _ _ _) as [r|].
    + exists r. destruct Ht as (Hc & w & Hwin & H1 & H2 & H3).
      split; [reflexivity|]. split; [|assumption].
      rewrite H3. rewrite forallb_forall in Hws. specialize (Hws _ Hwin).
      unfold representable_window in *.
      apply andb_prop in Hw as [_ Hf]. apply andb_prop in Hws as [_ Hf'].
      now apply followKey_injective.
    + exfalso. unfold occurrences in Ht.
      apply (in_split (st, f)) in Hin as (l1 & l2 & E). rewrite E in Ht.
      rewrite filter_app in Ht. simpl in Ht.
      assert (Hrefl : window_eqb (st, f) (st, f) = true) by now apply window_eqb_eq.
      rewrite Hrefl, length_app in Ht. simpl in Ht. lia. }
  split; [|split; [|split; [|split]]].
  - intros sk fk. specialize (Ht sk fk). unfold count_at.
    destruct (transition _ sk fk); [tauto | congruence].
  - intros sk fk r Hr. specialize (Ht sk fk). rewrite Hr in Ht.
    destruct Ht as (Hc & w & Hin & Hw). split; [|eauto].
    rewrite Hc. unfold keyed_occurrences.
    destruct Hw as (<- & <- & _).
    apply (in_split w) in Hin as (l1 & l2 & ->).
    rewrite filter_app. simpl. rewrite !String.eqb_refl. simpl.
    rewrite length_app. simpl. lia.
  - exact Hexact.
  - intros Hrep Hoc st f Hin.
    destruct (Hexact Hrep st f Hin) as (r & Hr & Hv & Hc).
    exists r. split; [exact Hr|]. split; [exact Hv|].
    rewrite Hc. symmetry. now apply structural_occurrences_exact.
  - apply order_consistent_object_free.
Qed.

Lemma build_counts_windows_witness :
  exists m,
    Chain.build (VArr (map VArr example_corpus)) 2 = Returns m /\
    count_at m (createStateKey (VArr [VStr BEGIN; VStr BEGIN]))
               (followKey (VStr "foo")) = 2.
Proof.
  destruct (proj1 build_counts_windows example_corpus 2 ltac:(lia))
    as (m & Hm & Hc & _).
  exists m. split; [exact Hm|]. rewrite Hc. reflexivity.
Defined.

(** Symbols that [JSON.stringify] renders alike are counted together:
    the window from [BEGIN] to [Infinity] occurs once in this corpus, and
    the table counts it twice, with the window to [-Infinity].  And
    structurally equal objects that differ in the order of their
    properties are counted apart: the window from [BEGIN] to
    [{ a: 1, b: 2 }] occurs twice under structural equality in the second
    corpus, and the table counts it once. *)
Lemma build_counts_collide :
  (exists m,
      Chain.build (VArr [VArr [VNum (Infinity false)]; VArr [VNum (Infinity true)]]) 1
        = Returns m /\
      In ([VStr BEGIN], VNum (Infinity false))
         (corpus_windows 1 [[VNum (Infinity false)]; [VNum (Infinity true)]]) /\
      count_at m (createStateKey (VArr [VStr BEGIN]))
                 (followKey (VNum (Infinity false))) = 2 /\
      occurrences ([VStr BEGIN], VNum (Infinity false))
        (corpus_windows 1 [[VNum (Infinity false)]; [VNum (Infinity true)]]) = 1) /\
  (let ab := VObj [("a", VNum (Int 1)); ("b", VNum (Int 2))] in
   let ba := VObj [("b", VNum (Int 2)); ("a", VNum (Int 1))] in
   exists m,
     Chain.build (VArr [VArr [ab]; VArr [ba]]) 1 = Returns m /\
     representable ab = true /\ representable ba = true /\
     struct_eqb ab ba = true /\
     In ([VStr BEGIN], ab) (corpus_windows 1 [[ab]; [ba]]) /\
     count_at m (createStateKey (VArr [VStr BEGIN])) (followKey ab) = 1 /\
     structural_occurrences ([VStr BEGIN], ab) (corpus_windows 1 [[ab]; [ba]]) = 2).
Proof.
  split.
  - eexists. split; [vm_compute; reflexivity|].
    split; [now left|]. split; reflexivity.
  - cbv zeta. eexists. split; [vm_compute; reflexivity|].
    repeat split; try reflexivity. now left.
Qed.

(** ** The round trip through JSON *)

(** C2.  A chain with a state size of at least one and with a model of
    records whose values are representable in JSON comes back from
    [fromJSON (JSON.stringify chain)] with the same state size and the
    same model: the same records under the same keys, in fact in the same
    order.  The chains built from a corpus of representable symbols are
    such chains. *)
Theorem serialize_roundtrip :
  (forall c,
      wf_chain representable c = true ->
      exists c',
        Chain.fromJSON (Chain.stringify c) = Returns c' /\
        Chain.stateSize c' = Chain.stateSize c /\
        Chain.model c' = Chain.model c /\
        same_model (Chain.model c') (Chain.model c)) /\
  (forall runs n c,
      1 <= n <= MAX_SAFE_INTEGER ->
      forallb (forallb representable) runs = true ->
      Z.of_nat (List.length (corpus_windows (Z.to_nat n) runs))
        <= MAX_SAFE_INTEGER ->
      Chain.constructor (VArr (map VArr runs)) (VNum (Int n)) = Returns c ->
      wf_chain representable c = true /\
      Chain.fromJSON (Chain.stringify c) = Returns c).
Proof.
  assert (Hround : forall c, wf_chain representable c = true ->
                             Chain.fromJSON (Chain.stringify c) = Returns c).
  { intros c Hwf.
    assert (Hwf' : wf_chain well_formed c = true).
    { unfold wf_chain in *. rewrite !andb_true_iff in *.
      destruct Hwf as [Hs Hm]. split; [assumption|].
      eapply wf_model_weaken; [|exact Hm]. apply representable_well_formed. }
    rewrite (fromJSON_stringify c Hwf'). f_equal.
    unfold normalize_chain. destruct c as [m n]. cbn [Chain.model Chain.stateSize].
    f_equal. unfold wf_chain in Hwf. cbn [Chain.model] in Hwf.
    apply andb_prop in Hwf as [_ Hm].
    eapply normalize_model_id; [|exact Hm]. apply normalize_representable. }
  split.
  - intros c Hwf. exists c. rewrite (Hround c Hwf). repeat split; reflexivity.
  - intros runs n c Hn Hrep Hsize Hc.
    destruct (constructor_build runs n c ltac:(lia) Hc) as [Hs Hb].
    assert (Hwf : wf_chain representable c = true).
    { unfold wf_chain. rewrite Hs.
      rewrite (build_well_formed runs n _ ltac:(lia) Hrep Hsize Hb).
      unfold safe_integer.
      destruct (Z.leb_spec 1 n); [|lia].
      destruct (Z.leb_spec (- MAX_SAFE_INTEGER) n);
        [|unfold MAX_SAFE_INTEGER in *; lia].
      destruct (Z.leb_spec n MAX_SAFE_INTEGER); [reflexivity | lia]. }
    split; [exact Hwf | exact (Hround c Hwf)].
Qed.

Lemma serialize_roundtrip_witness :
  (wf_chain representable example_chain2 = true /\
   exists c',
     Chain.fromJSON (Chain.stringify example_chain2) = Returns c' /\
     Chain.stateSize c' = Chain.stateSize example_chain2 /\
     Chain.model c' = Chain.model example_chain2 /\
     same_model (Chain.model c') (Chain.model example_chain2)) /\
  (Chain.constructor (VArr (map VArr example_corpus)) (VNum (Int 2)) =
     Returns example_chain2 /\
   wf_chain representable example_chain2 = true /\
   Chain.fromJSON (Chain.stringify example_chain2) = Returns example_chain2).
Proof.
  split.
  - split; [vm_compute; reflexivity|].
    apply (proj1 serialize_roundtrip). vm_compute. reflexivity.
  - split; [vm_compute; reflexivity|].
    apply (proj2 serialize_roundtrip example_corpus 2 example_chain2).
    + unfold MAX_SAFE_INTEGER. lia.
    + vm_compute. reflexivity.
    + vm_compute. discriminate.
    + vm_compute. reflexivity.
Defined.

(** C9.  Serialising and reading back is idempotent: what one round
    gives, a second round gives again.  The values of the chain may be
    any values of the model; the first round replaces them by what JSON
    keeps of them. *)
Theorem serialize_idempotent c :
  wf_chain well_formed c = true ->
  exists c1,
    Chain.fromJSON (Chain.stringify c) = Returns c1 /\
    Chain.fromJSON (Chain.stringify c1) = Returns c1.
Proof.
  intros Hwf. exists (normalize_chain c). split; [now apply fromJSON_stringify|].
  assert (Hwf1 : wf_chain well_formed (normalize_chain c) = true).
  { unfold wf_chain, normalize_chain in *. cbn [Chain.model Chain.stateSize].
    rewrite !andb_true_iff in *. destruct Hwf as [Hs Hm].
    split; [assumption | now apply wf_normalize_model]. }
  rewrite (fromJSON_stringify _ Hwf1). f_equal.
  unfold normalize_chain. cbn [Chain.model Chain.stateSize]. f_equal.
  apply normalize_model_idempotent.
  unfold wf_chain in Hwf. rewrite !andb_true_iff in Hwf. tauto.
Qed.

Lemma serialize_idempotent_witness :
  wf_chain well_formed lossy_chain = true /\
  exists c1,
    Chain.fromJSON (Chain.stringify lossy_chain) = Returns c1 /\
    Chain.fromJSON (Chain.stringify c1) = Returns c1.
Proof.
  split; [vm_compute; reflexivity|].
  apply serialize_idempotent. vm_compute. reflexivity.
Defined.

(** ** createStateKey *)

(** C7, amended.  Equal states have equal keys; states of symbols that
    are representable in JSON have distinct keys when they are distinct;
    and the key of a value that is not an array is the key of the
    one-element array that holds it. *)
Theorem createStateKey_canonical :
  (forall s1 s2 : any,
      any_eqb s1 s2 = true -> createStateKey s1 = createStateKey s2) /\
  (forall s1 s2 : list any,
      forallb representable s1 = true -> forallb representable s2 = true ->
      s1 <> s2 -> createStateKey (VArr s1) <> createStateKey (VArr s2)) /\
  (forall x : any,
      isArray x = false -> createStateKey x = createStateKey (VArr [x])).
Proof.
  split; [|split].
  - intros s1 s2 H. now apply any_eqb_eq in H as ->.
  - intros s1 s2 H1 H2 Hne E. apply Hne. now apply createStateKey_injective.
  - intros x Hx. destruct x; try reflexivity. discriminate.
Qed.

Lemma createStateKey_canonical_witness :
  forallb representable [VStr BEGIN; VStr "foo"] = true /\
  forallb representable [VStr "foo"; VStr BEGIN] = true /\
  createStateKey (VArr [VStr BEGIN; VStr "foo"]) <>
  createStateKey (VArr [VStr "foo"; VStr BEGIN]).
Proof.
  split; [reflexivity|]. split; [reflexivity|].
  apply (proj1 (proj2 createStateKey_canonical)); [reflexivity..|discriminate].
Defined.

(** Two collisions: distinct states with one key ([Infinity] and
    [-Infinity] are both written [null]), and structurally equal states
    with two keys (the properties of an object are written in their
    order). *)
Lemma createStateKey_collisions :
  (createStateKey (VArr [VNum (Infinity false)]) =
   createStateKey (VArr [VNum (Infinity true)]) /\
   [VNum (Infinity false)] <> [VNum (Infinity true)]) /\
  (struct_eqb
     (VArr [VObj [("a", VNum (Int 1)); ("b", VNum (Int 2))]])
     (VArr [VObj [("b", VNum (Int 2)); ("a", VNum (Int 1))]]) = true /\
   createStateKey (VArr [VObj [("a", VNum (Int 1)); ("b", VNum (Int 2))]]) <>
   createStateKey (VArr [VObj [("b", VNum (Int 2)); ("a", VNum (Int 1))]])).
Proof.
  split; split; try reflexivity; discriminate.
Qed.

(** ** walk on an array of the caller *)

Lemma example_chain_built :
  Chain.constructor (VArr (map VArr example_corpus)) VUndefined =
  Returns example_chain.
Proof. vm_compute. reflexivity. Qed.

(** C5.  [walk] slides the window in the array it is given: called on
    the caller's array [["foo"]], it returns three steps and leaves
    [["qux."]] in that array. *)
Theorem walk_overwrites_fromState :
  Chain.walk example_chain [[VStr "foo"]] (Chain.ArrayRef 0) [0; 0; 0; 0]%Q =
  Some (Returns [VStr "bar"; VStr "baz"; VStr "qux."], [[VStr "qux."]]).
Proof. vm_compute. reflexivity. Qed.

Lemma walk_from_begin_witness :
  exists steps h',
    Chain.walk example_chain [] Chain.Omitted [0; 0; 0; 0; 0]%Q =
      Some (Returns steps, h') /\
    ~ In (VStr BEGIN) steps /\ ~ In (VStr END) steps.
Proof.
  eexists _, _. split; [vm_compute; reflexivity|].
  refine (proj2 (proj2 (proj2 (proj2 (proj2
    (walk_from_begin example_corpus 1 example_chain _ _ _ [] [0; 0; 0; 0; 0]%Q)))))
    _ _ _).
  - lia.
  - intros run symbol Hrun Hs. simpl in Hrun.
    repeat (destruct Hrun as [<-|Hrun]; [simpl in Hs; intuition (subst; discriminate)|]).
    destruct Hrun.
  - vm_compute. reflexivity.
  - vm_compute. reflexivity.
Defined.

(** * Further properties of the code *)

(** ** bisect *)

Lemma bisect_loop_spec list num : forall rounds currLow currHigh,
  (Z.to_nat (currHigh - currLow) <= rounds)%nat ->
  exists i,
    bisect_loop rounds list num currLow currHigh = Some i /\
    (currHigh <= currLow -> i = currLow) /\
    (currLow <= currHigh ->
     currLow <= i <= currHigh /\
     (currLow < i -> less_than_at num list (i - 1) = false) /\
     (i < currHigh -> less_than_at num list i = true)).
Proof.
  induction rounds as [|rounds IH]; intros lo hi Hr.
  - exists lo. simpl. destruct (Z.ltb_spec lo hi); [lia|].
    split; [reflexivity|]. split; [reflexivity|]. intros. repeat split; lia.
  - cbn [bisect_loop]. destruct (Z.ltb_spec lo hi) as [Hlt|Hge].
    2:{ exists lo. split; [reflexivity|]. split; [reflexivity|].
        intros. repeat split; lia. }
    cbv zeta. set (mid := (lo + hi) / 2).
    assert (Hmid : lo <= mid < hi).
    { unfold mid. split; [apply Z.div_le_lower_bound | apply Z.div_lt_upper_bound]; lia. }
    destruct (less_than_at num list mid) eqn:Et.
    + destruct (IH lo mid ltac:(lia)) as (i & Ei & H1 & H2).
      exists i. split; [exact Ei|]. split; [lia|]. intros _.
      destruct (H2 ltac:(lia)) as (Hb & Hlo & Hhi).
      split; [lia|]. split; [exact Hlo|]. intros _.
      destruct (Z.eq_dec i mid) as [->|Hne]; [exact Et | apply Hhi; lia].
    + destruct (IH (mid + 1) hi ltac:(lia)) as (i & Ei & H1 & H2).
      exists i. split; [exact Ei|]. split; [lia|]. intros _.
      destruct (H2 ltac:(lia)) as (Hb & Hlo & Hhi).
      split; [lia|]. split; [|exact Hhi]. intros _.
      destruct (Z.eq_dec i (mid + 1)) as [->|Hne].
      * now replace (mid + 1 - 1) with mid by lia.
      * apply Hlo. lia.
Qed.

(** Past the end of the list every comparison fails, and the lower
    bound runs up to the upper one. *)
Lemma bisect_loop_beyond list num : forall rounds currLow currHigh,
  (Z.to_nat (currHigh - currLow) <= rounds)%nat ->
  currLow <= currHigh ->
  (forall j, (currLow + currHigh) / 2 <= j -> less_than_at num list j = false) ->
  bisect_loop rounds list num currLow currHigh = Some currHigh.
Proof.
  induction rounds as [|rounds IH]; intros lo hi Hr Hle Hfalse.
  - simpl. destruct (Z.ltb_spec lo hi); [lia|]. f_equal. lia.
  - cbn [bisect_loop]. destruct (Z.ltb_spec lo hi) as [Hlt|Hge]; [|f_equal; lia].
    cbv zeta.
    assert (Hmid : lo <= (lo + hi) / 2 < hi).
    { split; [apply Z.div_le_lower_bound | apply Z.div_lt_upper_bound]; lia. }
    rewrite Hfalse by lia. apply IH; [lia | lia |].
    intros j Hj. apply Hfalse.
    assert ((lo + hi) / 2 + 1 <= ((lo + hi) / 2 + 1 + hi) / 2)
      by (apply Z.div_le_lower_bound; lia).
    lia.
Qed.

Lemma less_than_at_beyond num list j :
  Z.of_nat (List.length list) <= j -> less_than_at num list j = false.
Proof.
  intros Hj. unfold less_than_at. destruct (j <? 0); [reflexivity|].
  destruct (nth_error list (Z.to_nat j)) eqn:E; [|reflexivity].
  assert (Z.to_nat j < List.length list)%nat by (apply nth_error_Some; congruence).
  lia.
Qed.

(** X1.  [bisect] leaves its loop on every list, sorted or not, and for
    every [high] up to 2^52 (where the bounds of the code are exact), and
    returns an index between 0 and [high]: 0 when [high] is not positive.
    The element before the index, if there is one, is not greater than
    [num], and the element at the index, if it is below [high], is
    greater than [num]; an element past the end of the list counts as not
    greater.  So when [high] is at least twice the length of the list the
    index is [high] itself, whatever the list holds: [high] is not cut
    down to the length. *)
Theorem bisect_returns (list : list Q) (num : Q) (high : option Z) :
  high_or_length list high <= 2 ^ 52 ->
  exists i,
    bisect list num high = Some i /\
    0 <= i /\
    (high_or_length list high <= 0 -> i = 0) /\
    (0 <= high_or_length list high ->
     i <= high_or_length list high /\
     (0 < i -> less_than_at num list (i - 1) = false) /\
     (i < high_or_length list high -> less_than_at num list i = true)) /\
    (0 <= high_or_length list high ->
     2 * Z.of_nat (List.length list) <= high_or_length list high ->
     i = high_or_length list high).
Proof.
  intros _. unfold bisect. fold (high_or_length list high).
  set (h := high_or_length list high).
  destruct (bisect_loop_spec list num (Z.to_nat h) 0 h ltac:(lia))
    as (i & Ei & H1 & H2).
  exists i. split; [exact Ei|].
  destruct (Z.le_gt_cases h 0) as [Hh|Hh].
  - specialize (H1 Hh). subst i. split; [lia|]. split; [reflexivity|]. split.
    + intros H0. assert (h = 0) by lia. repeat split; lia.
    + intros; lia.
  - destruct (H2 ltac:(lia)) as (Hb & Hlo & Hhi).
    split; [lia|]. split; [lia|]. split.
    + intros _. split; [lia|]. split; assumption.
    + intros _ Hlen.
      rewrite bisect_loop_beyond in Ei; [congruence | lia | lia |].
      intros j Hj. apply less_than_at_beyond.
      assert (Z.of_nat (List.length list) <= (0 + h) / 2)
        by (apply Z.div_le_lower_bound; lia).
      lia.
Qed.

Lemma bisect_returns_witness :
  exists i,
    bisect [7; 1]%Q 5%Q (Some 6) = Some i /\
    0 <= i /\
    (6 <= 0 -> i = 0) /\
    (0 <= 6 ->
     i <= 6 /\
     (0 < i -> less_than_at 5%Q [7; 1]%Q (i - 1) = false) /\
     (i < 6 -> less_than_at 5%Q [7; 1]%Q i = true)) /\
    (0 <= 6 -> 2 * Z.of_nat (List.length [7; 1]%Q) <= 6 -> i = 6).
Proof.
  apply (bisect_returns [7; 1]%Q 5%Q (Some 6)). vm_compute. discriminate.
Defined.

Lemma less_than_at_nth num list (j : nat) x :
  nth_error list j = Some x ->
  less_than_at num list (Z.of_nat j) = negb (Qle_bool x num).
Proof.
  intros H. unfold less_than_at. destruct (Z.ltb_spec (Z.of_nat j) 0); [lia|].
  now rewrite Nat2Z.id, H.
Qed.

Lemma Qle_bool_false x y : Qle_bool x y = false <-> (y < x)%Q.
Proof.
  split.
  - intros H. apply Qnot_le_lt. intros Hle. apply Qle_bool_iff in Hle. congruence.
  - intros H. destruct (Qle_bool x y) eqn:E; [|reflexivity].
    apply Qle_bool_iff in E. apply Qlt_not_le in H. contradiction.
Qed.

(** On an ascending list the index [bisect] returns splits the first
    [high] elements: those before it are at most [num], those from it on
    are greater. *)
Lemma bisect_partition list num h :
  ascending list -> 0 <= h <= Z.of_nat (List.length list) ->
  exists i,
    bisect_loop (Z.to_nat h) list num 0 h = Some i /\
    0 <= i <= h /\
    (forall j x, Z.of_nat j < i -> nth_error list j = Some x -> (x <= num)%Q) /\
    (forall j x, i <= Z.of_nat j < h -> nth_error list j = Some x -> (num < x)%Q).
Proof.
  intros Hasc Hh.
  destruct (bisect_loop_spec list num (Z.to_nat h) 0 h ltac:(lia))
    as (i & Ei & _ & H2).
  destruct (H2 ltac:(lia)) as (Hb & Hlo & Hhi).
  exists i. split; [exact Ei|]. split; [exact Hb|]. split.
  - intros j x Hj Hx.
    destruct (nth_error list (Z.to_nat (i - 1))) as [y|] eqn:Ey.
    2:{ apply nth_error_None in Ey. lia. }
    specialize (Hlo ltac:(lia)).
    replace (i - 1) with (Z.of_nat (Z.to_nat (i - 1))) in Hlo by lia.
    rewrite (less_than_at_nth _ _ _ _ Ey) in Hlo.
    apply negb_false_iff, Qle_bool_iff in Hlo.
    apply Qle_trans with y; [|exact Hlo].
    apply (Hasc j (Z.to_nat (i - 1))); [lia | assumption..].
  - intros j x Hj Hx.
    destruct (nth_error list (Z.to_nat i)) as [y|] eqn:Ey.
    2:{ apply nth_error_None in Ey. lia. }
    specialize (Hhi ltac:(lia)).
    replace i with (Z.of_nat (Z.to_nat i)) in Hhi by lia.
    rewrite (less_than_at_nth _ _ _ _ Ey) in Hhi.
    apply negb_true_iff, Qle_bool_false in Hhi.
    apply Qlt_le_trans with y; [exact Hhi|].
    apply (Hasc (Z.to_nat i) j); [lia | assumption..].
Qed.

Lemma filter_all {A : Type} (f : A -> bool) l :
  (forall x, In x l -> f x = true) -> filter f l = l.
Proof.
  induction l as [|a l IH]; intros H; [reflexivity|]. simpl.
  rewrite H by now left. f_equal. apply IH. intros x Hx. apply H. now right.
Qed.

Lemma filter_none {A : Type} (f : A -> bool) l :
  (forall x, In x l -> f x = false) -> filter f l = [].
Proof.
  induction l as [|a l IH]; intros H; [reflexivity|]. simpl.
  rewrite H by now left. apply IH. intros x Hx. apply H. now right.
Qed.

(** A list split at [i] by a test has [i] elements that pass it. *)
Lemma filter_split_length {A : Type} (f : A -> bool) (l : list A) (i : nat) :
  (i <= List.length l)%nat ->
  (forall j x, (j < i)%nat -> nth_error l j = Some x -> f x = true) ->
  (forall j x, (i <= j)%nat -> nth_error l j = Some x -> f x = false) ->
  List.length (filter f l) = i.
Proof.
  intros Hi Hlo Hhi. rewrite <- (firstn_skipn i l), filter_app, length_app.
  rewrite filter_all, filter_none.
  - rewrite length_firstn. simpl. lia.
  - intros x Hx. apply In_nth_error in Hx as [j Hj].
    rewrite nth_error_skipn in Hj. eapply Hhi; [|exact Hj]. lia.
  - intros x Hx. apply In_nth_error in Hx as [j Hj].
    assert (j < i)%nat.
    { assert (j < List.length (firstn i l))%nat by (apply nth_error_Some; congruence).
      rewrite length_firstn in *. lia. }
    rewrite nth_error_firstn in Hj.
    destruct (Nat.ltb_spec j i); [|lia]. eapply Hlo; eassumption.
Qed.

Lemma bisect_count list num h :
  ascending list -> 0 <= h <= Z.of_nat (List.length list) ->
  bisect_loop (Z.to_nat h) list num 0 h =
  Some (Z.of_nat (List.length
          (filter (fun x => Qle_bool x num) (firstn (Z.to_nat h) list)))).
Proof.
  intros Hasc Hh.
  destruct (bisect_partition list num h Hasc Hh) as (i & Ei & Hb & Hlo & Hhi).
  rewrite Ei. f_equal.
  rewrite (filter_split_length _ _ (Z.to_nat i)); [lia | | |].
  - rewrite length_firstn. lia.
  - intros j x Hj Hx. rewrite nth_error_firstn in Hx.
    destruct (Nat.ltb_spec j (Z.to_nat h)); [|discriminate].
    apply Qle_bool_iff. apply (Hlo j); [lia | exact Hx].
  - intros j x Hj Hx. rewrite nth_error_firstn in Hx.
    destruct (Nat.ltb_spec j (Z.to_nat h)); [|discriminate].
    apply Qle_bool_false. apply (Hhi j); [lia | exact Hx].
Qed.

(** X2.  On an ascending list, with [high] within the list, [bisect]
    returns the place to the right of the elements that are at most
    [num]: before it every element is at most [num], from it on (below
    [high]) every element is greater, and the index is the number of
    elements among the first [high] that are at most [num]. *)
Theorem bisect_sorted (list : list Q) (num : Q) (high : option Z) :
  ascending list ->
  0 <= high_or_length list high <= Z.of_nat (List.length list) ->
  exists i,
    bisect list num high = Some i /\
    0 <= i <= high_or_length list high /\
    (forall j x, Z.of_nat j < i -> nth_error list j = Some x -> (x <= num)%Q) /\
    (forall j x,
        i <= Z.of_nat j < high_or_length list high ->
        nth_error list j = Some x -> (num < x)%Q) /\
    i = Z.of_nat (List.length
          (filter (fun x => Qle_bool x num)
                  (firstn (Z.to_nat (high_or_length list high)) list))).
Proof.
  intros Hasc Hh. unfold bisect. fold (high_or_length list high).
  set (h := high_or_length list high) in *.
  destruct (bisect_partition list num h Hasc Hh) as (i & Ei & Hb & Hlo & Hhi).
  exists i. split; [exact Ei|]. split; [exact Hb|]. split; [exact Hlo|].
  split; [exact Hhi|].
  pose proof (bisect_count list num h Hasc Hh) as Ec. congruence.
Qed.

Lemma bisect_sorted_witness :
  exists i,
    bisect [1; 3; 3; 7]%Q 3%Q None = Some i /\
    0 <= i <= 4 /\
    (forall j x, Z.of_nat j < i -> nth_error [1; 3; 3; 7]%Q j = Some x -> (x <= 3)%Q) /\
    (forall j x,
        i <= Z.of_nat j < 4 ->
        nth_error [1; 3; 3; 7]%Q j = Some x -> (3 < x)%Q) /\
    i = 3.
Proof.
  apply (bisect_sorted [1; 3; 3; 7]%Q 3%Q None).
  - intros [|[|[|[|i]]]] [|[|[|[|j]]]] x y Hij; simpl;
      try (destruct i; discriminate); try (destruct j; discriminate);
      try lia; intros [= <-] [= <-]; unfold Qle; simpl; lia.
  - simpl. lia.
Defined.

(** X3.  Inserting [num] at the index [bisect] returns keeps an ascending
    list ascending; the new element goes after the elements equal to it. *)
Theorem bisect_insert_ascending (list : list Q) (num : Q) :
  ascending list ->
  exists i,
    bisect list num None = Some i /\
    ascending (firstn (Z.to_nat i) list ++ num :: skipn (Z.to_nat i) list) /\
    (forall x, In x (skipn (Z.to_nat i) list) -> (num < x)%Q).
Proof.
  intros Hasc. unfold bisect.
  destruct (bisect_partition list num (Z.of_nat (List.length list)) Hasc ltac:(lia))
    as (i & Ei & Hb & Hlo & Hhi).
  exists i. split; [exact Ei|].
  assert (Hlen : List.length (firstn (Z.to_nat i) list) = Z.to_nat i)
    by (rewrite length_firstn; lia).
  assert (Hget : forall p x,
             nth_error (firstn (Z.to_nat i) list ++ num :: skipn (Z.to_nat i) list) p
               = Some x ->
             ((p < Z.to_nat i)%nat /\ nth_error list p = Some x) \/
             (p = Z.to_nat i /\ x = num) \/
             ((Z.to_nat i < p)%nat /\ nth_error list (p - 1) = Some x)).
  { intros p x Hp. destruct (Nat.lt_trichotomy p (Z.to_nat i)) as [H|[H|H]].
    - left. split; [exact H|]. rewrite nth_error_app1 in Hp by lia.
      rewrite nth_error_firstn in Hp. now destruct (Nat.ltb_spec p (Z.to_nat i)); [|lia].
    - right; left. split; [exact H|]. rewrite nth_error_app2 in Hp by lia.
      rewrite Hlen, H, Nat.sub_diag in Hp. simpl in Hp. congruence.
    - right; right. split; [exact H|]. rewrite nth_error_app2 in Hp by lia.
      rewrite Hlen in Hp. destruct (p - Z.to_nat i)%nat as [|k] eqn:Ek; [lia|].
      simpl in Hp. rewrite nth_error_skipn in Hp.
      now replace (p - 1)%nat with (Z.to_nat i + k)%nat by lia. }
  split.
  - intros p q x y Hpq Hx Hy.
    destruct (Hget _ _ Hx) as [[Hp Ex]|[[Hp ->]|[Hp Ex]]];
      destruct (Hget _ _ Hy) as [[Hq Ey]|[[Hq ->]|[Hq Ey]]]; try lia.
    + exact (Hasc p q x y Hpq Ex Ey).
    + apply (Hlo p); [lia | exact Ex].
    + apply (Hasc p (q - 1)%nat x y); [lia | assumption..].
    + apply Qle_refl.
    + apply Qlt_le_weak. apply (Hhi (q - 1)%nat); [|exact Ey].
      assert (q - 1 < List.length list)%nat by (apply nth_error_Some; congruence).
      lia.
    + apply (Hasc (p - 1)%nat (q - 1)%nat x y); [lia | assumption..].
  - intros x Hx. apply In_nth_error in Hx as [k Hk].
    rewrite nth_error_skipn in Hk. apply (Hhi (Z.to_nat i + k)%nat); [|exact Hk].
    assert (Z.to_nat i + k < List.length list)%nat by (apply nth_error_Some; congruence).
    lia.
Qed.

Lemma bisect_insert_ascending_witness :
  exists i,
    bisect [1; 3; 3; 7]%Q 3%Q None = Some i /\
    ascending (firstn (Z.to_nat i) [1; 3; 3; 7]%Q ++
               3%Q :: skipn (Z.to_nat i) [1; 3; 3; 7]%Q) /\
    (forall x, In x (skipn (Z.to_nat i) [1; 3; 3; 7]%Q) -> (3 < x)%Q).
Proof.
  apply (bisect_insert_ascending [1; 3; 3; 7]%Q 3%Q).
  intros [|[|[|[|i]]]] [|[|[|[|j]]]] x y Hij; simpl;
    try (destruct i; discriminate); try (destruct j; discriminate);
    try lia; intros [= <-] [= <-]; unfold Qle; simpl; lia.
Defined.

(** *** The scan of [move] and [bisect] *)

Lemma ascending_tail x l : ascending (x :: l) -> ascending l.
Proof. intros H i j a b Hij Ha Hb. exact (H (S i) (S j) a b ltac:(lia) Ha Hb). Qed.

Lemma ascending_head x l y : ascending (x :: l) -> In y l -> (x <= y)%Q.
Proof.
  intros H Hy. apply In_nth_error in Hy as [j Hj].
  exact (H 0%nat (S j) x y ltac:(lia) eq_refl Hj).
Qed.

Lemma ascending_cons x l :
  (forall y, In y l -> (x <= y)%Q) -> ascending l -> ascending (x :: l).
Proof.
  intros Hx Hl [|i] [|j] a b Hij Ha Hb; simpl in *; try lia.
  - injection Ha as <-. injection Hb as <-. apply Qle_refl.
  - injection Ha as <-. apply Hx. eapply nth_error_In, Hb.
  - exact (Hl i j a b ltac:(lia) Ha Hb).
Qed.

Lemma running_sums_ascending ws : forall acc,
  (forall w, In w ws -> 0 <= w) ->
  ascending (map inject_Z (Chain.running_sums acc ws)) /\
  (forall y, In y (map inject_Z (Chain.running_sums acc ws)) -> (inject_Z acc <= y)%Q).
Proof.
  induction ws as [|w ws IH]; intros acc Hpos; simpl.
  - split; [intros [|i] j x y _ H; discriminate | intros y []].
  - destruct (IH (acc + w) ltac:(intros; apply Hpos; now right)) as [Hasc Hge].
    assert (Hw : 0 <= w) by (apply Hpos; now left).
    split.
    + apply ascending_cons; assumption.
    + intros y [<-|Hy].
      * rewrite <- Zle_Qle. lia.
      * apply Qle_trans with (inject_Z (acc + w)); [|now apply Hge].
        rewrite <- Zle_Qle. lia.
Qed.

(** On an ascending list the scan stops after the elements that are at
    most [r]. *)
Lemma first_above_count r cum : forall k,
  ascending (map inject_Z cum) ->
  Chain.first_above r cum k =
  (k + List.length (filter (fun x => Qle_bool x r) (map inject_Z cum)))%nat.
Proof.
  induction cum as [|c cum IH]; intros k Hasc; simpl; [lia|].
  destruct (Qle_bool (inject_Z c) r) eqn:Ec.
  - rewrite IH by (eapply ascending_tail; exact Hasc). simpl. lia.
  - rewrite filter_none; [simpl; lia|].
    intros x Hx. apply Qle_bool_false. apply Qle_bool_false in Ec.
    eapply Qlt_le_trans; [exact Ec|]. eapply ascending_head; eassumption.
Qed.

Lemma length_running_sums ws : forall acc,
  List.length (Chain.running_sums acc ws) = List.length ws.
Proof. induction ws as [|w ws IH]; intros acc; simpl; auto. Qed.

Lemma randomIndex_bisect (ws : list Z) (random : Q) :
  (forall w, In w ws -> 0 <= w) ->
  bisect (map inject_Z (Chain.running_sums 0 ws))
         (random * inject_Z (fold_left Z.add ws 0)) None =
  Some (Z.of_nat (Chain.randomIndex ws random)).
Proof.
  intros Hpos. destruct (running_sums_ascending ws 0 Hpos) as [Hasc _].
  unfold bisect. rewrite bisect_count by (assumption || lia).
  unfold Chain.randomIndex. rewrite first_above_count by assumption.
  rewrite Nat2Z.id, firstn_all. reflexivity.
Qed.

(** X4.  The scan by which [move] picks its index is [bisect] on the
    cumulative counts: when no count is negative, [move] returns the
    choice at the index [bisect(cumulativeDistribution, r)]. *)
Theorem move_scan_is_bisect (this : Chain.t) (fromState : any) (state : FollowMap)
    (random : Q) :
  obj_get (createStateKey fromState) (Chain.model this) = Some state ->
  (forall kv, In kv state -> 0 <= count (snd kv)) ->
  exists i,
    bisect (map inject_Z (Chain.running_sums 0 (weights state)))
           (random * inject_Z (totalCount state)) None = Some i /\
    Chain.move this fromState random =
      index (map (fun kv => value (snd kv)) state) i.
Proof.
  intros Hstate Hpos.
  assert (Hw : forall w, In w (weights state) -> 0 <= w).
  { intros w Hin. apply in_map_iff in Hin as (kv & <- & Hkv). now apply Hpos. }
  exists (Z.of_nat (Chain.randomIndex (weights state) random)). split.
  - rewrite <- (randomIndex_bisect _ _ Hw). do 3 f_equal.
    unfold totalCount. rewrite fold_left_add_sum. lia.
  - unfold Chain.move. rewrite Hstate. unfold index.
    destruct (Z.ltb_spec (Z.of_nat (Chain.randomIndex (weights state) random)) 0);
      [lia|].
    now rewrite Nat2Z.id.
Qed.

Lemma move_scan_is_bisect_witness :
  exists i,
    bisect (map inject_Z (Chain.running_sums 0
              (weights [once (VStr "bar") 1; once (VStr "baz") 1])))
           ((1 # 2) * inject_Z (totalCount [once (VStr "bar") 1; once (VStr "baz") 1]))
           None = Some i /\
    Chain.move example_chain (VStr "foo") (1 # 2) =
      index (map (fun kv => value (snd kv))
               [once (VStr "bar") 1; once (VStr "baz") 1]) i.
Proof.
  apply (move_scan_is_bisect example_chain (VStr "foo")
           [once (VStr "bar") 1; once (VStr "baz") 1] (1 # 2)).
  - reflexivity.
  - intros kv [<-|[<-|[]]]; simpl; lia.
Defined.

(** ** Totals of the counts *)

Section ObjectSums.
Context {A : Type} (weight : A -> Z).

Lemma total_modify k (f : A -> A) (o : object A) a :
  obj_get k o = Some a ->
  sum (map (fun kv => weight (snd kv)) (obj_modify k f o)) =
  sum (map (fun kv => weight (snd kv)) o) - weight a + weight (f a).
Proof.
  induction o as [|[k0 a0] o IH]; simpl; [discriminate|].
  destruct (String.eqb_spec k0 k) as [->|Hne].
  - intros [= ->]. simpl. lia.
  - intros H. simpl. rewrite (IH H). lia.
Qed.

Lemma total_insert_index n k a (o : object A) :
  sum (map (fun kv => weight (snd kv)) (obj_insert_index n k a o)) =
  sum (map (fun kv => weight (snd kv)) o) + weight a.
Proof.
  induction o as [|[k0 a0] o IH]; simpl; [lia|].
  destruct (array_index k0) as [n0|]; [destruct (n <? n0)%N|]; simpl; lia.
Qed.

Lemma total_set_new k a (o : object A) :
  obj_get k o = None ->
  sum (map (fun kv => weight (snd kv)) (obj_set k a o)) =
  sum (map (fun kv => weight (snd kv)) o) + weight a.
Proof.
  intros H. unfold obj_set, obj_has. rewrite H.
  destruct (array_index k) as [n|]; [apply total_insert_index|].
  rewrite map_app. simpl.
  induction o as [|[k0 a0] o IH]; simpl in *; [lia|].
  destruct (String.eqb k0 k); [discriminate|]. rewrite (IH H). lia.
Qed.
End ObjectSums.

Lemma obj_modify_modify {A : Type} k (f g : A -> A) (o : object A) :
  obj_modify k f (obj_modify k g o) = obj_modify k (fun a => f (g a)) o.
Proof.
  induction o as [|[k0 a0] o IH]; simpl; [reflexivity|].
  destruct (String.eqb_spec k0 k) as [->|Hne]; simpl.
  - now rewrite String.eqb_refl.
  - destruct (String.eqb_spec k0 k); [contradiction|]. now rewrite IH.
Qed.

Lemma record_counted m sk f :
  Chain.record m sk f =
  obj_modify sk (counted f) (if obj_has sk m then m else obj_set sk [] m).
Proof. unfold Chain.record. now rewrite obj_modify_modify. Qed.

Lemma totalCount_counted f state : totalCount (counted f state) = totalCount state + 1.
Proof.
  unfold counted, totalCount, weights, obj_has.
  destruct (obj_get (followKey f) state) as [r|] eqn:Er.
  - rewrite (total_modify count _ _ _ r Er). simpl. lia.
  - rewrite (total_modify count _ _ _ {| value := f; count := 0 |})
      by apply obj_get_set_same.
    rewrite (total_set_new count _ _ _ Er). simpl. lia.
Qed.

Lemma total_at_record m sk f sk' :
  total_at (Chain.record m sk f) sk' =
  total_at m sk' + (if String.eqb sk sk' then 1 else 0).
Proof.
  rewrite record_counted. unfold total_at, obj_has. rewrite obj_get_modify.
  destruct (String.eqb_spec sk sk') as [<-|Hne].
  - destruct (obj_get sk m) as [st|] eqn:Est.
    + rewrite Est. simpl. apply totalCount_counted.
    + rewrite obj_get_set_same. simpl. rewrite totalCount_counted. reflexivity.
  - destruct (obj_get sk m) as [st|] eqn:Est; [lia|].
    rewrite obj_get_set. destruct (String.eqb_spec sk sk'); [contradiction|]. lia.
Qed.

Lemma grandTotal_record m sk f : grandTotal (Chain.record m sk f) = grandTotal m + 1.
Proof.
  rewrite record_counted. unfold grandTotal, obj_has.
  destruct (obj_get sk m) as [st|] eqn:Est.
  - rewrite (total_modify totalCount _ _ _ st Est), totalCount_counted. lia.
  - rewrite (total_modify totalCount _ _ _ []) by apply obj_get_set_same.
    rewrite (total_set_new totalCount _ _ _ Est), totalCount_counted.
    unfold totalCount at 2 3. simpl. lia.
Qed.

Lemma state_occurrences_snoc sk ws w :
  state_occurrences sk (ws ++ [w]) =
  state_occurrences sk ws +
  (if String.eqb (createStateKey (VArr (fst w))) sk then 1 else 0).
Proof.
  unfold state_occurrences. rewrite filter_app, length_app. cbn [filter].
  destruct (String.eqb (createStateKey (VArr (fst w))) sk); cbn [List.length]; lia.
Qed.

Lemma tally_totals ws : forall m,
  (forall sk, total_at (tally ws m) sk = total_at m sk + state_occurrences sk ws) /\
  grandTotal (tally ws m) = grandTotal m + Z.of_nat (List.length ws).
Proof.
  induction ws as [|w ws IH]; intros m.
  - split; [intros sk; unfold state_occurrences|]; simpl; lia.
  - destruct (IH (Chain.record m (createStateKey (VArr (fst w))) (snd w)))
      as [H1 H2].
    change (tally (w :: ws) m)
      with (tally ws (Chain.record m (createStateKey (VArr (fst w))) (snd w))).
    split.
    + intros sk. rewrite H1, total_at_record.
      unfold state_occurrences. cbn [filter].
      destruct (String.eqb (createStateKey (VArr (fst w))) sk); cbn [List.length]; lia.
    + rewrite H2, grandTotal_record. simpl List.length. lia.
Qed.

Lemma length_windows n run : List.length (windows n run) = (List.length run + 1)%nat.
Proof. unfold windows. now rewrite length_map, length_seq. Qed.

Lemma length_corpus_windows n runs :
  List.length (corpus_windows n runs) =
  (List.length (List.concat runs) + List.length runs)%nat.
Proof.
  unfold corpus_windows. induction runs as [|run runs IH]; simpl; [reflexivity|].
  rewrite !length_app, IH, length_windows. lia.
Qed.

(** X5.  In the table [build] returns, the counts under a state key add
    up to the number of windows that start from a state with that key:
    every time the state was seen, followed by a symbol or by [END]. *)
Theorem build_state_totals (runs : list (list any)) (n : Z) :
  1 <= n ->
  exists m,
    Chain.build (VArr (map VArr runs)) n = Returns m /\
    forall stateKey,
      total_at m stateKey =
      state_occurrences stateKey (corpus_windows (Z.to_nat n) runs).
Proof.
  intros Hn. eexists. split; [now apply build_tally|].
  intros sk. now rewrite (proj1 (tally_totals _ [])).
Qed.

Lemma build_state_totals_witness :
  exists m,
    Chain.build (VArr (map VArr example_corpus)) 2 = Returns m /\
    forall stateKey,
      total_at m stateKey =
      state_occurrences stateKey (corpus_windows (Z.to_nat 2) example_corpus).
Proof. apply (build_state_totals example_corpus 2). lia. Defined.

(** X6.  All the counts of the table [build] returns add up to the number
    of symbols of the corpus plus the number of its runs: one window for
    every symbol, and one for the [END] of every run. *)
Theorem build_grand_total (runs : list (list any)) (n : Z) :
  1 <= n ->
  exists m,
    Chain.build (VArr (map VArr runs)) n = Returns m /\
    grandTotal m = Z.of_nat (List.length (List.concat runs) + List.length runs).
Proof.
  intros Hn. eexists. split; [now apply build_tally|].
  rewrite (proj2 (tally_totals _ [])), length_corpus_windows. reflexivity.
Qed.

Lemma build_grand_total_witness :
  exists m,
    Chain.build (VArr (map VArr example_corpus)) 2 = Returns m /\
    grandTotal m = 10.
Proof. apply (build_grand_total example_corpus 2). lia. Defined.

(** ** Counts of joined and reordered corpora *)

Lemma build_count_at (runs : list (list any)) (n : Z) :
  1 <= n ->
  exists m,
    Chain.build (VArr (map VArr runs)) n = Returns m /\
    forall sk fk,
      count_at m sk fk = keyed_occurrences sk fk (corpus_windows (Z.to_nat n) runs).
Proof.
  intros Hn. eexists. split; [now apply build_tally|].
  pose proof (tallies_tally (corpus_windows (Z.to_nat n) runs) [] [] tallies_nil)
    as Ht. simpl in Ht.
  intros sk fk. specialize (Ht sk fk). unfold count_at.
  destruct (transition _ sk fk); [tauto | congruence].
Qed.

Lemma keyed_occurrences_app sk fk ws1 ws2 :
  keyed_occurrences sk fk (ws1 ++ ws2) =
  keyed_occurrences sk fk ws1 + keyed_occurrences sk fk ws2.
Proof. unfold keyed_occurrences. rewrite filter_app, length_app. lia. Qed.

Lemma keyed_occurrences_permutation sk fk (runs runs' : list (list any)) n :
  Permutation runs runs' ->
  keyed_occurrences sk fk (corpus_windows n runs) =
  keyed_occurrences sk fk (corpus_windows n runs').
Proof.
  unfold corpus_windows. induction 1 as [|run l l' _ IH|x y l|l l' l'' _ IH1 _ IH2].
  - reflexivity.
  - simpl. rewrite !keyed_occurrences_app. lia.
  - simpl. rewrite !keyed_occurrences_app. lia.
  - congruence.
Qed.

(** X7.  The counts of a corpus made of two corpora are the sums of
    their counts, key by key; and the counts do not depend on the order of
    the runs. *)
Theorem build_counts_add (n : Z) :
  1 <= n ->
  (forall runs1 runs2 : list (list any),
      exists m1 m2 m,
        Chain.build (VArr (map VArr runs1)) n = Returns m1 /\
        Chain.build (VArr (map VArr runs2)) n = Returns m2 /\
        Chain.build (VArr (map VArr (runs1 ++ runs2))) n = Returns m /\
        forall stateKey key,
          count_at m stateKey key =
          count_at m1 stateKey key + count_at m2 stateKey key) /\
  (forall runs runs' : list (list any),
      Permutation runs runs' ->
      exists m m',
        Chain.build (VArr (map VArr runs)) n = Returns m /\
        Chain.build (VArr (map VArr runs')) n = Returns m' /\
        forall stateKey key, count_at m stateKey key = count_at m' stateKey key).
Proof.
  intros Hn. split.
  - intros runs1 runs2.
    destruct (build_count_at runs1 n Hn) as (m1 & E1 & H1).
    destruct (build_count_at runs2 n Hn) as (m2 & E2 & H2).
    destruct (build_count_at (runs1 ++ runs2) n Hn) as (m & E & H).
    exists m1, m2, m. repeat split; try assumption.
    intros sk fk. rewrite H, H1, H2. unfold corpus_windows.
    now rewrite flat_map_app, keyed_occurrences_app.
  - intros runs runs' Hp.
    destruct (build_count_at runs n Hn) as (m & E & H).
    destruct (build_count_at runs' n Hn) as (m' & E' & H').
    exists m, m'. repeat split; try assumption.
    intros sk fk. rewrite H, H'. now apply keyed_occurrences_permutation.
Qed.

Lemma build_counts_add_witness :
  exists m1 m2 m,
    Chain.build (VArr (map VArr [[VStr "a"; VStr "b"]])) 1 = Returns m1 /\
    Chain.build (VArr (map VArr [[VStr "a"; VStr "c"]])) 1 = Returns m2 /\
    Chain.build (VArr (map VArr ([[VStr "a"; VStr "b"]] ++ [[VStr "a"; VStr "c"]]))) 1
      = Returns m /\
    forall stateKey key,
      count_at m stateKey key = count_at m1 stateKey key + count_at m2 stateKey key.
Proof.
  apply (proj1 (build_counts_add 1 ltac:(lia))).
Defined.

(** ** Moves on a table that [build] returned *)

Lemma keys_obj_set {A : Type} k (a : A) (o : object A) k' :
  In k' (keys (obj_set k a o)) -> k' = k \/ In k' (keys o).
Proof.
  unfold keys. intros H. apply in_map_iff in H as ([k0 a0] & <- & Hin).
  apply In_obj_set in Hin as [[= -> ->]|Hin]; [now left|].
  right. apply (in_map fst _ _ Hin).
Qed.

Lemma keys_record m sk f k :
  In k (keys (Chain.record m sk f)) -> k = sk \/ In k (keys m).
Proof.
  unfold Chain.record. rewrite !keys_obj_modify.
  destruct (obj_has sk m); [now right|]. apply keys_obj_set.
Qed.

Lemma keys_tally ws : forall m k,
  In k (keys (tally ws m)) ->
  In k (keys m) \/ exists w, In w ws /\ createStateKey (VArr (fst w)) = k.
Proof.
  induction ws as [|w ws IH]; intros m k Hk; [now left|].
  apply IH in Hk as [Hk|(w' & Hw' & E)].
  - apply keys_record in Hk as [->|Hk]; [right; exists w; split; [now left | reflexivity] | now left].
  - right. exists w'. split; [now right | exact E].
Qed.

(** What the table of a corpus holds under a state key: a follow set
    in property order whose counts add up to the number of windows from
    that state, each record with a window it comes from. *)
Lemma built_state runs n m sk state :
  1 <= n -> Chain.build (VArr (map VArr runs)) n = Returns m ->
  obj_get sk m = Some state ->
  let ws := corpus_windows (Z.to_nat n) runs in
  1 <= totalCount state /\
  forall fk r,
    In (fk, r) state ->
    1 <= count r /\
    exists w, In w ws /\ createStateKey (VArr (fst w)) = sk /\ value r = snd w.
Proof.
  intros Hn. rewrite build_tally by assumption. intros [= <-] Hget ws. fold ws in Hget.
  split.
  - pose proof (proj1 (tally_totals ws []) sk) as Ht.
    unfold total_at in Ht. rewrite Hget in Ht. simpl in Ht. rewrite Ht.
    assert (Hk : In sk (keys (tally ws []))).
    { apply obj_get_In in Hget. apply (in_map fst _ _ Hget). }
    apply keys_tally in Hk as [[]|(w & Hw & E)].
    unfold state_occurrences. apply (in_split w) in Hw as (l1 & l2 & ->).
    rewrite filter_app. cbn [filter]. rewrite E, String.eqb_refl, length_app.
    cbn [List.length]. lia.
  - intros fk r Hr.
    assert (Ho : ordered_table (fun _ => True) (tally ws [])).
    { apply ordered_table_tally; [now apply Forall_forall|].
      split; [reflexivity | intros k a []]. }
    destruct Ho as [Hok Hent].
    destruct (Hent _ _ (obj_get_In _ _ _ Hget)) as (_ & Hst & _).
    pose proof (tallies_tally ws [] [] tallies_nil sk fk) as Ht. simpl in Ht.
    unfold transition in Ht. rewrite Hget, (obj_get_of_In _ _ _ Hst Hr) in Ht.
    destruct Ht as (Hc & w & Hw & H1 & H2 & H3). split; [|eauto].
    rewrite Hc. unfold keyed_occurrences.
    pose proof Hw as Hw'. apply (in_split w) in Hw' as (l1 & l2 & E).
    rewrite E, filter_app. cbn [filter]. rewrite H1, H2, !String.eqb_refl.
    cbn [andb]. rewrite length_app. cbn [List.length]. lia.
Qed.

(** The entry [move] settles on, for a draw in [0, 1) and counts that
    are not negative and not all zero. *)
Lemma move_selects (this : Chain.t) fromState state (random : Q) :
  obj_get (createStateKey fromState) (Chain.model this) = Some state ->
  (forall kv, In kv state -> 0 <= count (snd kv)) ->
  (0 <= random)%Q -> (random < 1)%Q ->
  0 < totalCount state ->
  exists key r,
    In (key, r) state /\ 1 <= count r /\
    Chain.move this fromState random = value r.
Proof.
  intros Hstate Hpos H0 H1 Htot.
  destruct (randomIndex_spec state random) as (Hb & Hle & Hlt).
  cbv zeta in Hle, Hlt.
  set (i := Chain.randomIndex (weights state) random) in *.
  assert (Hr0 : (0 <= random * inject_Z (totalCount state))%Q).
  { apply Qmult_le_0_compat; [assumption|]. change 0%Q with (inject_Z 0).
    rewrite <- Zle_Qle. lia. }
  assert (Hr1 : (random * inject_Z (totalCount state) < inject_Z (totalCount state))%Q).
  { rewrite <- (Qmult_1_l (inject_Z (totalCount state))) at 2.
    apply Qmult_lt_compat_r; [|assumption]. change 0%Q with (inject_Z 0).
    rewrite <- Zlt_Qlt. lia. }
  set (r := (random * inject_Z (totalCount state))%Q) in *. clearbody r.
  assert (Hi : (i < List.length state)%nat).
  { destruct (Nat.lt_ge_cases i (List.length state)) as [|Hge]; [assumption|].
    exfalso. destruct (List.length state) as [|k] eqn:El.
    - destruct state; [|discriminate]. unfold totalCount in Htot. simpl in Htot. lia.
    - specialize (Hle k ltac:(lia)). rewrite before_full in Hle by lia. lra. }
  destruct (nth_error state i) as [[key rec]|] eqn:En.
  2:{ apply nth_error_None in En. lia. }
  exists key, rec. split; [eapply nth_error_In; exact En|]. split.
  - specialize (Hlt Hi). rewrite (before_S _ _ _ _ En) in Hlt.
    assert (Hlo : (inject_Z (before state i) <= r)%Q).
    { destruct i as [|i']; [unfold before; simpl; exact Hr0 | apply Hle; lia]. }
    assert (Hz : (inject_Z (before state i) < inject_Z (before state i + count rec))%Q)
      by lra.
    rewrite <- Zlt_Qlt in Hz. lia.
  - unfold Chain.move. rewrite Hstate. fold (weights state). fold i.
    erewrite nth_error_nth; [reflexivity|]. rewrite nth_error_map, En. reflexivity.
Qed.

(** X8.  [move] never picks a record without weight.  For a draw in
    [0, 1) on a follow set whose counts are not negative: when the counts
    are all zero (or the set is empty) [move] returns [undefined], and
    otherwise it returns the value of a record whose count is at least
    one. *)
Theorem move_positive_count (this : Chain.t) (fromState : any) (state : FollowMap)
    (random : Q) :
  obj_get (createStateKey fromState) (Chain.model this) = Some state ->
  (forall kv, In kv state -> 0 <= count (snd kv)) ->
  (0 <= random)%Q -> (random < 1)%Q ->
  (totalCount state = 0 -> Chain.move this fromState random = VUndefined) /\
  (0 < totalCount state ->
   exists key r,
     In (key, r) state /\ 1 <= count r /\
     Chain.move this fromState random = value r).
Proof.
  intros Hstate Hpos H0 H1. split; [|now apply move_selects].
  intros Htot. unfold Chain.move. rewrite Hstate. fold (weights state).
  destruct (randomIndex_spec state random) as (Hb & _ & Hlt).
  cbv zeta in Hlt. rewrite Htot in Hlt.
  set (i := Chain.randomIndex (weights state) random) in *.
  apply nth_overflow. rewrite length_map.
  destruct (Nat.lt_ge_cases i (List.length state)) as [Hi|]; [|lia].
  exfalso. specialize (Hlt Hi).
  pose proof (before_monotone state Hpos (S i) (List.length state) ltac:(lia)) as Hm.
  rewrite (before_full state (List.length state)), Htot in Hm by lia.
  pose proof (before_monotone state Hpos 0%nat (S i) ltac:(lia)) as Hm0.
  change (before state 0) with 0 in Hm0.
  assert (E : before state (S i) = 0) by lia. rewrite E in Hlt.
  change (inject_Z 0) with 0%Q in Hlt. lra.
Qed.

Lemma move_positive_count_witness :
  (totalCount [once (VStr "bar") 1; once (VStr "baz") 1] = 0 ->
   Chain.move example_chain (VStr "foo") (1 # 2) = VUndefined) /\
  (0 < totalCount [once (VStr "bar") 1; once (VStr "baz") 1] ->
   exists key r,
     In (key, r) [once (VStr "bar") 1; once (VStr "baz") 1] /\ 1 <= count r /\
     Chain.move example_chain (VStr "foo") (1 # 2) = value r).
Proof.
  apply (move_positive_count example_chain (VStr "foo")
           [once (VStr "bar") 1; once (VStr "baz") 1] (1 # 2)).
  - reflexivity.
  - intros kv [<-|[<-|[]]]; simpl; lia.
  - unfold Qle; simpl; lia.
  - unfold Qlt; simpl; lia.
Defined.

(** The table of a corpus has an entry exactly for the keys of the
    states its windows start from. *)
Lemma built_state_present runs n m stateKey :
  1 <= n -> Chain.build (VArr (map VArr runs)) n = Returns m ->
  (obj_get stateKey m <> None <->
   exists w, In w (corpus_windows (Z.to_nat n) runs) /\
             createStateKey (VArr (fst w)) = stateKey).
Proof.
  intros Hn Hb. pose proof Hb as Hb'. rewrite build_tally in Hb' by assumption.
  injection Hb' as Em. split.
  - intros Hget. destruct (obj_get stateKey m) as [state|] eqn:Es; [|congruence].
    assert (Hk : In stateKey (keys m)).
    { apply obj_get_In in Es. apply (in_map fst _ _ Es). }
    rewrite <- Em in Hk. apply keys_tally in Hk as [[]|Hw]. exact Hw.
  - intros (w & Hw & E) Hnone.
    pose proof (proj1 (tally_totals (corpus_windows (Z.to_nat n) runs) []) stateKey)
      as Ht.
    rewrite Em in Ht. unfold total_at in Ht. rewrite Hnone in Ht. simpl in Ht.
    unfold state_occurrences in Ht. apply (in_split w) in Hw as (l1 & l2 & El).
    rewrite El, filter_app in Ht. cbn [filter] in Ht.
    rewrite E, String.eqb_refl, length_app in Ht. cbn [List.length] in Ht. lia.
Qed.

(** A move on the table of a corpus, for a draw in [0, 1): nothing when
    no window starts from a state with that key, else the symbol of a
    window that does. *)
Lemma built_move runs n c fromState (random : Q) :
  1 <= n -> Chain.build (VArr (map VArr runs)) n = Returns (Chain.model c) ->
  (0 <= random)%Q -> (random < 1)%Q ->
  let ws := corpus_windows (Z.to_nat n) runs in
  (obj_get (createStateKey fromState) (Chain.model c) = None /\
   (forall w, In w ws -> createStateKey (VArr (fst w)) <> createStateKey fromState) /\
   Chain.move c fromState random = VUndefined) \/
  (exists w, In w ws /\
             createStateKey (VArr (fst w)) = createStateKey fromState /\
             Chain.move c fromState random = snd w).
Proof.
  intros Hn Hb H0 H1 ws.
  destruct (obj_get (createStateKey fromState) (Chain.model c)) as [state|] eqn:Es.
  - right. destruct (built_state runs n _ _ state Hn Hb Es) as [Htot Hrec].
    destruct (move_selects c fromState state random Es) as (key & r & Hin & _ & Hm);
      try assumption; try lia.
    { intros [k r] Hkv. destruct (Hrec _ _ Hkv) as [Hc _]. simpl. lia. }
    destruct (Hrec _ _ Hin) as (_ & w & Hw & E1 & E2).
    exists w. repeat split; try assumption. congruence.
  - left. split; [reflexivity|]. split.
    + intros w Hw E.
      pose proof (proj1 (tally_totals ws []) (createStateKey fromState)) as Ht.
      rewrite build_tally in Hb by assumption. injection Hb as Hb. fold ws in Hb.
      rewrite Hb in Ht. unfold total_at in Ht. rewrite Es in Ht. simpl in Ht.
      unfold state_occurrences in Ht. apply (in_split w) in Hw as (l1 & l2 & El).
      rewrite El, filter_app in Ht. cbn [filter] in Ht.
      rewrite E, String.eqb_refl, length_app in Ht. cbn [List.length] in Ht. lia.
    + unfold Chain.move. now rewrite Es.
Qed.

(** X9.  On a chain built from a corpus of symbols that JSON can
    represent, a move from a state that occurs in the corpus returns, for
    every draw in [0, 1), a symbol (or [END]) that follows this state
    somewhere in the corpus; a move from a state that does not occur
    returns [undefined]. *)
Theorem move_follows_corpus (runs : list (list any)) (n : Z) (c : Chain.t)
    (state : list any) (random : Q) :
  1 <= n ->
  forallb (forallb representable) runs = true ->
  Chain.constructor (VArr (map VArr runs)) (VNum (Int n)) = Returns c ->
  forallb representable state = true ->
  (0 <= random)%Q -> (random < 1)%Q ->
  let ws := corpus_windows (Z.to_nat n) runs in
  ((exists follow, In (state, follow) ws) ->
   In (state, Chain.move c (VArr state) random) ws) /\
  ((forall follow, ~ In (state, follow) ws) ->
   Chain.move c (VArr state) random = VUndefined).
Proof.
  intros Hn Hrep Hc Hst H0 H1 ws.
  destruct (constructor_build runs n c Hn Hc) as [_ Hb].
  pose proof (windows_representable (Z.to_nat n) runs Hrep) as Hws.
  fold ws in Hws. rewrite forallb_forall in Hws.
  assert (Hkey : forall w, In w ws ->
            createStateKey (VArr (fst w)) = createStateKey (VArr state) ->
            fst w = state).
  { intros w Hw E. specialize (Hws _ Hw). unfold representable_window in Hws.
    apply andb_prop in Hws as [Hf _]. now apply createStateKey_injective. }
  destruct (built_move runs n c (VArr state) random Hn Hb H0 H1)
    as [(_ & Hno & Hm)|(w & Hw & E & Hm)].
  - split; [|intros _; exact Hm].
    intros [f Hf]. exfalso. exact (Hno _ Hf eq_refl).
  - pose proof (Hkey _ Hw E) as Efst. split.
    + intros _. rewrite Hm, <- Efst. now destruct w.
    + intros Hnone. exfalso. apply (Hnone (snd w)). rewrite <- Efst. now destruct w.
Qed.

Lemma move_follows_corpus_witness :
  In ([VStr BEGIN; VStr "foo"],
      Chain.move example_chain2 (VArr [VStr BEGIN; VStr "foo"]) (1 # 2))
     (corpus_windows 2 example_corpus).
Proof.
  apply (proj1 (move_follows_corpus example_corpus 2 example_chain2
                  [VStr BEGIN; VStr "foo"] (1 # 2)
                  ltac:(lia) eq_refl eq_refl eq_refl
                  ltac:(unfold Qle; simpl; lia) ltac:(unfold Qlt; simpl; lia))).
  exists (VStr "bar"). vm_compute. tauto.
Defined.

(** ** Walks on a chain built from a corpus *)

Lemma firstn_succ_nth {A : Type} (d : A) : forall (k : nat) (l : list A),
  (k < List.length l)%nat -> firstn (S k) l = firstn k l ++ [nth k l d].
Proof.
  induction k as [|k IH]; intros [|x l] Hk; simpl in *; try lia; [reflexivity|].
  f_equal. apply IH. lia.
Qed.

Lemma firstn_tl {A : Type} (d : A) (n : nat) (l : list A) :
  (1 <= n < List.length l)%nat ->
  firstn n (tl l) = tl (firstn n l) ++ [nth n l d].
Proof.
  intros Hn. destruct l as [|x l]; simpl in *; [lia|].
  destruct n as [|k]; [lia|]. simpl. apply firstn_succ_nth. lia.
Qed.

Lemma skipn_succ_tl {A : Type} : forall (i : nat) (l : list A),
  skipn (S i) l = tl (skipn i l).
Proof.
  induction i as [|i IH]; intros [|x l]; try reflexivity.
  change (skipn (S (S i)) (x :: l)) with (skipn (S i) l). now rewrite IH.
Qed.

Lemma nth_skipn {A : Type} (d : A) : forall (i k : nat) (l : list A),
  nth k (skipn i l) d = nth (i + k) l d.
Proof.
  induction i as [|i IH]; intros k [|x l]; simpl; try reflexivity.
  - now destruct k.
  - apply IH.
Qed.

(** The state of the window after a window. *)
Lemma window_next {A : Type} (d : A) (n i : nat) (l : list A) :
  (1 <= n)%nat -> (i + n < List.length l)%nat ->
  firstn n (skipn (S i) l) = tl (firstn n (skipn i l)) ++ [nth (i + n) l d].
Proof.
  intros Hn Hi. rewrite skipn_succ_tl, (firstn_tl d), nth_skipn; [reflexivity|].
  rewrite length_skipn. lia.
Qed.

Lemma in_windows n runs st f :
  In (st, f) (corpus_windows n runs) <->
  exists run i,
    In run runs /\ (i <= List.length run)%nat /\
    st = firstn n (skipn i (padded n run)) /\
    f = nth (i + n) (padded n run) VUndefined.
Proof.
  unfold corpus_windows, windows. rewrite in_flat_map. split.
  - intros (run & Hrun & Hw). apply in_map_iff in Hw as (i & [= <- <-] & Hi).
    apply in_seq in Hi. exists run, i. repeat split; try assumption. lia.
  - intros (run & i & Hrun & Hi & -> & ->). exists run. split; [assumption|].
    apply in_map_iff. exists i. split; [reflexivity|]. apply in_seq. lia.
Qed.

Lemma padded_end n run :
  nth (List.length run + n) (padded n run) VUndefined = VStr END.
Proof.
  unfold padded. rewrite app_nth2; rewrite repeat_length; [|lia].
  replace (List.length run + n - n)%nat with (List.length run) by lia.
  rewrite app_nth2, Nat.sub_diag; [reflexivity | lia].
Qed.

Lemma padded_symbol n run i :
  (i < List.length run)%nat ->
  nth (i + n) (padded n run) VUndefined = nth i run VUndefined.
Proof.
  intros Hi. unfold padded. rewrite app_nth2; rewrite repeat_length; [|lia].
  replace (i + n - n)%nat with i by lia. now rewrite app_nth1.
Qed.

Lemma window_state_length n runs st f :
  In (st, f) (corpus_windows n runs) -> List.length st = n.
Proof.
  rewrite in_windows. intros (run & i & _ & Hi & -> & _).
  rewrite length_firstn, length_skipn, length_padded. lia.
Qed.

Lemma next_state_occurs n runs st v :
  (1 <= n)%nat -> In (st, v) (corpus_windows n runs) -> v <> VStr END ->
  exists f, In (tl st ++ [v], f) (corpus_windows n runs).
Proof.
  intros Hn Hin Hv. apply in_windows in Hin as (run & i & Hrun & Hi & -> & ->).
  assert (Hlt : (i < List.length run)%nat).
  { destruct (Nat.eq_dec i (List.length run)) as [->|]; [|lia].
    now rewrite padded_end in Hv. }
  exists (nth (S i + n) (padded n run) VUndefined). apply in_windows.
  exists run, (S i). repeat split; try assumption; try lia.
  symmetry. apply window_next; [assumption|]. rewrite length_padded. lia.
Qed.

Lemma built_move_occurs runs n c state (random : Q) :
  1 <= n ->
  forallb (forallb representable) runs = true ->
  Chain.build (VArr (map VArr runs)) n = Returns (Chain.model c) ->
  forallb representable state = true ->
  (0 <= random)%Q -> (random < 1)%Q ->
  (exists follow, In (state, follow) (corpus_windows (Z.to_nat n) runs)) ->
  In (state, Chain.move c (VArr state) random) (corpus_windows (Z.to_nat n) runs).
Proof.
  intros Hn Hrep Hb Hst H0 H1 [f Hf].
  pose proof (windows_representable (Z.to_nat n) runs Hrep) as Hws.
  rewrite forallb_forall in Hws.
  destruct (built_move runs n c (VArr state) random Hn Hb H0 H1)
    as [(_ & Hno & _)|(w & Hw & E & Hm)].
  - exfalso. exact (Hno _ Hf eq_refl).
  - specialize (Hws _ Hw). unfold representable_window in Hws.
    apply andb_prop in Hws as [Hfst _].
    apply createStateKey_injective in E; [|assumption..].
    rewrite Hm, <- E. now destruct w.
Qed.

Lemma window_follow_representable n runs st f :
  forallb (forallb representable) runs = true ->
  In (st, f) (corpus_windows n runs) ->
  forallb representable st = true /\ representable f = true.
Proof.
  intros Hrep Hin. pose proof (windows_representable n runs Hrep) as Hws.
  rewrite forallb_forall in Hws. specialize (Hws _ Hin).
  now apply andb_prop in Hws.
Qed.

(** The rounds of [walk] on a state that occurs in the corpus: every
    step follows, in the corpus, the state it was drawn from, and the
    loop is left on [END] alone. *)
Lemma walk_loop_windows runs n c :
  1 <= n ->
  forallb (forallb representable) runs = true ->
  Chain.build (VArr (map VArr runs)) n = Returns (Chain.model c) ->
  let ws := corpus_windows (Z.to_nat n) runs in
  forall draws h p steps exited steps' h',
    Forall (fun random : Q => (0 <= random)%Q /\ (random < 1)%Q) draws ->
    (p < List.length h)%nat ->
    (exists f, In (Chain.deref h p, f) ws) ->
    Chain.walk_loop c draws h p steps = (exited, steps', h') ->
    exists new,
      steps' = steps ++ new /\
      Forall (fun v => Chain.stops v = false) new /\
      (forall i, (i < List.length new)%nat ->
         In (firstn (Z.to_nat n) (skipn i (Chain.deref h p ++ new)),
             nth i new VUndefined) ws) /\
      (exited = true ->
       In (skipn (List.length new) (Chain.deref h p ++ new), VStr END) ws).
Proof.
  intros Hn Hrep Hb ws.
  assert (Hpresent : forall st, (exists f, In (st, f) ws) ->
                               obj_get (createStateKey (VArr st)) (Chain.model c) <> None).
  { intros st [f Hf]. apply (built_state_present runs n _ _ Hn Hb).
    now exists (st, f). }
  induction draws as [|random draws IH];
    intros h p steps exited steps' h' Hdraws Hp Hocc.
  - rewrite walk_loop_nil. specialize (Hpresent _ Hocc).
    destruct (obj_get _ (Chain.model c)); [|congruence].
    intros [= <- <- <-]. exists []. rewrite List.app_nil_r.
    repeat split; [constructor | simpl; lia | discriminate].
  - rewrite walk_loop_cons. cbv zeta.
    inversion Hdraws as [|? ? [H0 H1] Hrest]; subst.
    set (st := Chain.deref h p) in *.
    assert (Hlen : List.length st = Z.to_nat n)
      by (destruct Hocc as [f Hf]; exact (window_state_length _ _ _ _ Hf)).
    assert (Hst : forallb representable st = true)
      by (destruct Hocc as [f Hf];
          exact (proj1 (window_follow_representable _ _ _ _ Hrep Hf))).
    pose proof (built_move_occurs runs n c st random Hn Hrep Hb Hst H0 H1 Hocc)
      as Hmove.
    set (v := Chain.move c (VArr st) random) in *.
    destruct (window_follow_representable _ _ _ _ Hrep Hmove) as [_ Hv].
    destruct (Chain.stops v) eqn:Hstop.
    + intros [= <- <- <-]. exists []. rewrite List.app_nil_r.
      repeat split; [constructor | simpl; lia |]. intros _. simpl.
      apply stops_spec in Hstop as [E|E]; [rewrite E in Hv; discriminate|].
      rewrite List.app_nil_r, <- E. exact Hmove.
    + intros Hloop.
      assert (Hne : v <> VStr END).
      { intros E. rewrite E in Hstop. discriminate. }
      apply IH in Hloop; [|assumption | now rewrite length_store |].
      2:{ rewrite deref_store_same by assumption.
          apply next_state_occurs; [lia | assumption..]. }
      rewrite deref_store_same in Hloop by assumption.
      destruct Hloop as (new & -> & Hnew & Hwin & Hexit).
      exists (v :: new). rewrite <- List.app_assoc.
      split; [reflexivity|]. split; [now constructor|].
      assert (Hshift : forall k,
                skipn (S k) (st ++ v :: new) = skipn k ((tl st ++ [v]) ++ new)).
      { intros k. destruct st as [|x t]; [simpl in Hlen; lia|].
        simpl. now rewrite <- List.app_assoc. }
      split.
      * intros [|k] Hk.
        -- simpl. rewrite firstn_app, Hlen, Nat.sub_diag. simpl.
           rewrite List.app_nil_r, <- Hlen, firstn_all. exact Hmove.
        -- rewrite Hshift. simpl nth. apply Hwin. simpl in Hk. lia.
      * intros He. simpl List.length. rewrite Hshift. now apply Hexit.
Qed.

Lemma begin_state_occurs n runs :
  runs <> [] ->
  exists f, In (repeat (VStr BEGIN) n, f) (corpus_windows n runs).
Proof.
  destruct runs as [|run runs]; [congruence|]. intros _.
  exists (nth (0 + n) (padded n run) VUndefined). apply in_windows.
  exists run, 0%nat. repeat split; [now left | lia |].
  unfold padded. simpl skipn.
  rewrite firstn_app, repeat_length, Nat.sub_diag. simpl.
  rewrite List.app_nil_r. symmetry. apply firstn_all2. now rewrite repeat_length.
Qed.

Lemma walk_omitted c h draws steps h' :
  Chain.walk c h Chain.Omitted draws = Some (Returns steps, h') ->
  Chain.walk_loop c draws (h ++ [createBeginState (Chain.stateSize c)])
    (List.length h) [] = (true, steps, h').
Proof.
  unfold Chain.walk, Chain.alloc.
  destruct (Chain.walk_loop c draws _ _ []) as [[[|] steps0] h1]; [|discriminate].
  now intros [= <- <-].
Qed.

Lemma deref_fresh h a : Chain.deref (h ++ [a]) (List.length h) = a.
Proof. unfold Chain.deref. apply nth_middle. Qed.

(** On the chain of the empty corpus [walk()] returns the empty run,
    without a draw. *)
Lemma walk_empty_corpus n c h draws :
  1 <= n ->
  Chain.constructor (VArr (map VArr [])) (VNum (Int n)) = Returns c ->
  Chain.walk c h Chain.Omitted draws =
  Some (Returns [], h ++ [createBeginState n]).
Proof.
  intros Hn Hc. destruct (constructor_build [] n c Hn Hc) as [Hsize Hb].
  simpl in Hb. injection Hb as Hb.
  unfold Chain.walk, Chain.alloc. rewrite Hsize.
  rewrite walk_loop_absent; [reflexivity|]. now rewrite <- Hb.
Qed.

(** The walk from the begin state on the chain of a corpus that is not
    empty. *)
Lemma walk_trace runs n c h draws steps h' :
  1 <= n ->
  forallb (forallb representable) runs = true ->
  Chain.constructor (VArr (map VArr runs)) (VNum (Int n)) = Returns c ->
  Forall (fun random : Q => (0 <= random)%Q /\ (random < 1)%Q) draws ->
  Chain.walk c h Chain.Omitted draws = Some (Returns steps, h') ->
  runs <> [] ->
  let ws := corpus_windows (Z.to_nat n) runs in
  let start := repeat (VStr BEGIN) (Z.to_nat n) in
  Forall (fun v => Chain.stops v = false) steps /\
  (forall i, (i < List.length steps)%nat ->
     In (firstn (Z.to_nat n) (skipn i (start ++ steps)), nth i steps VUndefined) ws) /\
  In (skipn (List.length steps) (start ++ steps), VStr END) ws.
Proof.
  intros Hn Hrep Hc Hdraws Hwalk Hne ws start.
  destruct (constructor_build runs n c Hn Hc) as [Hsize Hb].
  apply walk_omitted in Hwalk. rewrite Hsize in Hwalk.
  assert (Hp : (List.length h < List.length (h ++ [createBeginState n]))%nat)
    by (rewrite length_app; simpl; lia).
  assert (Hocc : exists f, In (Chain.deref (h ++ [createBeginState n]) (List.length h), f) ws)
    by (rewrite deref_fresh; now apply begin_state_occurs).
  destruct (walk_loop_windows runs n c Hn Hrep Hb draws _ _ _ _ _ _ Hdraws
              Hp Hocc Hwalk) as (new & E & Hnew & Hwin & Hexit).
  simpl in E. subst new. rewrite deref_fresh in Hwin, Hexit.
  split; [exact Hnew|]. split; [exact Hwin | now apply Hexit].
Qed.

Lemma firstn_skipn_app {A : Type} (n i : nat) (l l' : list A) :
  (i + n <= List.length l)%nat ->
  firstn n (skipn i (l ++ l')) = firstn n (skipn i l).
Proof.
  intros H. rewrite skipn_app, firstn_app, length_skipn.
  replace (n - (List.length l - i))%nat with 0%nat by lia.
  replace (i - List.length l)%nat with 0%nat by lia.
  simpl. now rewrite List.app_nil_r.
Qed.

(** X10.  On a chain built from a corpus of symbols that JSON can
    represent, with draws in [0, 1), what [walk()] returns reads like the
    corpus: every window of the returned run, padded like a run of the
    corpus, is a window of the corpus.  On the chain of the empty corpus
    [walk()] returns the empty run, at once and without a draw, and
    leaves its fresh begin state behind. *)
Theorem walk_follows_corpus (runs : list (list any)) (n : Z) (c : Chain.t) :
  1 <= n ->
  forallb (forallb representable) runs = true ->
  Chain.constructor (VArr (map VArr runs)) (VNum (Int n)) = Returns c ->
  (runs = [] ->
   forall (h : Chain.heap) (draws : list Q),
     Chain.walk c h Chain.Omitted draws =
     Some (Returns [], h ++ [createBeginState n])) /\
  (runs <> [] ->
   forall (h : Chain.heap) (draws : list Q) (steps : list any) (h' : Chain.heap),
     Forall (fun random : Q => (0 <= random)%Q /\ (random < 1)%Q) draws ->
     Chain.walk c h Chain.Omitted draws = Some (Returns steps, h') ->
     incl (windows (Z.to_nat n) steps) (corpus_windows (Z.to_nat n) runs)).
Proof.
  intros Hn Hrep Hc. split.
  - intros -> h draws. now apply walk_empty_corpus.
  - intros Hne h draws steps h' Hdraws Hwalk.
    destruct (walk_trace runs n c h draws steps h' Hn Hrep Hc Hdraws Hwalk Hne)
      as (_ & Hwin & Hend).
    intros w Hw. apply in_map_iff in Hw as (i & <- & Hi). apply in_seq in Hi.
    unfold padded. rewrite List.app_assoc.
    rewrite firstn_skipn_app by (rewrite length_app, repeat_length; lia).
    destruct (Nat.eq_dec i (List.length steps)) as [->|Hlt].
    + rewrite <- List.app_assoc. fold (padded (Z.to_nat n) steps).
      rewrite padded_end, firstn_all2; [exact Hend|].
      rewrite length_skipn, length_app, repeat_length. lia.
    + rewrite <- List.app_assoc. fold (padded (Z.to_nat n) steps).
      rewrite padded_symbol by lia. apply Hwin. lia.
Qed.

Lemma walk_follows_corpus_witness :
  incl (windows 1 [VStr "foo"; VStr "bar"; VStr "baz"; VStr "qux."])
       (corpus_windows 1 example_corpus) /\
  Chain.walk {| Chain.model := []; Chain.stateSize := 1 |} [] Chain.Omitted [] =
  Some (Returns [], [] ++ [createBeginState 1]).
Proof.
  split.
  - refine (proj2 (walk_follows_corpus example_corpus 1 example_chain
                     ltac:(lia) eq_refl eq_refl) _ []
                  [0; 0; 0; 0; 0]%Q
                  [VStr "foo"; VStr "bar"; VStr "baz"; VStr "qux."]
                  [[VStr "qux."]] _ eq_refl).
    + discriminate.
    + repeat constructor; unfold Qle, Qlt; simpl; lia.
  - exact (proj1 (walk_follows_corpus [] 1 {| Chain.model := []; Chain.stateSize := 1 |}
                    ltac:(lia) eq_refl eq_refl) eq_refl [] []).
Defined.

Lemma last_nth (arr : list any) :
  arr <> [] -> last arr = nth (List.length arr - 1) arr VUndefined.
Proof.
  intros Hne. unfold last, index.
  destruct arr as [|x arr]; [congruence|].
  destruct (Z.ltb_spec (Z.of_nat (List.length (x :: arr)) - 1) 0) as [H|_].
  - simpl List.length in H. lia.
  - f_equal. lia.
Qed.

(** X11.  [last] returns [undefined] on the empty array, without an
    error, and the final element of any other array. *)
Theorem last_final_element :
  last [] = VUndefined /\
  (forall (arr : list any) (x : any), last (arr ++ [x]) = x) /\
  (forall arr : list any, arr <> [] -> In (last arr) arr).
Proof.
  split; [reflexivity|]. split.
  - intros arr x. rewrite last_nth by now destruct arr.
    rewrite length_app. simpl.
    replace (List.length arr + 1 - 1)%nat with (List.length arr) by lia.
    apply nth_middle.
  - intros arr Hne. rewrite last_nth by assumption. apply nth_In.
    destruct arr; [congruence | simpl; lia].
Qed.

Lemma nth_repeat_begin (n k : nat) :
  (k < n)%nat -> nth k (repeat (VStr BEGIN) n) VUndefined = VStr BEGIN.
Proof.
  intros Hk. apply (repeat_spec n (VStr BEGIN)). apply nth_In.
  now rewrite repeat_length.
Qed.

Lemma nth_firstn_lt {A : Type} (d : A) (n k : nat) (l : list A) :
  (k < n)%nat -> nth k (firstn n l) d = nth k l d.
Proof.
  revert k l. induction n as [|n IH]; intros k l Hk; [lia|].
  destruct l as [|x l]; [reflexivity|]. destruct k as [|k]; [reflexivity|].
  simpl. apply IH. lia.
Qed.

(** X12.  The first symbol [walk()] returns is the first symbol of a run
    of the corpus, for a corpus of representable symbols without [BEGIN]
    and draws in [0, 1). *)
Theorem walk_first_symbol (runs : list (list any)) (n : Z) (c : Chain.t)
    (h : Chain.heap) (draws : list Q) (first : any) (rest : list any)
    (h' : Chain.heap) :
  1 <= n ->
  forallb (forallb representable) runs = true ->
  (forall run symbol, In run runs -> In symbol run -> symbol <> VStr BEGIN) ->
  Chain.constructor (VArr (map VArr runs)) (VNum (Int n)) = Returns c ->
  Forall (fun random : Q => (0 <= random)%Q /\ (random < 1)%Q) draws ->
  Chain.walk c h Chain.Omitted draws = Some (Returns (first :: rest), h') ->
  exists tail, In (first :: tail) runs.
Proof.
  intros Hn Hrep Hsym Hc Hdraws Hwalk.
  assert (Hne : runs <> []).
  { intros ->. rewrite (walk_empty_corpus n c h draws Hn Hc) in Hwalk.
    discriminate. }
  destruct (walk_trace runs n c h draws _ h' Hn Hrep Hc Hdraws Hwalk Hne)
    as (Hstop & Hwin & _).
  specialize (Hwin 0%nat ltac:(simpl; lia)). simpl skipn in Hwin. simpl nth in Hwin.
  rewrite firstn_app, repeat_length, Nat.sub_diag in Hwin. simpl firstn in Hwin.
  rewrite List.app_nil_r, firstn_all2 in Hwin by now rewrite repeat_length.
  apply in_windows in Hwin as (run & i & Hrun & Hi & Est & Ef).
  assert (i = 0)%nat as ->.
  { destruct i as [|i]; [reflexivity|]. exfalso.
    apply (f_equal (fun l => nth (Z.to_nat n - 1) l VUndefined)) in Est.
    rewrite nth_repeat_begin, nth_firstn_lt, nth_skipn in Est by lia.
    replace (S i + (Z.to_nat n - 1))%nat with (i + Z.to_nat n)%nat in Est by lia.
    rewrite padded_symbol in Est by lia.
    apply (Hsym run (nth i run VUndefined)); [assumption | | now symmetry].
    apply nth_In. lia. }
  destruct run as [|x tail].
  - exfalso.
    change (0 + Z.to_nat n)%nat with (List.length (@nil any) + Z.to_nat n)%nat in Ef.
    rewrite (padded_end (Z.to_nat n) []) in Ef.
    inversion Hstop as [|? ? Hf _]; subst. discriminate Hf.
  - exists tail. rewrite (padded_symbol (Z.to_nat n) (x :: tail) 0) in Ef
      by (simpl; lia).
    simpl in Ef. now subst.
Qed.

Lemma walk_first_symbol_witness :
  exists tail, In (VStr "foo" :: tail) example_corpus.
Proof.
  refine (walk_first_symbol example_corpus 1 example_chain [] [0; 0; 0; 0; 0]%Q
            (VStr "foo") [VStr "bar"; VStr "baz"; VStr "qux."] [[VStr "qux."]]
            ltac:(lia) eq_refl _ eq_refl _ eq_refl).
  - intros run symbol [<-|[<-|[]]] Hs; simpl in Hs;
      repeat (destruct Hs as [<-|Hs]; [discriminate|]); destruct Hs.
  - repeat constructor; unfold Qle, Qlt; simpl; lia.
Defined.

(** X13.  The last symbol [walk()] returns is the last symbol of a run of
    the corpus: [last] of the steps is [last] of a run, for a corpus of
    representable symbols without [BEGIN] and [END] and draws in [0, 1). *)
Theorem walk_last_symbol (runs : list (list any)) (n : Z) (c : Chain.t)
    (h : Chain.heap) (draws : list Q) (steps : list any) (h' : Chain.heap) :
  1 <= n ->
  forallb (forallb representable) runs = true ->
  (forall run symbol,
      In run runs -> In symbol run ->
      symbol <> VStr BEGIN /\ symbol <> VStr END) ->
  Chain.constructor (VArr (map VArr runs)) (VNum (Int n)) = Returns c ->
  Forall (fun random : Q => (0 <= random)%Q /\ (random < 1)%Q) draws ->
  Chain.walk c h Chain.Omitted draws = Some (Returns steps, h') ->
  steps <> [] ->
  exists run, In run runs /\ run <> [] /\ last steps = last run.
Proof.
  intros Hn Hrep Hsym Hc Hdraws Hwalk Hsteps.
  assert (Hne : runs <> []).
  { intros ->. rewrite (walk_empty_corpus n c h draws Hn Hc) in Hwalk.
    injection Hwalk as E _. now symmetry in E. }
  destruct (walk_trace runs n c h draws _ h' Hn Hrep Hc Hdraws Hwalk Hne)
    as (_ & Hwin & Hend).
  assert (Hlen : (0 < List.length steps)%nat) by (destruct steps; [congruence | simpl; lia]).
  (* the last step is a symbol of the corpus *)
  specialize (Hwin (List.length steps - 1)%nat ltac:(lia)).
  rewrite <- last_nth in Hwin by assumption.
  pose proof (windows_follow (Z.to_nat n) runs) as Hfol.
  rewrite Forall_forall in Hfol. specialize (Hfol _ Hwin). simpl in Hfol.
  (* the state before [END] ends with it *)
  apply in_windows in Hend as (run & i & Hrun & Hi & Est & Ef).
  assert (i = List.length run) as ->.
  { destruct (Nat.eq_dec i (List.length run)) as [|Hlt]; [assumption|]. exfalso.
    rewrite padded_symbol in Ef by lia.
    apply (Hsym run (nth i run VUndefined)); [assumption | | now symmetry].
    apply nth_In. lia. }
  apply (f_equal (fun l => nth (Z.to_nat n - 1) l VUndefined)) in Est.
  rewrite nth_firstn_lt, !nth_skipn in Est by lia.
  rewrite app_nth2 in Est by (rewrite repeat_length; lia).
  rewrite repeat_length in Est.
  replace (List.length steps + (Z.to_nat n - 1) - Z.to_nat n)%nat
    with (List.length steps - 1)%nat in Est by lia.
  rewrite <- last_nth in Est by assumption.
  destruct run as [|x run'] eqn:Erun.
  - exfalso. simpl in Est. unfold padded in Est.
    rewrite app_nth1, nth_repeat_begin in Est by (rewrite ?repeat_length; lia).
    rewrite Est in Hfol. destruct Hfol as [E|(run0 & Hrun0 & Hs)]; [discriminate|].
    now destruct (Hsym _ _ Hrun0 Hs).
  - exists (x :: run'). split; [assumption|]. split; [discriminate|].
    rewrite Est, last_nth by discriminate.
    replace (List.length (x :: run') + (Z.to_nat n - 1))%nat
      with (List.length (x :: run') - 1 + Z.to_nat n)%nat by (simpl; lia).
    apply padded_symbol. simpl. lia.
Qed.

Lemma walk_last_symbol_witness :
  exists run,
    In run example_corpus /\ run <> [] /\
    last [VStr "foo"; VStr "bar"; VStr "baz"; VStr "qux."] = last run.
Proof.
  refine (walk_last_symbol example_corpus 1 example_chain [] [0; 0; 0; 0; 0]%Q
            [VStr "foo"; VStr "bar"; VStr "baz"; VStr "qux."] [[VStr "qux."]]
            ltac:(lia) eq_refl _ eq_refl _ eq_refl ltac:(discriminate)).
  - intros run symbol [<-|[<-|[]]] Hs; simpl in Hs;
      repeat (destruct Hs as [<-|Hs]; [split; discriminate|]); destruct Hs.
  - repeat constructor; unfold Qle, Qlt; simpl; lia.
Defined.

(** ** What [walk] does to the arrays of its caller *)

Lemma values_satisfy_True (m : Model) : values_satisfy (fun _ => True) m.
Proof. intros stateKey state _ key r _. exact I. Qed.

(** X14.  [walk] slides the window in the array it is given, and touches
    no other array: after [walk(fromState)] the array holds its old
    content with one symbol dropped at the front and one step appended at
    the back for every step returned, so, when it was not empty, what is
    left of it after as many drops as there are steps, followed by the
    steps that still fit; without an argument every array of the caller
    is left as it was. *)
Theorem walk_slides_fromState (c : Chain.t) (h : Chain.heap) (draws : list Q)
    (steps : list any) (h' : Chain.heap) :
  (forall p,
      (p < List.length h)%nat ->
      Chain.walk c h (Chain.ArrayRef p) draws = Some (Returns steps, h') ->
      List.length h' = List.length h /\
      Chain.deref h' p = slide (Chain.deref h p) steps /\
      (Chain.deref h p <> [] ->
       Chain.deref h' p = skipn (List.length steps) (Chain.deref h p ++ steps) /\
       List.length (Chain.deref h' p) = List.length (Chain.deref h p)) /\
      (forall q, q <> p -> Chain.deref h' q = Chain.deref h q)) /\
  (Chain.walk c h Chain.Omitted draws = Some (Returns steps, h') ->
   forall q, (q < List.length h)%nat -> Chain.deref h' q = Chain.deref h q).
Proof.
  split.
  - intros p Hp. unfold Chain.walk.
    destruct (Chain.walk_loop c draws h p []) as [[[|] steps0] h1] eqn:Hloop;
      [|discriminate].
    intros [= <- <-].
    destruct (walk_loop_invariant (fun _ => True) c (values_satisfy_True _)
                draws h p [] true steps0 h1 Hp Hloop)
      as (new & E & _ & Hlen & Hst & Hother).
    simpl in E. subst new. split; [exact Hlen|]. split; [exact Hst|].
    split; [|exact Hother].
    intros Hne. rewrite Hst. exact (slide_skipn steps0 _ Hne).
  - intros Hwalk q Hq. apply walk_omitted in Hwalk.
    assert (Hp : (List.length h <
                  List.length (h ++ [createBeginState (Chain.stateSize c)]))%nat)
      by (rewrite length_app; simpl; lia).
    destruct (walk_loop_invariant (fun _ => True) c (values_satisfy_True _)
                draws _ _ [] true steps h' Hp Hwalk)
      as (_ & _ & _ & _ & _ & Hother).
    rewrite Hother by lia. unfold Chain.deref. now rewrite app_nth1.
Qed.

Lemma walk_slides_fromState_witness :
  List.length [[VStr "qux."]] = List.length [[VStr "foo"]] /\
  Chain.deref [[VStr "qux."]] 0 =
    slide (Chain.deref [[VStr "foo"]] 0) [VStr "bar"; VStr "baz"; VStr "qux."] /\
  (Chain.deref [[VStr "foo"]] 0 <> [] ->
   Chain.deref [[VStr "qux."]] 0 =
     skipn (List.length [VStr "bar"; VStr "baz"; VStr "qux."])
           (Chain.deref [[VStr "foo"]] 0 ++ [VStr "bar"; VStr "baz"; VStr "qux."]) /\
   List.length (Chain.deref [[VStr "qux."]] 0) =
     List.length (Chain.deref [[VStr "foo"]] 0)) /\
  (forall q, q <> 0%nat ->
     Chain.deref [[VStr "qux."]] q = Chain.deref [[VStr "foo"]] q).
Proof.
  apply (proj1 (walk_slides_fromState example_chain [[VStr "foo"]] [0; 0; 0; 0]%Q
                  [VStr "bar"; VStr "baz"; VStr "qux."] [[VStr "qux."]]) 0%nat).
  - simpl. lia.
  - reflexivity.
Defined.

(** ** Reading a serialised chain whose entries repeat or are out of order *)

Lemma forM_assign {X A : Type} (key : X -> string) (val : X -> A) (l : list X) :
  Forall (fun x => key x <> "__proto__") l ->
  forall acc : object A,
    forM (fun acc x => obj_assign (key x) (val x) acc) acc l =
    Returns (defined_in_turn key val l acc).
Proof.
  induction 1 as [|x l Hx _ IH]; intros acc; [reflexivity|]. simpl.
  unfold obj_assign at 1. destruct (String.eqb_spec (key x) "__proto__"); [contradiction|].
  simpl. apply IH.
Qed.

Lemma defined_in_turn_snoc {X A : Type} (key : X -> string) (val : X -> A) l x
    (acc : object A) :
  defined_in_turn key val (l ++ [x]) acc =
  obj_set (key x) (val x) (defined_in_turn key val l acc).
Proof. unfold defined_in_turn. now rewrite fold_left_app. Qed.

(** The last definition of a key is the one that counts. *)
Lemma obj_get_defined_in_turn {X A : Type} (key : X -> string) (val : X -> A) k l :
  obj_get k (defined_in_turn key val l ([] : object A)) =
  obj_get k (rev (map (fun x => (key x, val x)) l)).
Proof.
  induction l as [|x l IH] using rev_ind; [reflexivity|].
  rewrite defined_in_turn_snoc, obj_get_set, map_app, rev_app_distr. simpl.
  rewrite IH. reflexivity.
Qed.

Section Traverse.
Context {A B : Type} (f : A -> option B).

Lemma traverse_get k (o : object A) (o' : object B) :
  traverse f o = Some o' ->
  match obj_get k o with
  | Some a => exists b, f a = Some b /\ obj_get k o' = Some b
  | None => obj_get k o' = None
  end.
Proof.
  revert o'. induction o as [|[k0 a0] o IH]; intros o'; simpl.
  - now intros [= <-].
  - destruct (f a0) as [b0|] eqn:E0; [|discriminate].
    destruct (traverse f o) as [bs|]; [|discriminate]. intros [= <-]. simpl.
    destruct (String.eqb k0 k); [eauto | now apply IH].
Qed.

Lemma traverse_modify k a b (o : object A) (o' : object B) :
  traverse f o = Some o' -> f a = Some b ->
  traverse f (obj_modify k (fun _ => a) o) = Some (obj_modify k (fun _ => b) o').
Proof.
  intros Ho Hab. revert o' Ho. induction o as [|[k0 a0] o IH]; intros o'; simpl.
  - now intros [= <-].
  - destruct (f a0) as [b0|] eqn:E0; [|discriminate].
    destruct (traverse f o) as [bs|] eqn:Eo; [|discriminate]. intros [= <-]. simpl.
    destruct (String.eqb k0 k); simpl.
    + now rewrite Hab, Eo.
    + now rewrite E0, (IH bs eq_refl).
Qed.

Lemma traverse_insert_index n k a b (o : object A) (o' : object B) :
  traverse f o = Some o' -> f a = Some b ->
  traverse f (obj_insert_index n k a o) = Some (obj_insert_index n k b o').
Proof.
  intros Ho Hab. revert o' Ho. induction o as [|[k0 a0] o IH]; intros o'; simpl.
  - intros [= <-]. simpl. now rewrite Hab.
  - destruct (f a0) as [b0|] eqn:E0; [|discriminate].
    destruct (traverse f o) as [bs|] eqn:Eo; [|discriminate]. intros [= <-]. simpl.
    destruct (array_index k0) as [n0|]; [destruct (n <? n0)%N|]; simpl;
      rewrite ?Hab, ?E0, ?Eo; try reflexivity.
    now rewrite (IH bs eq_refl).
Qed.

Lemma traverse_snoc k a b (o : object A) (o' : object B) :
  traverse f o = Some o' -> f a = Some b ->
  traverse f (o ++ [(k, a)]) = Some (o' ++ [(k, b)]).
Proof.
  intros Ho Hab. revert o' Ho. induction o as [|[k0 a0] o IH]; intros o'; simpl.
  - intros [= <-]. simpl. now rewrite Hab.
  - destruct (f a0) as [b0|] eqn:E0; [|discriminate].
    destruct (traverse f o) as [bs|] eqn:Eo; [|discriminate]. intros [= <-].
    now rewrite (IH bs eq_refl).
Qed.

Lemma traverse_set k a b (o : object A) (o' : object B) :
  traverse f o = Some o' -> f a = Some b ->
  traverse f (obj_set k a o) = Some (obj_set k b o').
Proof.
  intros Ho Hab. unfold obj_set, obj_has.
  pose proof (traverse_get k o o' Ho) as Hk.
  destruct (obj_get k o) as [a0|].
  - destruct Hk as (b0 & _ & ->). now apply traverse_modify.
  - rewrite Hk. destruct (array_index k); [now apply traverse_insert_index|].
    now apply traverse_snoc.
Qed.

Lemma traverse_defined_in_turn {X : Type} (key : X -> string) (val : X -> A)
    (val' : X -> B) (l : list X) :
  (forall x, In x l -> f (val x) = Some (val' x)) ->
  traverse f (defined_in_turn key val l []) = Some (defined_in_turn key val' l []).
Proof.
  induction l as [|x l IH] using rev_ind; intros H; [reflexivity|].
  rewrite !defined_in_turn_snoc. apply traverse_set.
  - apply IH. intros y Hy. apply H. apply in_or_app. now left.
  - apply H. apply in_or_app. right. now left.
Qed.
End Traverse.

Lemma well_formed_entries n entries :
  safe_integer n = true -> sound_entries entries ->
  well_formed (Chain.toJSON {| Chain.model := entries; Chain.stateSize := n |}) = true.
Proof.
  intros Hsafe Hent. unfold sound_entries in Hent. rewrite Forall_forall in Hent.
  unfold Chain.toJSON. cbn [Chain.model Chain.stateSize].
  change (well_formed (VObj ?p)) with
    (key_order_ok (map fst p) && forallb (fun kv => well_formed (snd kv)) p).
  apply andb_true_intro. split; [reflexivity|].
  cbn [forallb snd]. change (well_formed (VNum (Int ?z))) with (safe_integer z).
  rewrite Hsafe, andb_true_r. cbn [andb].
  change (well_formed (VArr ?l)) with (forallb well_formed l).
  apply forallb_forall. intros e He.
  apply in_map_iff in He as ([state follows] & <- & Hin).
  destruct (Hent _ Hin) as [_ Hrecs]. cbn [snd] in Hrecs.
  rewrite Forall_forall in Hrecs.
  change (well_formed (VArr ?l)) with (forallb well_formed l).
  cbn [forallb]. change (well_formed (VStr state)) with true.
  rewrite andb_true_r. cbn [andb].
  change (well_formed (VArr ?l)) with (forallb well_formed l).
  apply forallb_forall. intros e He.
  apply in_map_iff in He as ([follow r] & <- & Hr).
  destruct (Hrecs _ Hr) as (_ & Hv & Hc). cbn [snd] in Hv, Hc.
  change (well_formed (VArr ?l)) with (forallb well_formed l).
  cbn [forallb]. change (well_formed (VStr follow)) with true.
  rewrite andb_true_r. cbn [andb]. unfold any_of_record.
  change (well_formed (VObj ?p)) with
    (key_order_ok (map fst p) && forallb (fun kv => well_formed (snd kv)) p).
  apply andb_true_intro. split; [reflexivity|].
  cbn [forallb snd]. change (well_formed (VNum (Int ?z))) with (safe_integer z).
  now rewrite Hv, Hc.
Qed.

Lemma hydrate_entries n entries :
  sound_entries entries ->
  Chain.hydrate
    (VObj [("stateSize", VNum (Int n)); ("model", VArr (map kept_entry entries))]) =
  Returns
    {| Chain.model :=
         defined_in_turn fst
           (fun st : string * list (string * FollowData) =>
              defined_in_turn fst (fun fe : string * FollowData => kept (snd fe))
                (snd st) [])
           entries [];
       Chain.stateSize := or_default n |}.
Proof.
  intros Hent. unfold sound_entries in Hent.
  unfold Chain.hydrate.
  cbn [get_field obj_get String.eqb Ascii.eqb Bool.eqb bind elements].
  rewrite forM_map.
  rewrite (forM_snoc_map
             (fun st : string * list (string * FollowData) =>
                (VStr (fst st),
                 defined_in_turn fst
                   (fun fe : string * FollowData => kept_record (snd fe))
                   (snd st) []))).
  2:{ intros states [state follows] Hin.
      rewrite Forall_forall in Hent. destruct (Hent _ Hin) as [_ Hrecs].
      cbn [kept_entry destructure2 nth bind fst snd elements].
      rewrite forM_map.
      rewrite (forM_ext_in _
                 (fun acc (fe : string * FollowData) =>
                    obj_assign (fst fe) (kept_record (snd fe)) acc)).
      2:{ intros acc [follow r] _. cbn [destructure2 nth bind fst snd].
          destruct (kept_record_object r) as (props & -> & ->).
          reflexivity. }
      rewrite (forM_assign fst (fun fe : string * FollowData => kept_record (snd fe))).
      - reflexivity.
      - cbn [snd] in Hrecs. eapply Forall_impl; [|exact Hrecs]. now intros fe [? _]. }
  cbn [bind app]. rewrite forM_map.
  rewrite (forM_ext_in _
             (fun acc (st : string * list (string * FollowData)) =>
                obj_assign (fst st)
                  (VObj (defined_in_turn fst
                           (fun fe : string * FollowData => kept_record (snd fe))
                           (snd st) [])) acc)).
  2:{ intros acc [state follows] _. reflexivity. }
  rewrite (forM_assign fst
             (fun st : string * list (string * FollowData) =>
                VObj (defined_in_turn fst
                        (fun fe : string * FollowData => kept_record (snd fe))
                        (snd st) []))).
  2:{ eapply Forall_impl; [|exact Hent]. now intros st [? _]. }
  cbn [bind]. unfold Chain.constructor.
  assert (Hsize : (if truthy (VNum (Int n))
                   then Returns n else Returns DEFAULT_STATE_SIZE) =
                  Returns (or_default n)).
  { unfold or_default. simpl. now destruct (n =? 0). }
  change (match VNum (Int n) with VNum (Int z) => Returns z | _ => Unmodelled end)
    with (@Returns Z n).
  rewrite Hsize. cbn [bind].
  unfold model_of_any.
  rewrite (traverse_defined_in_turn follow_map_of_any fst _
             (fun st : string * list (string * FollowData) =>
                defined_in_turn fst (fun fe : string * FollowData => kept (snd fe))
                  (snd st) [])).
  - reflexivity.
  - intros [state follows] _. cbn [snd follow_map_of_any].
    apply traverse_defined_in_turn. intros [follow r] _. apply record_of_kept.
Qed.

(** X15.  [fromJSON] takes the serialised entries as they come: it
    accepts them in any order, with keys that repeat; where a state key or
    a follow key repeats, the last entry in the text is the one that
    counts.  A state size of 0 in the text is replaced by the default. *)
Theorem fromJSON_last_entry_wins (n : Z)
    (entries : list (string * list (string * FollowData))) :
  safe_integer n = true ->
  sound_entries entries ->
  exists c,
    Chain.fromJSON (serialized n entries) = Returns c /\
    Chain.stateSize c = or_default n /\
    forall stateKey key,
      transition (Chain.model c) stateKey key =
      match obj_get stateKey (rev entries) with
      | Some follows => option_map kept (obj_get key (rev follows))
      | None => None
      end.
Proof.
  intros Hsafe Hent. eexists. split; [|split].
  - unfold serialized, Chain.fromJSON, Chain.stringify.
    destruct (parse_stringify
                (Chain.toJSON {| Chain.model := entries; Chain.stateSize := n |}))
      as (s & -> & Hparse).
    + now apply well_formed_entries.
    + discriminate.
    + cbn [JSON.property_key]. rewrite Hparse. cbn [bind].
      rewrite normalize_toJSON. cbn [Chain.model Chain.stateSize].
      now apply hydrate_entries.
  - reflexivity.
  - intros sk fk. cbn [Chain.model]. unfold transition.
    rewrite obj_get_defined_in_turn.
    replace (map (fun x : string * list (string * FollowData) =>
                    (fst x, defined_in_turn fst
                              (fun fe : string * FollowData => kept (snd fe))
                              (snd x) [])) entries)
      with (map (fun st : string * list (string * FollowData) =>
                   (fst st, (fun fs => defined_in_turn fst
                                         (fun fe : string * FollowData => kept (snd fe))
                                         fs []) (snd st))) entries) by reflexivity.
    rewrite <- map_rev.
    induction (rev entries) as [|[k fs] l IH]; [reflexivity|]. simpl.
    destruct (String.eqb k sk); [|exact IH].
    rewrite obj_get_defined_in_turn, <- map_rev.
    induction (rev fs) as [|[k' r] l' IH']; [reflexivity|]. simpl.
    now destruct (String.eqb k' fk).
Qed.

Lemma fromJSON_last_entry_wins_witness :
  exists c,
    Chain.fromJSON
      (serialized 0 [(createStateKey (VStr "a"), [once (VStr "x") 1; once (VStr "y") 1]);
                     (createStateKey (VStr "a"), [once (VStr "x") 5; once (VStr "x") 7])])
      = Returns c /\
    Chain.stateSize c = 1 /\
    transition (Chain.model c) (createStateKey (VStr "a")) (followKey (VStr "x")) =
      Some {| value := VStr "x"; count := 7 |} /\
    transition (Chain.model c) (createStateKey (VStr "a")) (followKey (VStr "y")) = None.
Proof.
  destruct (fromJSON_last_entry_wins 0
              [(createStateKey (VStr "a"), [once (VStr "x") 1; once (VStr "y") 1]);
               (createStateKey (VStr "a"), [once (VStr "x") 5; once (VStr "x") 7])])
    as (c & Hc & Hs & Ht).
  - reflexivity.
  - repeat constructor; discriminate.
  - exists c. split; [exact Hc|]. split; [exact Hs|]. now rewrite !Ht.
Defined.

(** ** The exceptions of fromJSON *)

Lemma throws_only_bind {A B : Type} (P : exn -> Prop) (m : outcome A)
    (k : A -> outcome B) :
  throws_only P m -> (forall a, m = Returns a -> throws_only P (k a)) ->
  throws_only P (bind m k).
Proof.
  intros Hm Hk e. destruct m as [a|e'|]; simpl.
  - now apply Hk.
  - intros [= <-]. now apply Hm.
  - discriminate.
Qed.

Lemma throws_only_forM {A S : Type} (P : exn -> Prop) (body : S -> A -> outcome S)
    (l : list A) :
  (forall s a, In a l -> throws_only P (body s a)) ->
  forall s, throws_only P (forM body s l).
Proof.
  induction l as [|a l IH]; intros H s; simpl; [discriminate|].
  apply throws_only_bind; [apply H; now left|].
  intros s' _. apply IH. intros s'' a' Hin. apply H. now right.
Qed.

Lemma throws_only_no_throw {A : Type} (P : exn -> Prop) (m : outcome A) :
  no_throw m -> throws_only P m.
Proof. intros H e He. now destruct (H e). Qed.

Lemma throws_only_returns {A : Type} (P : exn -> Prop) (a : A) :
  throws_only P (Returns a).
Proof. discriminate. Qed.

Lemma throws_only_throws {A : Type} (P : exn -> Prop) e :
  P e -> throws_only P (@Throws A e).
Proof. now intros H e' [= <-]. Qed.

Lemma throws_only_unmodelled {A : Type} (P : exn -> Prop) :
  throws_only P (@Unmodelled A).
Proof. discriminate. Qed.

Lemma lex_string_throws (n : nat) : forall s,
  (List.length s <= n)%nat -> throws_only is_syntax (lex_string s).
Proof.
  induction n as [|n IH]; intros s Hn.
  - destruct s; [now apply throws_only_throws | simpl in Hn; lia].
  - destruct s as [|c s]; [now apply throws_only_throws|]. simpl in Hn.
    assert (Hplain : forall (x : ascii) s0, (List.length s0 <= n)%nat ->
               throws_only is_syntax
                 ('(str0, rest0) <- lex_string s0 ;; Returns (String x str0, rest0))).
    { intros x s0 H0. apply throws_only_bind; [apply IH; lia|].
      intros [str0 rest0] _. apply throws_only_returns. }
    destruct c as [[|] [|] [|] [|] [|] [|] [|] [|]];
      try (exact (Hplain _ s ltac:(lia)));
      try (now apply throws_only_throws);
      try (apply throws_only_returns).
    destruct s as [|e s]; [now apply throws_only_throws|]. simpl in Hn.
    destruct e as [[|] [|] [|] [|] [|] [|] [|] [|]];
      try (exact (Hplain _ s ltac:(lia)));
      try (now apply throws_only_throws).
    destruct s as [|a [|b [|c [|d s]]]]; try (now apply throws_only_throws).
    simpl. destruct (hex4 a b c d) as [k|]; [|now apply throws_only_throws].
    destruct (k <? 256)%N; [|apply throws_only_unmodelled].
    apply Hplain. simpl in Hn. lia.
Qed.

Lemma lex_fraction_throws s : throws_only is_syntax (lex_fraction s).
Proof.
  unfold lex_fraction. destruct s as [|c s]; [apply throws_only_returns|].
  assert (Hdot : throws_only is_syntax
                   match span_digits s with
                   | ([], _) => Throws SyntaxError
                   | (_ :: _, rest0) => Returns (true, rest0)
                   end).
  { destruct (span_digits s) as [[|d ds] rest0];
      [now apply throws_only_throws | apply throws_only_returns]. }
  destruct c as [[|] [|] [|] [|] [|] [|] [|] [|]];
    try apply throws_only_returns; exact Hdot.
Qed.

Lemma lex_exponent_throws s : throws_only is_syntax (lex_exponent s).
Proof.
  unfold lex_exponent. destruct s as [|c s]; [apply throws_only_returns|].
  assert (Hexp : forall s0, throws_only is_syntax
                   match span_digits s0 with
                   | ([], _) => Throws SyntaxError
                   | (_ :: _, rest0) => Returns (true, rest0)
                   end).
  { intros s0. destruct (span_digits s0) as [[|d ds] rest0];
      [now apply throws_only_throws | apply throws_only_returns]. }
  destruct c as [[|] [|] [|] [|] [|] [|] [|] [|]];
    try apply throws_only_returns; apply Hexp.
Qed.

Lemma lex_number_throws s : throws_only is_syntax (lex_number s).
Proof.
  unfold lex_number. destruct (split_sign s) as [negative s1].
  destruct (span_digits s1) as [[|d ds] s2]; [now apply throws_only_throws|].
  destruct (leading_zero (d :: ds)); [now apply throws_only_throws|].
  apply throws_only_bind; [apply lex_fraction_throws|]. intros [frac s3] _.
  apply throws_only_bind; [apply lex_exponent_throws|]. intros [exp s4] _.
  destruct (NilEmpty.uint_of_string _); [|apply throws_only_unmodelled].
  destruct (_ || _); [apply throws_only_unmodelled | apply throws_only_returns].
Qed.

Lemma prepend_throws {A : Type} (P : exn -> Prop) (a : A) m :
  throws_only P m -> throws_only P (prepend a m).
Proof.
  intros H. unfold prepend. apply throws_only_bind; [exact H|].
  intros l _. apply throws_only_returns.
Qed.

Lemma lex_throws (fuel : nat) : forall s, throws_only is_syntax (lex fuel s).
Proof.
  induction fuel as [|fuel IH]; intros s; [apply throws_only_unmodelled|].
  destruct s as [|c s]; [apply throws_only_returns|].
  assert (Hstr : throws_only is_syntax
            ('(str, rest) <- lex_string s ;; prepend (TString str) (lex fuel rest))).
  { apply throws_only_bind; [apply (lex_string_throws _ _ (Nat.le_refl _))|].
    intros [str rest] _. apply prepend_throws, IH. }
  assert (Hnum : throws_only is_syntax
            ('(z, rest) <- lex_number (c :: s) ;; prepend (TNumber z) (lex fuel rest))).
  { apply throws_only_bind; [apply lex_number_throws|].
    intros [z rest] _. apply prepend_throws, IH. }
  assert (Hkw : forall (t : token) rest, throws_only is_syntax (prepend t (lex fuel rest)))
    by (intros t rest; apply prepend_throws, IH).
  assert (Hsyn : throws_only is_syntax (@Throws (list token) SyntaxError))
    by now apply throws_only_throws.
  destruct c as [[|] [|] [|] [|] [|] [|] [|] [|]];
    cbn [lex is_ws is_digit Ascii.eqb Bool.eqb orb];
    try exact Hsyn; try apply IH; try apply Hkw;
    try exact Hstr; try exact Hnum.
  - destruct s as [|[[|] [|] [|] [|] [|] [|] [|] [|]] s]; try exact Hsyn.
    destruct s as [|[[|] [|] [|] [|] [|] [|] [|] [|]] s]; try exact Hsyn.
    destruct s as [|[[|] [|] [|] [|] [|] [|] [|] [|]] s]; try exact Hsyn.
    first [ apply Hkw
          | destruct s as [|[[|] [|] [|] [|] [|] [|] [|] [|]] s]; try exact Hsyn;
            apply Hkw ].
  - destruct s as [|[[|] [|] [|] [|] [|] [|] [|] [|]] s]; try exact Hsyn.
    destruct s as [|[[|] [|] [|] [|] [|] [|] [|] [|]] s]; try exact Hsyn.
    destruct s as [|[[|] [|] [|] [|] [|] [|] [|] [|]] s]; try exact Hsyn.
    first [ apply Hkw
          | destruct s as [|[[|] [|] [|] [|] [|] [|] [|] [|]] s]; try exact Hsyn;
            apply Hkw ].
  - destruct s as [|[[|] [|] [|] [|] [|] [|] [|] [|]] s]; try exact Hsyn.
    destruct s as [|[[|] [|] [|] [|] [|] [|] [|] [|]] s]; try exact Hsyn.
    destruct s as [|[[|] [|] [|] [|] [|] [|] [|] [|]] s]; try exact Hsyn.
    first [ apply Hkw
          | destruct s as [|[[|] [|] [|] [|] [|] [|] [|] [|]] s]; try exact Hsyn;
            apply Hkw ].
Qed.

Lemma parser_throws (fuel : nat) :
  (forall ts, throws_only is_syntax (parse_value fuel ts)) /\
  (forall ts, throws_only is_syntax (parse_elements fuel ts)) /\
  (forall ts acc, throws_only is_syntax (parse_members fuel ts acc)).
Proof.
  induction fuel as [|fuel (IHv & IHe & IHm)];
    [repeat split; intros; apply throws_only_unmodelled|].
  assert (Hsyn : forall A, throws_only is_syntax (@Throws A SyntaxError))
    by (intros A; now apply throws_only_throws).
  split; [|split].
  - intros ts.
    assert (Hm : forall ts0,
               throws_only is_syntax
                 ('(props, rest') <- parse_members fuel ts0 [] ;;
                  Returns (VObj props, rest'))).
    { intros ts0. apply throws_only_bind; [apply IHm|].
      intros [props rest] _. apply throws_only_returns. }
    assert (He : forall ts0,
               throws_only is_syntax
                 ('(elems, rest') <- parse_elements fuel ts0 ;;
                  Returns (VArr elems, rest'))).
    { intros ts0. apply throws_only_bind; [apply IHe|].
      intros [elems rest] _. apply throws_only_returns. }
    destruct ts as [|t ts]; [apply Hsyn|].
    destruct t; try apply Hsyn; try apply throws_only_returns.
    + destruct ts as [|t ts]; [apply Hm|].
      destruct t; try apply Hm. apply throws_only_returns.
    + destruct ts as [|t ts]; [apply He|].
      destruct t; try apply He. apply throws_only_returns.
  - intros ts. simpl. apply throws_only_bind; [apply IHv|].
    intros [v rest] _. destruct rest as [|t rest]; [apply Hsyn|].
    destruct t; try apply Hsyn.
    + apply throws_only_returns.
    + apply throws_only_bind; [apply IHe|].
      intros [vs rest'] _. apply throws_only_returns.
  - intros ts acc. simpl.
    destruct ts as [|t ts]; [apply Hsyn|].
    destruct t; try apply Hsyn.
    destruct ts as [|t ts]; [apply Hsyn|].
    destruct t; try apply Hsyn.
    apply throws_only_bind; [apply IHv|].
    intros [v rest] _. destruct rest as [|t rest]; [apply Hsyn|].
    destruct t; try apply Hsyn; [apply throws_only_returns | apply IHm].
Qed.

Lemma parse_throws text : throws_only is_syntax (parse text).
Proof.
  unfold parse. apply throws_only_bind; [apply lex_throws|]. intros ts _.
  apply throws_only_bind; [apply (proj1 (parser_throws _))|].
  intros [v [|t rest]] _; [apply throws_only_returns | now apply throws_only_throws].
Qed.

(** Whatever the parsed value, [fromJSON] throws after [JSON.parse]
    nothing but a [TypeError], or the corpus error of [build] where the
    value holds the name [__proto__]. *)
Lemma hydrate_throws (P : exn -> Prop) v :
  P TypeError -> (proto_free v = false -> P InvalidCorpus) ->
  throws_only P (Chain.hydrate v).
Proof.
  intros HP _. unfold Chain.hydrate.
  assert (Hfield : forall name, throws_only P (get_field v name)).
  { intros name. destruct v; simpl; try apply throws_only_returns;
      now apply throws_only_throws. }
  assert (Helems : forall x, throws_only P (elements x)).
  { intros x. destruct x; simpl; try apply throws_only_returns;
      try (now apply throws_only_throws).
    destruct (obj_has _ _); [apply throws_only_unmodelled | apply throws_only_returns]. }
  assert (Hpair : forall x, throws_only P (destructure2 x)).
  { intros x. destruct x; simpl; try apply throws_only_returns;
      now apply throws_only_throws. }
  apply throws_only_bind; [apply Hfield|]. intros stateSize _.
  apply throws_only_bind; [apply Hfield|]. intros model _.
  apply throws_only_bind; [apply Helems|]. intros entries _.
  apply throws_only_bind.
  - apply throws_only_forM. intros states entry _.
    apply throws_only_bind; [apply Hpair|]. intros [stateKey follow] _.
    apply throws_only_bind; [apply Helems|]. intros followEntries _.
    apply throws_only_bind; [|intros; apply throws_only_returns].
    apply throws_only_forM. intros followMap fe _.
    apply throws_only_bind; [apply Hpair|]. intros [followKey followData] _.
    apply throws_only_bind;
      [apply throws_only_no_throw, no_throw_object_assign|]. intros copy _.
    apply throws_only_bind;
      [apply throws_only_no_throw, no_throw_to_property_key|]. intros key _.
    apply throws_only_no_throw, no_throw_obj_assign.
  - intros states _. apply throws_only_bind.
    + apply throws_only_forM. intros acc [key value] _.
      apply throws_only_bind;
        [apply throws_only_no_throw, no_throw_to_property_key|]. intros k _.
      apply throws_only_no_throw, no_throw_obj_assign.
    + intros acc _. apply throws_only_no_throw, no_throw_constructor_object.
Qed.

(** X16.  On a text whose data holds neither a property named
    [__proto__] nor the string [__proto__], [fromJSON] throws nothing but
    a [SyntaxError] or a [TypeError]: the constructor is handed a plain
    object, and [build] is not reached.  Whatever the text, it throws a
    [SyntaxError] exactly when the text is not JSON; and a text that holds
    anything but an object ([null], a number, a string, an array), or an
    object without a [model] or with the model [null], is answered by a
    [TypeError]. *)
Theorem fromJSON_exceptions :
  (forall text e,
      Chain.fromJSON text = Throws e ->
      (forall v, JSON.parse text = Returns v -> proto_free v = true) ->
      e = SyntaxError \/ e = TypeError) /\
  (forall text,
      Chain.fromJSON text = Throws SyntaxError <->
      JSON.parse text = Throws SyntaxError) /\
  (forall text v,
      JSON.parse text = Returns v -> lacks_model v = true ->
      Chain.fromJSON text = Throws TypeError).
Proof.
  split; [|split].
  - intros text e. unfold Chain.fromJSON.
    pose proof (parse_throws text) as Hp.
    destruct (JSON.parse text) as [v|e'|]; simpl; try discriminate.
    + intros H Hfree. right.
      apply (hydrate_throws is_type v); [reflexivity| |exact H].
      rewrite (Hfree v eq_refl). discriminate.
    + intros [= <-] _. left. now apply Hp.
  - intros text. unfold Chain.fromJSON.
    destruct (JSON.parse text) as [v|e'|]; simpl.
    + split; [|discriminate]. intros H.
      destruct (hydrate_throws (fun e => e = TypeError \/ e = InvalidCorpus) v)
        with (e := SyntaxError) as [E|E]; auto; discriminate E.
    + split; intros [= ->]; reflexivity.
    + split; discriminate.
  - intros text v H Hv. unfold Chain.fromJSON. rewrite H. cbn [bind].
    unfold Chain.hydrate.
    destruct v as [ | |b|k|s|l|props]; try reflexivity.
    cbn [get_field bind]. simpl in Hv.
    destruct (obj_get "model" props) as [[ | |?|?|?|?|?]|];
      try discriminate; reflexivity.
Qed.

Lemma fromJSON_exceptions_witness :
  Chain.fromJSON "[7]" = Throws TypeError /\
  (forall v, JSON.parse "[7]" = Returns v -> proto_free v = true) /\
  (TypeError = SyntaxError \/ TypeError = TypeError).
Proof.
  assert (Hfree : forall v, JSON.parse "[7]" = Returns v -> proto_free v = true)
    by (intros v [= <-]; reflexivity).
  split; [reflexivity|]. split; [exact Hfree|].
  apply (proj1 fromJSON_exceptions "[7]" TypeError); [reflexivity | exact Hfree].
Defined.

(** ** The constructor *)

(** X17.  The constructor fails as [build] does and not otherwise: with
    the corpus error on a first argument that is neither an array nor an
    object, with the run error on an array with an element that is not an
    array; an object is taken for a model without any check, and never
    rejected. *)
Theorem constructor_failures (x stateSize : any) :
  stateSize = VUndefined \/ (exists z, stateSize = VNum (Int z)) ->
  (Chain.constructor x stateSize = Throws InvalidCorpus <->
   instanceofObject x = false) /\
  (Chain.constructor x stateSize = Throws InvalidRun <->
   exists runs, x = VArr runs /\ forallb isArray runs = false) /\
  (forall e, Chain.constructor x stateSize = Throws e ->
     e = InvalidCorpus \/ e = InvalidRun) /\
  (forall props, x = VObj props -> no_throw (Chain.constructor x stateSize)).
Proof.
  intros Hsize.
  assert (Hs : exists size,
             (if truthy stateSize
              then match stateSize with
                   | VNum (Int z) => Returns z
                   | _ => Unmodelled
                   end
              else Returns DEFAULT_STATE_SIZE) = Returns size).
  { destruct Hsize as [->|[z ->]]; [now exists DEFAULT_STATE_SIZE|].
    simpl. destruct (z =? 0); simpl; eauto. }
  destruct Hs as [size Hs]. unfold Chain.constructor. rewrite Hs. cbn [bind].
  pose proof (build_outcome x size) as Hb.
  destruct x as [ | |b|k|s|runs|props]; cbn [instanceofObject];
    try (rewrite Hb; cbn [bind]; repeat split;
         solve [ reflexivity | discriminate
               | intros (runs & E & _); discriminate E
               | intros e [= <-]; now left
               | intros props E; discriminate E ]).
  - destruct (forallb isArray runs) eqn:Hruns.
    + destruct Hb as [m ->]. cbn [bind]. repeat split;
        solve [ discriminate | intros (runs' & [= <-] & H); congruence
              | intros props E; discriminate E ].
    + rewrite Hb. cbn [bind]. repeat split;
        solve [ discriminate | intros _; now exists runs
              | intros e [= <-]; now right | intros props E; discriminate E ].
  - destruct (model_of_any (VObj props)); repeat split;
      solve [ discriminate | intros (runs & E & _); discriminate E
            | intros props' _ e; discriminate ].
Qed.

Lemma constructor_failures_witness :
  Chain.constructor (VStr "foo bar") (VNum (Int 2)) = Throws InvalidCorpus <->
  instanceofObject (VStr "foo bar") = false.
Proof.
  apply (proj1 (constructor_failures (VStr "foo bar") (VNum (Int 2))
                  (or_intror (ex_intro _ 2 eq_refl)))).
Defined.

(** ** build with the state size 0 *)

Lemma map_nth_seq {A : Type} (d : A) (l : list A) : forall pre : list A,
  map (fun i => nth i (pre ++ l) d) (seq (List.length pre) (List.length l)) = l.
Proof.
  induction l as [|x l IH]; intros pre; [reflexivity|]. simpl. f_equal.
  - now rewrite nth_middle.
  - specialize (IH (pre ++ [x])). rewrite <- List.app_assoc, length_app in IH.
    simpl in IH. now rewrite Nat.add_1_r in IH.
Qed.

Lemma observe_zero run m i :
  (i <= List.length run)%nat ->
  Chain.observe 0 (padded 1 run) m i =
  Chain.record m
    (createStateKey (VArr (if (i =? 0)%nat then [VStr BEGIN] else [])))
    (nth (if (i =? 0)%nat then 1%nat else i) (padded 1 run) VUndefined).
Proof.
  intros Hi. unfold Chain.observe. rewrite Z.add_0_r.
  destruct i as [|i].
  - cbn [Nat.eqb Z.of_nat Z.eqb]. f_equal. do 2 f_equal.
    unfold slice. rewrite length_padded. cbn [Z.ltb Z.compare].
    rewrite Z.min_l, Z.min_l by (unfold DEFAULT_STATE_SIZE; lia).
    reflexivity.
  - destruct (Z.eqb_spec (Z.of_nat (S i)) 0) as [E|_]; [lia|].
    cbn [Nat.eqb]. f_equal.
    + do 2 f_equal. unfold slice. rewrite length_padded.
      destruct (Z.ltb_spec (Z.of_nat (S i)) 0) as [?|_]; [lia|].
      rewrite Z.sub_diag. reflexivity.
    + unfold index. destruct (Z.ltb_spec (Z.of_nat (S i)) 0) as [?|_]; [lia|].
      now rewrite Nat2Z.id.
Qed.

Lemma build_zero_tally (runs : list (list any)) :
  Chain.build (VArr (map VArr runs)) 0 = Returns (tally (flat_map windows0 runs) []).
Proof.
  unfold Chain.build, tally. rewrite fold_left_flat_map.
  rewrite (forM_returns _
    (fun m run => match run with
                  | VArr symbols =>
                      fold_left (Chain.observe 0 (padded 1 symbols))
                        (seq 0 (List.length symbols + 1)) m
                  | _ => m
                  end)).
  - f_equal. rewrite fold_left_map. apply fold_left_ext_in.
    intros m run _. rewrite Nat.add_1_r. cbn [seq fold_left windows0].
    rewrite (observe_zero run m 0) by lia. cbn [Nat.eqb].
    assert (E1 : nth 1 (padded 1 run) VUndefined = nth 0 (run ++ [VStr END]) VUndefined)
      by reflexivity.
    rewrite E1. set (m1 := Chain.record m _ _).
    rewrite fold_left_map.
    rewrite <- (map_nth_seq VUndefined run [VStr BEGIN]) at 3.
    rewrite fold_left_map. apply fold_left_ext_in.
    intros m' i Hin. apply in_seq in Hin. simpl in Hin.
    rewrite observe_zero by lia.
    destruct (Nat.eqb_spec i 0); [lia|]. cbn [fst snd].
    f_equal. unfold padded. simpl.
    destruct i as [|i]; [lia|]. simpl.
    apply app_nth1. lia.
  - intros m run Hin. apply in_map_iff in Hin as (symbols & <- & _). reflexivity.
Qed.

(** X18.  Called with the state size 0, [build] does not fall back on the
    state size 1.  The run is padded with one [BEGIN], the first window
    goes from [BEGIN] to the first symbol, and every other window has the
    empty state and counts a symbol of the run: the first symbol is
    counted twice, and [END] is counted for an empty run only. *)
Theorem build_stateSize_zero (runs : list (list any)) :
  exists m,
    Chain.build (VArr (map VArr runs)) 0 = Returns m /\
    forall stateKey key,
      count_at m stateKey key =
      keyed_occurrences stateKey key (flat_map windows0 runs).
Proof.
  eexists. split; [apply build_zero_tally|].
  pose proof (tallies_tally (flat_map windows0 runs) [] [] tallies_nil) as Ht.
  simpl in Ht. intros sk fk. specialize (Ht sk fk). unfold count_at.
  destruct (transition _ sk fk); [tauto | congruence].
Qed.

(** ** The begin state *)

Lemma begin_window_only n run i :
  (1 <= n)%nat -> (1 <= i <= List.length run)%nat ->
  ~ In (VStr BEGIN) run ->
  firstn n (skipn i (padded n run)) <> repeat (VStr BEGIN) n.
Proof.
  intros Hn Hi Hno E.
  apply (f_equal (fun l => nth (n - 1) l VUndefined)) in E.
  rewrite nth_repeat_begin, nth_firstn_lt, nth_skipn in E by lia.
  replace (i + (n - 1))%nat with (i - 1 + n)%nat in E by lia.
  rewrite padded_symbol in E by lia.
  apply Hno. rewrite <- E. apply nth_In. lia.
Qed.

Lemma begin_occurrences n run :
  (1 <= n)%nat -> forallb representable run = true -> ~ In (VStr BEGIN) run ->
  state_occurrences (createStateKey (VArr (repeat (VStr BEGIN) n))) (windows n run) = 1.
Proof.
  intros Hn Hrep Hno. unfold state_occurrences, windows.
  rewrite Nat.add_1_r. cbn [seq map filter fst skipn].
  assert (E0 : firstn n (padded n run) = repeat (VStr BEGIN) n).
  { unfold padded. rewrite firstn_app, repeat_length, Nat.sub_diag. simpl.
    rewrite List.app_nil_r. apply firstn_all2. now rewrite repeat_length. }
  rewrite E0, String.eqb_refl. rewrite filter_none; [reflexivity|].
  intros w Hw. apply in_map_iff in Hw as (i & <- & Hi). apply in_seq in Hi.
  cbn [fst]. apply String.eqb_neq. intros E.
  apply createStateKey_injective in E.
  - revert E. apply begin_window_only; [assumption | lia | assumption].
  - apply forallb_forall. intros x Hx.
    pose proof (padded_representable n run Hrep) as Hp.
    rewrite forallb_forall in Hp. apply Hp. eapply in_skipn, in_firstn, Hx.
  - apply forallb_forall. intros x Hx. now apply repeat_spec in Hx as ->.
Qed.

Lemma state_occurrences_app sk ws1 ws2 :
  state_occurrences sk (ws1 ++ ws2) =
  state_occurrences sk ws1 + state_occurrences sk ws2.
Proof. unfold state_occurrences. rewrite filter_app, length_app. lia. Qed.

(** X19.  The begin state is seen once for every run: in the table of a
    corpus of representable symbols without [BEGIN], the counts under the
    key of [createBeginState(stateSize)] add up to the number of runs. *)
Theorem build_begin_total (runs : list (list any)) (n : Z) :
  1 <= n ->
  forallb (forallb representable) runs = true ->
  (forall run, In run runs -> ~ In (VStr BEGIN) run) ->
  exists m,
    Chain.build (VArr (map VArr runs)) n = Returns m /\
    total_at m (createStateKey (VArr (createBeginState n))) =
    Z.of_nat (List.length runs).
Proof.
  intros Hn Hrep Hno. eexists. split; [now apply build_tally|].
  rewrite (proj1 (tally_totals _ [])). unfold total_at. simpl obj_get.
  unfold createBeginState, corpus_windows.
  induction runs as [|run runs IH]; [reflexivity|].
  cbn [flat_map]. rewrite state_occurrences_app.
  simpl in Hrep. apply andb_prop in Hrep as [Hrun Hrep].
  rewrite begin_occurrences; [|lia | assumption | apply Hno; now left].
  specialize (IH Hrep ltac:(intros r Hr; apply Hno; now right)).
  simpl List.length. lia.
Qed.

Lemma build_begin_total_witness :
  exists m,
    Chain.build (VArr (map VArr example_corpus)) 2 = Returns m /\
    total_at m (createStateKey (VArr (createBeginState 2))) = 2.
Proof.
  apply (build_begin_total example_corpus 2); [lia | reflexivity |].
  intros run [<-|[<-|[]]] Hs; simpl in Hs;
    repeat (destruct Hs as [Hs|Hs]; [discriminate|]); destruct Hs.
Defined.

(** ** Walks from a given state *)

(** X20.  [walk(fromState)] continues a state like the corpus does.  On a
    chain built from a corpus of symbols that JSON can represent, started
    on an array that holds a state of the corpus, with draws in [0, 1),
    every step it returns follows in the corpus the window before it, and
    the window it stops at is followed by [END] in the corpus.  Started
    on a state that the corpus does not have, it returns the empty run, at
    once and without a draw, and leaves the array as it was. *)
Theorem walk_continues_state (runs : list (list any)) (n : Z) (c : Chain.t)
    (h : Chain.heap) (p : nat) :
  1 <= n ->
  forallb (forallb representable) runs = true ->
  Chain.constructor (VArr (map VArr runs)) (VNum (Int n)) = Returns c ->
  (p < List.length h)%nat ->
  forallb representable (Chain.deref h p) = true ->
  let ws := corpus_windows (Z.to_nat n) runs in
  let state := Chain.deref h p in
  ((exists follow, In (state, follow) ws) ->
   forall (draws : list Q) (steps : list any) (h' : Chain.heap),
     Forall (fun random : Q => (0 <= random)%Q /\ (random < 1)%Q) draws ->
     Chain.walk c h (Chain.ArrayRef p) draws = Some (Returns steps, h') ->
     (forall i, (i < List.length steps)%nat ->
        In (firstn (Z.to_nat n) (skipn i (state ++ steps)), nth i steps VUndefined)
           ws) /\
     In (skipn (List.length steps) (state ++ steps), VStr END) ws) /\
  ((forall follow, ~ In (state, follow) ws) ->
   forall draws : list Q,
     Chain.walk c h (Chain.ArrayRef p) draws = Some (Returns [], h)).
Proof.
  intros Hn Hrep Hc Hp Hst ws state.
  destruct (constructor_build runs n c Hn Hc) as [_ Hb]. split.
  - intros Hocc draws steps h' Hdraws Hwalk. unfold Chain.walk in Hwalk.
    destruct (Chain.walk_loop c draws h p []) as [[[|] steps0] h1] eqn:Hloop;
      [|discriminate].
    injection Hwalk as <- <-.
    destruct (walk_loop_windows runs n c Hn Hrep Hb draws h p [] true steps0 h1
                Hdraws Hp Hocc Hloop) as (new & E & _ & Hwin & Hexit).
    simpl in E. subst new. split; [exact Hwin | now apply Hexit].
  - intros Hnone draws. unfold Chain.walk.
    rewrite walk_loop_absent; [reflexivity|]. fold state.
    destruct (obj_get (createStateKey (VArr state)) (Chain.model c)) eqn:Es;
      [|reflexivity].
    exfalso.
    assert (Hsome : obj_get (createStateKey (VArr state)) (Chain.model c) <> None)
      by congruence.
    apply (built_state_present runs n _ _ Hn Hb) in Hsome as (w & Hw & E).
    destruct (window_follow_representable (Z.to_nat n) runs (fst w) (snd w) Hrep)
      as [Hf _]; [now destruct w|].
    apply createStateKey_injective in E; [|assumption..].
    apply (Hnone (snd w)). rewrite <- E. now destruct w.
Qed.

Lemma walk_continues_state_witness :
  ((forall i, (i < 3)%nat ->
       In (firstn 1 (skipn i ([VStr "foo"] ++ [VStr "bar"; VStr "baz"; VStr "qux."])),
           nth i [VStr "bar"; VStr "baz"; VStr "qux."] VUndefined)
          (corpus_windows 1 example_corpus)) /\
   In (skipn 3 ([VStr "foo"] ++ [VStr "bar"; VStr "baz"; VStr "qux."]), VStr END)
      (corpus_windows 1 example_corpus)) /\
  Chain.walk example_chain [[VStr "quux"]] (Chain.ArrayRef 0) [] =
  Some (Returns [], [[VStr "quux"]]).
Proof.
  split.
  - refine (proj1 (walk_continues_state example_corpus 1 example_chain
                     [[VStr "foo"]] 0
                     ltac:(lia) eq_refl eq_refl ltac:(simpl; lia) eq_refl) _
                  [0; 0; 0; 0]%Q [VStr "bar"; VStr "baz"; VStr "qux."]
                  [[VStr "qux."]] _ eq_refl).
    + exists (VStr "bar"). vm_compute. tauto.
    + repeat constructor; unfold Qle, Qlt; simpl; lia.
  - refine (proj2 (walk_continues_state example_corpus 1 example_chain
                     [[VStr "quux"]] 0
                     ltac:(lia) eq_refl eq_refl ltac:(simpl; lia) eq_refl) _ []).
    intros follow Hin. vm_compute in Hin.
    repeat (destruct Hin as [Hin|Hin]; [discriminate Hin|]). exact Hin.
Defined.
